(** * Nuyina underway data: port visits, voyages and the parquet cache update

    A shallow embedding of [scripts/detect_voyages.py] and
    [scripts/update_underway.py], followed by the properties of the
    trajectory segmentation engine and of the incremental merge that the
    design document states about them.

    Conventions of the embedding:
    - instants ([datetime] values) are integers, in seconds;
    - module [Geo] reads the floats of the classifier as real numbers: what
      the formulas compute when nothing rounds; module [GeoFloat] evaluates
      the same two functions on binary64 floats, where [math.sqrt] can raise;
    - a dwell time is the exact quotient of two integers, and
      [round(dwell, 1)] is computed on the binary64 value of that quotient;
    - a Python loop that updates local variables is a fold, or a [Fixpoint],
      over a record holding these variables;
    - the file system of the updater is a finite map from paths to datasets. *)

From Stdlib Require Import Floats.
From Stdlib Require Import ZArith QArith Qabs Reals Lra Lia List String Ascii.
From Stdlib Require Import DecimalString.
From stdpp Require Import gmap strings list sorting.

(** * Part I: the embedding *)

(** ** [detect_voyages.py]: the port table and the proximity test *)

(** The two functions in exact arithmetic.  The term [a] is then within
    [0, 1], both square roots are defined and nothing raises.  On floats a
    rounding can take [a] above 1, and [math.sqrt(1 - a)] raises
    [ValueError]: that path is in [GeoFloat] below. *)
Module Geo.
Local Open Scope R_scope.

Record port := {
  name : string;
  lat : R;
  lon : R;
  radius_km : R
}.

Definition PORTS : list port := [
  {| name := "Hobart"; lat := -4288 / 100; lon := 14733 / 100; radius_km := 15 |};
  {| name := "Burnie"; lat := -4105 / 100; lon := 14591 / 100; radius_km := 8 |};
  {| name := "Macquarie Island"; lat := -5450 / 100; lon := 15894 / 100;
     radius_km := 40 |};
  {| name := "Heard Island"; lat := -5310 / 100; lon := 7351 / 100;
     radius_km := 50 |};
  {| name := "Casey"; lat := -6628 / 100; lon := 11053 / 100; radius_km := 80 |};
  {| name := "Davis"; lat := -6858 / 100; lon := 7797 / 100; radius_km := 80 |};
  {| name := "Mawson"; lat := -6760 / 100; lon := 6287 / 100; radius_km := 80 |}
].

(** [math.atan2] on real numbers. *)
Definition atan2 (y x : R) : R :=
  if Rlt_dec 0 x then atan (y / x)
  else if Rlt_dec x 0 then
    if Rle_dec 0 y then atan (y / x) + PI else atan (y / x) - PI
  else if Rlt_dec 0 y then PI / 2
  else if Rlt_dec y 0 then - (PI / 2)
  else 0.

(** The haversine term [a] of two points, in degrees. *)
Definition hav (lat1 lon1 lat2 lon2 : R) : R :=
  let to_rad := PI / 180 in
  let d_lat := (lat2 - lat1) * to_rad in
  let d_lon := (lon2 - lon1) * to_rad in
  (sin (d_lat / 2)) ^ 2
  + cos (lat1 * to_rad) * cos (lat2 * to_rad) * (sin (d_lon / 2)) ^ 2.

(** Great-circle distance in km, nothing rounding; the local [R = 6371] is
    [R_km]. *)
Definition haversine_km (lat1 lon1 lat2 lon2 : R) : R :=
  let R_km := 6371 in
  let a := hav lat1 lon1 lat2 lon2 in
  R_km * 2 * atan2 (sqrt a) (sqrt (1 - a)).

(** The local variables of [detect_port]; [best_dist = None] is
    [float("inf")]. *)
Record best := {
  best_port : option string;
  best_dist : option R
}.

(** [dist < best_dist] *)
Definition closer (dist : R) (best_dist : option R) : bool :=
  match best_dist with
  | None => true
  | Some b => if Rlt_dec dist b then true else false
  end.

(** One iteration of [for port in PORTS], [dist] being the distance of the
    point to the port. *)
Definition detect_step (dist : port -> R) (st : best) (p : port) : best :=
  if closer (dist p) (best_dist st) then
    {| best_dist := Some (dist p);
       best_port :=
         if Rle_dec (dist p) (radius_km p) then Some (name p) else best_port st |}
  else st.

Definition detect_scan (dist : port -> R) (ports : list port) : option string :=
  best_port
    (fold_left (detect_step dist) ports {| best_port := None; best_dist := None |}).

(** Distance of the point [(lat, lon)] to a port. *)
Definition dist_to (lat0 lon0 : R) (p : port) : R :=
  haversine_km lat0 lon0 (lat p) (lon p).

Definition detect_port (lat0 lon0 : R) : option string :=
  detect_scan (dist_to lat0 lon0) PORTS.

(** The classifier in the words of the design document: take the globally
    nearest port, the first one in iteration order among equidistant ports,
    and return its name when its distance is within its own radius. *)
Fixpoint nearest (dist : port -> R) (ports : list port) : option port :=
  match ports with
  | [] => None
  | p :: ps =>
      match nearest dist ps with
      | Some q => if Rlt_dec (dist q) (dist p) then Some q else Some p
      | None => Some p
      end
  end.

Definition classify (dist : port -> R) (ports : list port) : option string :=
  match nearest dist ports with
  | Some p => if Rle_dec (dist p) (radius_km p) then Some (name p) else None
  | None => None
  end.

(** *** Notions used to state the properties of the classifier *)

(** Degrees to radians, and the point of the unit sphere at a latitude and a
    longitude given in degrees. *)
Definition to_rad : R := PI / 180.
Definition ux (lat0 lon0 : R) : R := cos (lat0 * to_rad) * cos (lon0 * to_rad).
Definition uy (lat0 lon0 : R) : R := cos (lat0 * to_rad) * sin (lon0 * to_rad).
Definition uz (lat0 : R) : R := sin (lat0 * to_rad).

(** The angle of the haversine formula for a term [a]. *)
Definition angle (a : R) : R := atan2 (sqrt a) (sqrt (1 - a)).

(** A haversine term that every pair of distinct ports exceeds. *)
Definition far : R := 16 / 100000.

(** The point is within the radius of the port. *)
Definition within (dist : port -> R) (p : port) : Prop := dist p <= radius_km p.

(** A port whose disc holds the point is strictly nearer than every other
    port of the table. *)
Definition isolated (dist : port -> R) (ports : list port) : Prop :=
  forall p q, In p ports -> In q ports -> dist p <= radius_km p ->
              q = p \/ dist p < dist q.

(** A table of two ports with overlapping discs, and the distances of a
    point that is 5 km from the first and 3 km from the second. *)
Definition overlapping : list port := [
  {| name := "Wide"; lat := 0; lon := 0; radius_km := 10 |};
  {| name := "Narrow"; lat := 0; lon := 1 / 20; radius_km := 1 |}
].

Definition between (p : port) : R :=
  if String.eqb (name p) "Wide" then 5 else 3.

End Geo.

(** ** [detect_voyages.py]: the proximity test on binary64 floats *)

(** [haversine_km] and [detect_port] as the interpreter evaluates them: the
    arithmetic is that of IEEE 754 binary64, the table is the one of the
    source with its literals rounded to the nearest float, and the functions
    of the C library are a parameter. *)
Module GeoFloat.
#[local] Set Warnings "-inexact-float".
Local Open Scope float_scope.

(** The outcome of a call that may raise [ValueError]. *)
Inductive raising (A : Type) :=
| Done (a : A)
| ValueError.
Arguments Done {A} a.
Arguments ValueError {A}.

(** The functions of the C library behind [math.sin], [math.cos], [x ** 2]
    and [math.atan2], at finite arguments: their results are not fixed by
    IEEE 754. *)
Record libm := {
  sin : float -> float;
  cos : float -> float;
  pow : float -> float -> float;
  atan2 : float -> float -> float
}.

(** [math.pi] *)
Definition pi : float := 0x1.921fb54442d18p+1.

(** [math.sqrt(x)]: a negative argument is a domain error. *)
Definition math_sqrt (x : float) : raising float :=
  if x <? 0 then ValueError else Done (PrimFloat.sqrt x).

Record port := {
  name : string;
  lat : float;
  lon : float;
  radius_km : float
}.

Definition PORTS : list port := [
  {| name := "Hobart"; lat := -42.88; lon := 147.33; radius_km := 15 |};
  {| name := "Burnie"; lat := -41.05; lon := 145.91; radius_km := 8 |};
  {| name := "Macquarie Island"; lat := -54.50; lon := 158.94; radius_km := 40 |};
  {| name := "Heard Island"; lat := -53.10; lon := 73.51; radius_km := 50 |};
  {| name := "Casey"; lat := -66.28; lon := 110.53; radius_km := 80 |};
  {| name := "Davis"; lat := -68.58; lon := 77.97; radius_km := 80 |};
  {| name := "Mawson"; lat := -67.60; lon := 62.87; radius_km := 80 |}
].

Section Libm.

Variable m : libm.

(** The term [a] of [haversine_km]. *)
Definition hav (lat1 lon1 lat2 lon2 : float) : float :=
  let to_rad := pi / 180 in
  let d_lat := (lat2 - lat1) * to_rad in
  let d_lon := (lon2 - lon1) * to_rad in
  pow m (sin m (d_lat / 2)) 2
  + cos m (lat1 * to_rad) * cos m (lat2 * to_rad) * pow m (sin m (d_lon / 2)) 2.

Definition haversine_km (lat1 lon1 lat2 lon2 : float) : raising float :=
  let R := 6371 in
  let a := hav lat1 lon1 lat2 lon2 in
  match math_sqrt a with
  | ValueError => ValueError
  | Done root =>
      match math_sqrt (1 - a) with
      | ValueError => ValueError
      | Done coroot => Done (R * 2 * atan2 m root coroot)
      end
  end.

(** The local variables of the loop of [detect_port]. *)
Record best := {
  best_port : option string;
  best_dist : float
}.

(** The body of the loop for a distance [dist]. *)
Definition detect_step (st : best) (p : port) (dist : float) : best :=
  if dist <? best_dist st then
    {| best_port := if dist <=? radius_km p then Some (name p) else best_port st;
       best_dist := dist |}
  else st.

(** [for port in PORTS], with the distance function as a parameter; the
    first distance that raises ends the loop. *)
Fixpoint detect_scan (dist : port -> raising float) (ports : list port) (st : best)
  : raising best :=
  match ports with
  | [] => Done st
  | p :: rest =>
      match dist p with
      | ValueError => ValueError
      | Done d => detect_scan dist rest (detect_step st p d)
      end
  end.

Definition dist_to (lat0 lon0 : float) (p : port) : raising float :=
  haversine_km lat0 lon0 (lat p) (lon p).

Definition detect_port (lat0 lon0 : float) : raising (option string) :=
  match detect_scan (dist_to lat0 lon0) PORTS
          {| best_port := None; best_dist := PrimFloat.infinity |} with
  | Done st => Done (best_port st)
  | ValueError => ValueError
  end.

End Libm.

End GeoFloat.

(** ** [detect_voyages.py]: grouping records into port visits *)

Module Visits.

(** A record of [load_data]: one position sample with its detected port. *)
Record rec := {
  gml_id : string;
  datetime : Z;
  lat : R;
  lon : R;
  port : option string
}.

(** A port visit; key ["port"] of the dictionary is [visit_port].  The key
    ["dwell_hours"] is absent until the dwell filter sets it. *)
Record visit := {
  visit_port : string;
  arrive : Z;
  depart : Z;
  arrive_gml_id : string;
  depart_gml_id : string;
  n_points : nat;
  dwell_hours : option Q
}.

(** A row of the query of [load_data]. *)
Record sample := {
  sample_gml_id : string;
  sample_datetime : Z;
  latitude : R;
  longitude : R
}.

(** The loop of [load_data] over the rows of the query, when [detect_port]
    returns on every row; the port is the one of exact arithmetic. *)
Definition load_data (rows : list sample) : list rec :=
  map (fun row =>
         {| gml_id := sample_gml_id row;
            datetime := sample_datetime row;
            lat := latitude row;
            lon := longitude row;
            port := Geo.detect_port (latitude row) (longitude row) |})
      rows.

(** A classified record: its port is absent or a name of the port table. *)
Definition port_names : list string := map Geo.name Geo.PORTS.

Definition classified (r : rec) : bool :=
  match port r with
  | None => true
  | Some n => existsb (String.eqb n) port_names
  end.

Definition MIN_DWELL_HOURS : Q := 2.

(** [port != current_port] on [str | None]. *)
Definition port_eqb (a b : option string) : bool :=
  match a, b with
  | Some x, Some y => String.eqb x y
  | None, None => true
  | _, _ => false
  end.

(** Truth value of [port] in [if port]: [None] and the empty string are false. *)
Definition truthy (port : option string) : bool :=
  match port with
  | Some s => negb (String.eqb s "")
  | None => false
  end.

(** The local variables of the scan loop of [group_port_visits]. *)
Record scan_state := {
  visits : list visit;
  current_port : option string;
  current_records : list rec
}.

(** The dictionary appended for a run: [current_records[0]] is [first] and
    [current_records[-1]] is the last element. *)
Definition make_visit (current_port : string) (first : rec)
  (current_records : list rec) : visit :=
  let last_rec := List.last current_records first in
  {| visit_port := current_port;
     arrive := datetime first;
     depart := datetime last_rec;
     arrive_gml_id := gml_id first;
     depart_gml_id := gml_id last_rec;
     n_points := length current_records;
     dwell_hours := None |}.

(** [if current_port is not None and current_records: visits.append(...)] *)
Definition end_visit (visits : list visit) (current_port : option string)
  (current_records : list rec) : list visit :=
  match current_port, current_records with
  | Some p, first :: _ => visits ++ [make_visit p first current_records]
  | _, _ => visits
  end.

(** One iteration of [for rec in records]. *)
Definition scan_step (st : scan_state) (r : rec) : scan_state :=
  let p := port r in
  if negb (port_eqb p (current_port st)) then
    {| visits := end_visit (visits st) (current_port st) (current_records st);
       current_port := p;
       current_records := if truthy p then [r] else [] |}
  else
    {| visits := visits st;
       current_port := current_port st;
       current_records :=
         if truthy p then current_records st ++ [r] else current_records st |}.

Definition scan_init : scan_state :=
  {| visits := []; current_port := None; current_records := [] |}.

(** The list [visits] when the dwell filter starts: the loop, then the
    trailing run ("Don't forget the last visit"). *)
Definition scan_visits (records : list rec) : list visit :=
  let st := fold_left scan_step records scan_init in
  end_visit (visits st) (current_port st) (current_records st).

(** [(v["depart"] - v["arrive"]).total_seconds() / 3600], as the exact
    quotient.  Its float reaches 2 exactly when the quotient does: 2 is a
    float, and the division rounds to nearest. *)
Definition dwell (v : visit) : Q := (depart v - arrive v) # 3600.

Definition set_dwell_hours (v : visit) (h : Q) : visit :=
  {| visit_port := visit_port v;
     arrive := arrive v;
     depart := depart v;
     arrive_gml_id := arrive_gml_id v;
     depart_gml_id := depart_gml_id v;
     n_points := n_points v;
     dwell_hours := Some h |}.

(** The integer nearest to [q], a tie going to the even one. *)
Definition round_half_even (q : Q) : Z :=
  let n := Qnum q in
  let d := Zpos (Qden q) in
  let f := (n / d)%Z in
  let r := (2 * (n mod d))%Z in
  if (r <? d)%Z then f
  else if (d <? r)%Z then (f + 1)%Z
  else if Z.even f then f else (f + 1)%Z.

(** [float(n)] for an integer below 2^63 in absolute value. *)
Definition float_of_Z (n : Z) : float :=
  if (n <? 0)%Z then (- PrimFloat.of_uint63 (Uint63.of_Z (- n)))%float
  else PrimFloat.of_uint63 (Uint63.of_Z n).

(** The exact value of a finite float. *)
Definition exact (x : float) : Q :=
  match Prim2SF x with
  | S754_finite s mant e =>
      let n := if s then Z.neg mant else Z.pos mant in
      match e with
      | Z0 => n # 1
      | Z.pos p => (n * 2 ^ Z.pos p) # 1
      | Z.neg p => n # (2 ^ p)
      end
  | _ => 0
  end.

(** The float that a division of two integers gives: [q] stands for
    [total_seconds() / 3600], its numerator over its denominator. *)
Definition float_quotient (q : Q) : float :=
  (float_of_Z (Qnum q) / float_of_Z (Zpos (Qden q)))%float.

(** [k] tenths as a float: the float nearest to the decimal [k / 10]. *)
Definition tenths (k : Z) : float := (float_of_Z k / 10)%float.

(** [round(x, 1)] for a finite float: the exact value of [x] is rounded to
    one decimal, a tie going to the even digit, and the decimal is read back
    as a float. *)
Definition round1_float (x : float) : float :=
  tenths (round_half_even (exact x * 10)).

(** [round(dwell, 1)] as a function of the quotient: the value of the float
    that Python stores.  An exact tie of the rational quotient, such as
    2.15, is no tie of its float. *)
Definition round_tenths (q : Q) : Q :=
  Qred (exact (round1_float (float_quotient q))).

Section DwellFilter.

(** [round(., 1)]: [round_tenths] in the program.  What does not depend on
    the rounding is stated for any function. *)
Variable round1 : Q -> Q.

(** One iteration of [for v in visits] of the dwell filter. *)
Definition filter_step (filtered : list visit) (v : visit) : list visit :=
  let d := dwell v in
  if Qle_bool MIN_DWELL_HOURS d
  then filtered ++ [set_dwell_hours v (round1 d)]
  else filtered.

Definition group_port_visits (records : list rec) : list visit :=
  match records with
  | [] => []
  | _ => fold_left filter_step (scan_visits records) []
  end.

End DwellFilter.

(** The aggregator seen by a caller that could receive an exception.  The
    function has no [raise] and no timestamp comparison besides the
    subtraction of the dwell filter: every call returns. *)
Inductive error := DataOrderingError.

Inductive outcome (A : Type) :=
| Returns (a : A)
| Raises (e : error).
Arguments Returns {A} a.
Arguments Raises {A} e.

Definition run_group_port_visits (round1 : Q -> Q) (records : list rec)
  : outcome (list visit) :=
  Returns (group_port_visits round1 records).

(** Timestamps in the order the design document requires of the input. *)
Fixpoint monotonic (ts : list Z) : bool :=
  match ts with
  | t1 :: ((t2 :: _) as rest) => (t1 <=? t2)%Z && monotonic rest
  | _ => true
  end.

(** *** Notions used to state the properties of the aggregator *)

(** Points accounted for by a scan state: those of the visits emitted so far
    and those of the run being accumulated. *)
Definition points (st : scan_state) : nat :=
  list_sum (map n_points (visits st)) + length (current_records st).

(** A run is only accumulated at a port. *)
Definition run_at_port (st : scan_state) : Prop :=
  current_port st = None -> current_records st = [].

(** The test and the annotation of the dwell filter. *)
Definition keep (v : visit) : bool := Qle_bool MIN_DWELL_HOURS (dwell v).

Definition annotate (round1 : Q -> Q) (v : visit) : visit :=
  set_dwell_hours v (round1 (dwell v)).

(** The dwell filter as the data model words it: a visit of the scan is
    retained exactly when its dwell reaches [MIN_DWELL_HOURS], and is then
    annotated with [(depart - arrive) / 3600] itself. *)
Definition annotated_with_dwell (round1 : Q -> Q) (records : list rec) : Prop :=
  forall v, In v (scan_visits records) ->
    (exists h, In (set_dwell_hours v h) (group_port_visits round1 records)
               /\ (h == dwell v)%Q)
    <-> (MIN_DWELL_HOURS <= dwell v)%Q.

(** The error handling the design document asks for: an input whose
    timestamps go backwards makes the aggregator raise. *)
Definition fails_fast (round1 : Q -> Q) (records : list rec) : Prop :=
  monotonic (map datetime records) = false ->
  run_group_port_visits round1 records = Raises DataOrderingError.

(** *** Runs of records *)

(** The maximal runs of consecutive records with the same port, in order:
    a record joins the run that follows it when their ports are equal. *)
Definition same_port (r : rec) (run : list rec) : bool :=
  match run with
  | r' :: _ => port_eqb (port r) (port r')
  | [] => true
  end.

Fixpoint runs (records : list rec) : list (list rec) :=
  match records with
  | [] => []
  | r :: rest =>
      match runs rest with
      | run :: others =>
          if same_port r run then (r :: run) :: others
          else [r] :: run :: others
      | [] => [[r]]
      end
  end.

(** The visit [v] summarises the run [run]: the records of the run are at
    the port of the visit, arrival and departure are the first and the last
    record, and the point count is the length of the run. *)
Definition run_summary (run : list rec) (v : visit) : Prop :=
  exists first,
    head run = Some first
    /\ Forall (fun r => port r = Some (visit_port v)) run
    /\ arrive v = datetime first /\ arrive_gml_id v = gml_id first
    /\ depart v = datetime (List.last run first)
    /\ depart_gml_id v = gml_id (List.last run first)
    /\ n_points v = length run.

(** Two runs that follow each other are at different ports. *)
Fixpoint separated (rs : list (list rec)) : Prop :=
  match rs with
  | a :: ((b :: _) as rest) =>
      match last a, head b with
      | Some x, Some y => port x <> port y
      | _, _ => False
      end
      /\ separated rest
  | _ => True
  end.

(** The visits that the scan emits for a run. *)
Definition visit_of_run (run : list rec) : list visit :=
  match run with
  | first :: _ =>
      match port first with
      | Some p => [make_visit p first run]
      | None => []
      end
  | [] => []
  end.

(** The state of the scan between two records of a sequence without absent
    record: nothing read yet, or a run in progress at the current port. *)
Definition in_run (st : scan_state) : Prop :=
  (current_port st = None /\ current_records st = [])
  \/ exists p, current_port st = Some p /\ current_records st <> []
               /\ Forall (fun r => port r = Some p) (current_records st).

(** *** Notions used to state further properties of the scan *)

(** The records at a named port, those that [if port] accepts. *)
Definition at_named_port (r : rec) : bool := truthy (port r).

(** A run is only accumulated at a port with a name. *)
Definition run_named (st : scan_state) : Prop :=
  truthy (current_port st) = false -> current_records st = [].

(** The visit [v] summarises records of [records]: it has a point, its port
    has a name, and its arrival and departure are read off two records at
    that port. *)
Definition summarises (records : list rec) (v : visit) : Prop :=
  1 <= n_points v
  /\ visit_port v <> ""
  /\ exists first last,
       In first records /\ In last records
       /\ port first = Some (visit_port v) /\ port last = Some (visit_port v)
       /\ arrive v = datetime first /\ arrive_gml_id v = gml_id first
       /\ depart v = datetime last /\ depart_gml_id v = gml_id last.

(** The records of the current run are records of the input at the current
    port, which then has a name. *)
Definition run_of (records : list rec) (st : scan_state) : Prop :=
  Forall (fun r => In r records /\ port r = current_port st) (current_records st)
  /\ (current_records st <> [] -> truthy (current_port st) = true).

(** Arrivals and departures of a list of visits, in order. *)
Definition timeline (vs : list visit) : list Z :=
  flat_map (fun v => [arrive v; depart v]) vs.

(** The invariant of the scan on an input in timestamp order: the timeline
    of the visits, then the current run, then the records still to read, are
    in order. *)
Definition in_order (st : scan_state) (todo : list rec) : Prop :=
  StronglySorted Z.le
    (timeline (visits st)
     ++ map datetime (current_records st) ++ map datetime todo).

End Visits.

(** ** [detect_voyages.py]: grouping visits into voyages *)

Module Voyages.
Import Visits.

(** A voyage; keys ["id"] and ["end"] are [id_] and [end_]. *)
Record voyage := {
  id_ : string;
  note : string;
  start : Z;
  end_ : Z;
  stops : list visit
}.

Definition home_port : string := "Hobart".

(** The local variables of the loop of [group_voyages]. *)
Record seg_state := {
  voyages : list voyage;
  current_stops : list visit;
  voyage_num : nat
}.

Definition seg_init : seg_state :=
  {| voyages := []; current_stops := []; voyage_num := 0 |}.

(** [str(voyage_num)] *)
Definition str_nat (n : nat) : string := NilEmpty.string_of_uint (Nat.to_uint n).

Section Segmenter.

(** [arrive.strftime('%Y-%m')]: the calendar is not embedded. *)
Variable strftime_ym : Z -> string.

(** [f"V{voyage_num} {current_stops[0]['arrive'].strftime('%Y-%m')}"] *)
Definition voyage_label (voyage_num : nat) (first_arrive : Z) : string :=
  "V" ++ str_nat voyage_num ++ " " ++ strftime_ym first_arrive.

Definition make_voyage (voyage_num : nat) (first : visit)
  (current_stops : list visit) : voyage :=
  {| id_ := voyage_label voyage_num (arrive first);
     note := "";
     start := arrive first;
     end_ := depart (List.last current_stops first);
     stops := current_stops |}.

(** [voyage_num += 1; voyages.append({...})], guarded by [if current_stops]. *)
Definition emit (st : seg_state) : seg_state :=
  match current_stops st with
  | [] => st
  | first :: _ =>
      {| voyages :=
           voyages st ++ [make_voyage (S (voyage_num st)) first (current_stops st)];
         current_stops := current_stops st;
         voyage_num := S (voyage_num st) |}
  end.

(** [current_stops = []] after a voyage was saved inside the loop. *)
Definition restart (st : seg_state) : seg_state :=
  match current_stops st with
  | [] => st
  | _ :: _ =>
      {| voyages := voyages st; current_stops := []; voyage_num := voyage_num st |}
  end.

(** [visit["port"] == "Hobart" and i > 0 and visits[i - 1]["port"] != "Hobart"];
    the index [i - 1] is read only when [i > 0], and is then in range. *)
Definition is_new_voyage (visits : list visit) (i : nat) (v : visit) : bool :=
  String.eqb (visit_port v) home_port
  && (0 <? i)
  && match nth_error visits (i - 1) with
     | Some prev => negb (String.eqb (visit_port prev) home_port)
     | None => false
     end.

Definition push (v : visit) (st : seg_state) : seg_state :=
  {| voyages := voyages st;
     current_stops := current_stops st ++ [v];
     voyage_num := voyage_num st |}.

(** [for i, visit in enumerate(visits)], from index [i] on. *)
Fixpoint voyage_loop (visits : list visit) (i : nat) (todo : list visit)
  (st : seg_state) : seg_state :=
  match todo with
  | [] => st
  | v :: todo' =>
      let st' := if is_new_voyage visits i v then restart (emit st) else st in
      voyage_loop visits (S i) todo' (push v st')
  end.

Definition group_voyages (visits : list visit) : list voyage :=
  match visits with
  | [] => []
  | _ => voyages (emit (voyage_loop visits 0 visits seg_init))
  end.

End Segmenter.

(** The split rule in the words of the design document: index [i] is a
    voyage boundary when [i > 0], visit [i] is at the home port and visit
    [i - 1] is not. *)
Definition boundary (visits : list visit) (i : nat) : bool :=
  match i with
  | O => false
  | S j =>
      match nth_error visits j, nth_error visits i with
      | Some prev, Some cur =>
          String.eqb (visit_port cur) home_port
          && negb (String.eqb (visit_port prev) home_port)
      | _, _ => false
      end
  end.

(** The invariant of a voyage that carries the number [number]: it has a
    first stop, [start] and [end] are read off its first and last stops, and
    its identifier is made of [number] and of the month of the first
    arrival. *)
Definition well_formed (strftime_ym : Z -> string) (number : nat) (v : voyage)
  : Prop :=
  match stops v with
  | [] => False
  | first :: _ =>
      start v = arrive first
      /\ end_ v = depart (List.last (stops v) first)
      /\ id_ v = voyage_label strftime_ym number (arrive first)
  end.

(** Voyages numbered 1, 2, ... in the order of the list. *)
Definition numbered (strftime_ym : Z -> string) (vs : list voyage) : Prop :=
  Forall2 (well_formed strftime_ym) (seq 1 (length vs)) vs.

(** The counter of the loop is the number of voyages emitted so far. *)
Definition counted (strftime_ym : Z -> string) (st : seg_state) : Prop :=
  numbered strftime_ym (voyages st) /\ voyage_num st = length (voyages st).

(** All the stops of a list of voyages, in order. *)
Definition all_stops (vs : list voyage) : list visit := concat (map stops vs).

(** Offsets, in the input, of the first stop of each voyage. *)
Fixpoint start_offsets (from : nat) (vs : list voyage) : list nat :=
  match vs with
  | [] => []
  | v :: vs' => from :: start_offsets (from + length (stops v)) vs'
  end.

(** The stops start with a visit at the home port. *)
Definition starts_home (cs : list visit) : Prop :=
  exists s, head cs = Some s /\ visit_port s = home_port.

(** The stops end with a visit away from the home port. *)
Definition ends_away (cs : list visit) : Prop :=
  exists s, last cs = Some s /\ visit_port s <> home_port.

(** Each list of stops but the last ends away from home, and the next one
    starts at home. *)
Fixpoint linked (groups : list (list visit)) : Prop :=
  match groups with
  | a :: ((b :: _) as rest) => ends_away a /\ starts_home b /\ linked rest
  | _ => True
  end.

End Voyages.

(** ** [detect_voyages.py]: the output structure *)

Module Output.
Import Visits Voyages.

(** [str.replace(old, new)] for a non-empty [old]: occurrences are replaced
    from the left, without overlap.  [skip] counts the characters of an
    occurrence still to pass over. *)
Fixpoint replace_from (old new : string) (skip : nat) (s : string) : string :=
  match s with
  | EmptyString => EmptyString
  | String c s' =>
      match skip with
      | S k => replace_from old new k s'
      | O =>
          if String.prefix old s
          then new ++ replace_from old new (String.length old - 1) s'
          else String c (replace_from old new 0 s')
      end
  end.

Definition replace (old new s : string) : string := replace_from old new 0 s.

Record stop_out := {
  port : string;
  arrive : string;
  depart : string;
  arrive_gml_id : string;
  depart_gml_id : string;
  dwell_hours : Q
}.

Record voyage_out := {
  id_ : string;
  note : string;
  start : string;
  end_ : string;
  stops : list stop_out
}.

Record port_out := {
  lat : R;
  lon : R;
  radius_km : R
}.

Record output := {
  generated : string;
  draft_note : string;
  ports : list (string * port_out);
  voyages : list voyage_out
}.

(** [d[key] = value] on a dictionary kept in insertion order. *)
Fixpoint dict_set {V : Type} (d : list (string * V)) (key : string) (value : V)
  : list (string * V) :=
  match d with
  | [] => [(key, value)]
  | (k, v) :: rest =>
      if String.eqb k key then (k, value) :: rest
      else (k, v) :: dict_set rest key value
  end.

(** Every element through [f], or [None] at the first failure. *)
Fixpoint traverse {A B : Type} (f : A -> option B) (l : list A) : option (list B) :=
  match l with
  | [] => Some []
  | x :: l' =>
      match f x with
      | Some y =>
          match traverse f l' with
          | Some ys => Some (y :: ys)
          | None => None
          end
      | None => None
      end
  end.

Section Format.

(** [dt.isoformat()], and the [_generated] timestamp: the calendar and the
    clock are not embedded. *)
Variable isoformat : Z -> string.
Variable now : string.

(** [format_datetime(dt)] for a value that has [isoformat]. *)
Definition format_datetime (dt : Z) : string :=
  replace "+00:00" "Z" (isoformat dt).

(** The dictionary of a stop; [s["dwell_hours"]] raises [KeyError] when the
    key is absent. *)
Definition stop_output (s : visit) : option stop_out :=
  match Visits.dwell_hours s with
  | Some h =>
      Some {| port := visit_port s;
              arrive := format_datetime (Visits.arrive s);
              depart := format_datetime (Visits.depart s);
              arrive_gml_id := Visits.arrive_gml_id s;
              depart_gml_id := Visits.depart_gml_id s;
              dwell_hours := h |}
  | None => None
  end.

Definition voyage_output (v : voyage) : option voyage_out :=
  match traverse stop_output (Voyages.stops v) with
  | Some stops_out =>
      Some {| id_ := Voyages.id_ v;
              note := Voyages.note v;
              start := format_datetime (Voyages.start v);
              end_ := format_datetime (Voyages.end_ v);
              stops := stops_out |}
  | None => None
  end.

(** The dictionary comprehension over [PORTS]. *)
Definition ports_dict : list (string * port_out) :=
  fold_left
    (fun d p =>
       dict_set d (Geo.name p)
         {| lat := Geo.lat p; lon := Geo.lon p; radius_km := Geo.radius_km p |})
    Geo.PORTS [].

(** [build_output(voyages)]; [None] stands for the [KeyError]. *)
Definition build_output (vs : list voyage) : option output :=
  match traverse voyage_output vs with
  | Some voyages_out =>
      Some {| generated := now;
              draft_note := "Auto-detected draft - review and edit before publishing";
              ports := ports_dict;
              voyages := voyages_out |}
  | None => None
  end.

(** [main] once [load_data] has returned [records]: the structure that is
    written.  ([load_data] raises when [detect_port] does.) *)
Definition main (strftime_ym : Z -> string) (round1 : Q -> Q)
  (records : list rec) : option output :=
  let visits := group_port_visits round1 records in
  let voyages := group_voyages strftime_ym visits in
  build_output voyages.

End Format.

(** [c in s] for a character. *)
Fixpoint has_char (c : ascii) (s : string) : bool :=
  match s with
  | EmptyString => false
  | String d s' => Ascii.eqb d c || has_char c s'
  end.

End Output.

(** ** [update_underway.py]: the WFS request *)

Module Url.
Local Open Scope string_scope.

Definition WFS_BASE : string := "https://data.aad.gov.au/geoserver/underway/ows".

(** The dictionary [WFS_PARAMS], in insertion order. *)
Definition WFS_PARAMS : list (string * string) := [
  ("service", "WFS");
  ("version", "2.0.0");
  ("request", "GetFeature");
  ("typeName", "underway:nuyina_underway");
  ("outputFormat", "csv")
].

(** [params[key] = value] on a dictionary kept in insertion order. *)
Fixpoint dict_set (params : list (string * string)) (key value : string)
  : list (string * string) :=
  match params with
  | [] => [(key, value)]
  | (k, v) :: rest =>
      if String.eqb k key then (k, value) :: rest
      else (k, v) :: dict_set rest key value
  end.

(** The bytes [urllib.parse.quote] never escapes: letters, digits and
    [_.-~]. *)
Definition always_safe (c : ascii) : bool :=
  let n := nat_of_ascii c in
  ((65 <=? n) && (n <=? 90) || (97 <=? n) && (n <=? 122)
   || (48 <=? n) && (n <=? 57)
   || (n =? 95) || (n =? 46) || (n =? 45) || (n =? 126))%nat.

(** One digit of ['%{:02X}']. *)
Definition hex_digit (n : nat) : ascii :=
  if (n <? 10)%nat then ascii_of_nat (48 + n) else ascii_of_nat (55 + n).

(** [quote_plus] on one byte of the UTF-8 encoding. *)
Definition quote_byte (c : ascii) : string :=
  if always_safe c then String c ""
  else if Ascii.eqb c " " then "+"
  else String "%" (String (hex_digit (nat_of_ascii c / 16))
                     (String (hex_digit (nat_of_ascii c mod 16)) "")).

(** [urllib.parse.quote_plus(s)], a string being its UTF-8 bytes. *)
Fixpoint quote_plus (s : string) : string :=
  match s with
  | "" => ""
  | String c s' => quote_byte c ++ quote_plus s'
  end.

(** ["&".join(...)] *)
Fixpoint join (sep : string) (parts : list string) : string :=
  match parts with
  | [] => ""
  | [p] => p
  | p :: rest => p ++ sep ++ join sep rest
  end.

(** [urllib.parse.urlencode(params)] *)
Definition urlencode (params : list (string * string)) : string :=
  join "&" (map (fun kv => quote_plus (fst kv) ++ "=" ++ quote_plus (snd kv)) params).

(** Truth value of [cql_filter] in [if cql_filter]. *)
Definition given (cql_filter : option string) : option string :=
  match cql_filter with
  | Some "" => None
  | other => other
  end.

Definition build_wfs_url (cql_filter : option string) : string :=
  let params :=
    match given cql_filter with
    | Some f => dict_set WFS_PARAMS "cql_filter" f
    | None => WFS_PARAMS
    end in
  WFS_BASE ++ "?" ++ urlencode params.

(** The URL that [fetch_from_wfs(since)] reads. *)
Definition fetch_url (since : option string) : string :=
  match given since with
  | Some t => build_wfs_url (Some ("datetime > '" ++ t ++ "'"))
  | None => build_wfs_url None
  end.


(** Characters of a query string that delimit nothing: the safe bytes, and
    the [%] and [+] of an escape. *)
Definition url_char (c : ascii) : bool :=
  always_safe c || Ascii.eqb c "%" || Ascii.eqb c "+".

End Url.

(** ** [update_underway.py]: the parquet cache and its update *)

Module Sync.

(** A row of the dataset; [datetime] is [None] for an SQL [NULL]. *)
Record row := {
  gml_id : string;
  datetime : option Z
}.

Definition OUTPUT_FILE : string := "nuyina_underway.parquet".
Definition backup_file : string := OUTPUT_FILE ++ ".bak".
Definition temp_file : string := OUTPUT_FILE ++ ".tmp".

(** The calls of the merge block that may raise. *)
Inductive op := CopyToTemp | CountTemp | Replace | RemoveBackup.

(** Everything outside the process: what the release URL and the WFS
    endpoint serve ([None]: the read raises), what a [COPY ... TO] of a
    table leaves in the staging file ([staged d = d] for a sound store), what
    a [COPY] that raises leaves there, and which calls of the merge block
    raise. *)
Record world := {
  release : option (list row);
  wfs : option Z -> option (list row);
  staged : list row -> list row;
  leftover : option (list row);
  raises : op -> bool
}.

(** The files, and every state the file system went through, oldest first. *)
Record state := {
  fs : gmap string (list row);
  log : list (gmap string (list row))
}.

Definition start_state (files : gmap string (list row)) : state :=
  {| fs := files; log := [] |}.

Inductive res (A : Type) :=
| Ok (a : A)
| Raised.
Arguments Ok {A} a.
Arguments Raised {A}.

(** Computations on the file system that return or raise. *)
Definition M (A : Type) : Type := state -> res A * state.

Definition ret {A} (a : A) : M A := fun s => (Ok a, s).
Definition raise {A} : M A := fun s => (Raised, s).
Definition bind {A B} (m : M A) (k : A -> M B) : M B :=
  fun s => match m s with
           | (Ok a, s') => k a s'
           | (Raised, s') => (Raised, s')
           end.

Notation "x <- m ;; k" := (bind m (fun x => k))
  (at level 100, m at next level, right associativity).
Notation "m ;; k" := (bind m (fun _ => k))
  (at level 100, right associativity).

(** [try: body except Exception: handler] *)
Definition try_except {A} (body handler : M A) : M A :=
  fun s => match body s with
           | (Ok a, s') => (Ok a, s')
           | (Raised, s') => handler s'
           end.

(** [try: body finally: cleanup], for a [cleanup] that swallows its own
    exceptions. *)
Definition try_finally {A} (body : M A) (cleanup : M unit) : M A :=
  fun s => match body s with
           | (r, s') => (r, snd (cleanup s'))
           end.

Definition set_fs (files : gmap string (list row)) (s : state) : state :=
  {| fs := files; log := log s ++ [files] |}.

(** [Path(f).exists()] *)
Definition exists_ (path : string) : M bool :=
  fun s => (Ok (bool_decide (is_Some (fs s !! path))), s).

(** [SELECT * FROM 'path'] *)
Definition read_table (path : string) : M (list row) :=
  fun s => match fs s !! path with
           | Some d => (Ok d, s)
           | None => (Raised, s)
           end.

(** [COPY (...) TO 'path'] *)
Definition write_table (path : string) (d : list row) : M unit :=
  fun s => (Ok tt, set_fs (<[path := d]> (fs s)) s).

(** [os.remove(path)] *)
Definition os_remove (path : string) : M unit :=
  fun s => match fs s !! path with
           | Some _ => (Ok tt, set_fs (delete path (fs s)) s)
           | None => (Raised, s)
           end.

(** [os.replace(src, dst)] and [shutil.move(src, dst)] within one directory:
    a rename, one step. *)
Definition os_replace (src dst : string) : M unit :=
  fun s => match fs s !! src with
           | Some d => (Ok tt, set_fs (<[dst := d]> (delete src (fs s))) s)
           | None => (Raised, s)
           end.

(** [shutil.copy2(src, dst)] *)
Definition copy2 (src dst : string) : M unit :=
  d <- read_table src ;; write_table dst d.

(** A call of the merge block that the world may make raise. *)
Definition may_raise (w : world) (o : op) : M unit :=
  fun s => if raises w o then (Raised, s) else (Ok tt, s).

Definition download_existing (w : world) : M bool :=
  try_except
    (match release w with
     | None => raise
     | Some d =>
         let count := length d in
         if (0 <? count)%nat
         then write_table OUTPUT_FILE d ;; ret true
         else ret false
     end)
    (ret false).

(** [MAX(datetime)] of a table: [NULL]s are skipped. *)
Definition max_datetime (d : list row) : option Z :=
  fold_left
    (fun acc r =>
       match acc, datetime r with
       | Some m, Some t => Some (Z.max m t)
       | None, t => t
       | acc, None => acc
       end)
    d None.

Definition get_max_datetime : M (option Z) :=
  e <- exists_ OUTPUT_FILE ;;
  if negb e then ret None
  else try_except (d <- read_table OUTPUT_FILE ;; ret (max_datetime d)) (ret None).

(** [fetch_from_wfs(since)]: the pair [(count, new_data)]. *)
Definition fetch_from_wfs (w : world) (since : option Z) : nat * option (list row) :=
  match wfs w since with
  | Some d => (length d, Some d)
  | None => (O, None)
  end.

(** [COPY (...) TO temp_file]: the world decides whether the call raises and
    what the staging file then holds. *)
Definition copy_to_temp (w : world) (d : list row) : M unit :=
  fun s =>
    if raises w CopyToTemp then
      (Raised,
       match leftover w with
       | Some junk => set_fs (<[temp_file := junk]> (fs s)) s
       | None => s
       end)
    else write_table temp_file (staged w d) s.

(** [SELECT * FROM new_df] *)
Definition frame (new_df : option (list row)) : M (list row) :=
  match new_df with
  | Some d => ret d
  | None => raise
  end.

(** The body of the inner [try] of [update_parquet]. *)
Definition merge_block (w : world) (new_df : option (list row)) : M bool :=
  existing <- read_table OUTPUT_FILE ;;
  new_rows <- frame new_df ;;
  copy_to_temp w (existing ++ new_rows) ;;
  may_raise w CountTemp ;;
  t <- read_table temp_file ;;
  let total := length t in
  if (0 <? total)%nat then
    may_raise w Replace ;;
    os_replace temp_file OUTPUT_FILE ;;
    may_raise w RemoveBackup ;;
    os_remove backup_file ;;
    ret true
  else raise.

(** The [except] clause of the merge. *)
Definition restore_backup : M bool :=
  e <- exists_ backup_file ;;
  (if e then os_replace backup_file OUTPUT_FILE else ret tt) ;;
  ret false.

(** The [finally] clause: each file is removed in its own [try]. *)
Definition cleanup : M unit :=
  fold_right
    (fun f rest =>
       try_except (e <- exists_ f ;; if e then os_remove f else ret tt) (ret tt) ;;
       rest)
    (ret tt) [temp_file; backup_file].

(** The full fetch of [update_parquet], taken when [has_existing] is false. *)
Definition full_fetch (w : world) : M bool :=
  let '(count, df) := fetch_from_wfs w None in
  match df with
  | Some d =>
      if (0 <? count)%nat then write_table OUTPUT_FILE d ;; ret true else ret false
  | None => ret false
  end.

(** The incremental path, from [fetch_from_wfs(since=max_dt)] on. *)
Definition incremental (w : world) (max_dt : Z) : M bool :=
  let '(count, new_df) := fetch_from_wfs w (Some max_dt) in
  if (count =? 0)%nat then ret true
  else
    copy2 OUTPUT_FILE backup_file ;;
    try_except (merge_block w new_df) restore_backup.

(** [update_parquet]; [fallback = None] stands for [has_existing] being
    false at [if not has_existing]. *)
Definition update_parquet (w : world) : M bool :=
  try_finally
    (has_existing <- download_existing w ;;
     fallback <-
       (if has_existing then
          max_dt <- get_max_datetime ;;
          match max_dt with
          | Some dt => b <- incremental w dt ;; ret (Some b)
          | None => ret None
          end
        else ret None) ;;
     match fallback with
     | Some b => ret b
     | None => full_fetch w
     end)
    cleanup.

(** [update_parquet()] started on the files [files]. *)
Definition sync (w : world) (files : gmap string (list row)) : res bool * state :=
  update_parquet w (start_state files).

(** *** Notions used to state the properties of the updater *)

(** The state once [download_existing] has written the release snapshot. *)
Definition downloaded (S : list row) (files : gmap string (list row)) : state :=
  set_fs (<[OUTPUT_FILE := S]> files) (start_state files).

(** The merge block, case by case, for a merged table [merged]. *)
Definition merge_outcome (w : world) (merged : list row) (s : state)
  : res bool * state :=
  if raises w CopyToTemp then
    (Raised,
     match leftover w with
     | Some junk => set_fs (<[temp_file := junk]> (fs s)) s
     | None => s
     end)
  else
    let s3 := set_fs (<[temp_file := staged w merged]> (fs s)) s in
    if raises w CountTemp then (Raised, s3)
    else if (0 <? length (staged w merged))%nat then
      if raises w Replace then (Raised, s3)
      else
        let s4 :=
          set_fs (<[OUTPUT_FILE := staged w merged]> (delete temp_file (fs s3))) s3 in
        if raises w RemoveBackup then (Raised, s4)
        else (Ok true, set_fs (delete backup_file (fs s4)) s4)
    else (Raised, s3).

(** The staging file fails validation, or a call of the merge block raises. *)
Definition merge_fails (w : world) (merged : list row) : Prop :=
  staged w merged = [] \/ exists o, raises w o = true.

(** The live dataset is the snapshot [S], or the staged table [merged] once
    it has passed the validation [total > 0]. *)
Definition snapshot_or (S merged : list row) (f : gmap string (list row)) : Prop :=
  f !! OUTPUT_FILE = Some S
  \/ (f !! OUTPUT_FILE = Some merged /\ 0 < length merged).

(** A computation that only appends to the log. *)
Definition extends {A : Type} (m : M A) : Prop :=
  forall s, exists extra, log (snd (m s)) = log s ++ extra.

(** Rollback as the design document words it: when the merge fails, the
    dataset file is what it was before the sync was invoked. *)
Definition rolls_back_to_pre_sync (w : world) (files : gmap string (list row))
  : Prop :=
  forall S dt new_rows,
    release w = Some S -> 0 < length S -> max_datetime S = Some dt ->
    wfs w (Some dt) = Some new_rows -> 0 < length new_rows ->
    merge_fails w (S ++ new_rows) ->
    exists s, sync w files = (Ok false, s)
              /\ fs s !! OUTPUT_FILE = files !! OUTPUT_FILE.

(** The no-op as the design document words it: with a local copy [d] and no
    new record from the incremental fetch, the sync succeeds and the dataset
    file still holds [d]. *)
Definition untouched_without_news (w : world) (files : gmap string (list row))
  : Prop :=
  forall d,
    files !! OUTPUT_FILE = Some d ->
    (forall dt, fst (fetch_from_wfs w (Some dt)) = 0) ->
    exists s, sync w files = (Ok true, s) /\ fs s !! OUTPUT_FILE = Some d.

(** [main()]: the exit status.  The count that is logged reads a file that
    [exists] has just found. *)
Definition main (w : world) (files : gmap string (list row)) : res Z :=
  match sync w files with
  | (Ok success, s) =>
      if success && bool_decide (is_Some (fs s !! OUTPUT_FILE)) then Ok 0%Z
      else Ok 1%Z
  | (Raised, _) => Raised
  end.

(** The release gives a local copy: it is readable and has a record. *)
Definition has_release (w : world) : bool :=
  match release w with
  | Some d => (0 <? length d)%nat
  | None => false
  end.

(** The rows of a full fetch that [update_parquet] accepts. *)
Definition fetched (w : world) : option (list row) :=
  match wfs w None with
  | Some d => if (0 <? length d)%nat then Some d else None
  | None => None
  end.

(** The files without the staging and backup paths. *)
Definition tidy (files : gmap string (list row)) : gmap string (list row) :=
  delete backup_file (delete temp_file files).

(** One step of [MAX]: the greater of the accumulator and the datetime of
    the row, a [NULL] being skipped. *)
Definition max_step (acc : option Z) (r : row) : option Z :=
  match acc, datetime r with
  | Some m, Some t => Some (Z.max m t)
  | None, t => t
  | acc, None => acc
  end.

(** [m] is the greatest datetime among [acc] and the rows [d]. *)
Definition greatest (acc : option Z) (d : list row) (m : Z) : Prop :=
  (acc = Some m \/ exists r, In r d /\ datetime r = Some m)
  /\ (forall a, acc = Some a -> (a <= m)%Z)
  /\ (forall r t, In r d -> datetime r = Some t -> (t <= m)%Z).

End Sync.

(** ** Sample inputs *)

Module Samples.
Import Visits.

Definition at_port (id : string) (t : Z) (p : option string) : rec :=
  {| gml_id := id; datetime := t; lat := 0%R; lon := 0%R; port := p |}.

(** Two samples at Casey, 7500 seconds apart: a dwell of 25/12 hours. *)
Definition casey_call : list rec :=
  [at_port "uwy.1" 0 (Some "Casey"); at_port "uwy.2" 7500 (Some "Casey")].

(** Three samples at Casey whose last timestamp goes backwards. *)
Definition backwards : list rec :=
  [at_port "uwy.1" 0 (Some "Casey"); at_port "uwy.2" 9000 (Some "Casey");
   at_port "uwy.3" 8000 (Some "Casey")].

(** Samples at named ports only. *)
Definition port_hops : list rec :=
  [at_port "uwy.1" 0 (Some "Hobart"); at_port "uwy.2" 3600 (Some "Hobart");
   at_port "uwy.3" 90000 (Some "Casey"); at_port "uwy.4" 93600 (Some "Casey");
   at_port "uwy.5" 97200 (Some "Casey"); at_port "uwy.6" 180000 (Some "Hobart")].

(** Visits at the given ports, one day each. *)
Fixpoint calls (day : Z) (ports : list string) : list visit :=
  match ports with
  | [] => []
  | p :: ports' =>
      {| visit_port := p; arrive := day * 86400; depart := day * 86400 + 80000;
         arrive_gml_id := "uwy.a"; depart_gml_id := "uwy.d"; n_points := 100;
         dwell_hours := Some (222 # 10) |} :: calls (day + 1) ports'
  end.

(** A stand-in for [strftime('%Y-%m')]. *)
Definition some_month (t : Z) : string := "2024-01".

(** The worked scenario of the design document. *)
Definition scenario : list rec :=
  [at_port "uwy.1" 0 (Some "Hobart"); at_port "uwy.2" 3600 (Some "Hobart");
   at_port "uwy.3" 7200 None; at_port "uwy.4" 10000 (Some "Casey");
   at_port "uwy.5" 28000 (Some "Casey"); at_port "uwy.6" 30000 None;
   at_port "uwy.7" 40000 (Some "Hobart")].

(** Rows, worlds and files of the updater. *)
Definition r1 : Sync.row := {| Sync.gml_id := "uwy.1"; Sync.datetime := Some 1%Z |}.
Definition r2 : Sync.row := {| Sync.gml_id := "uwy.2"; Sync.datetime := Some 2%Z |}.
Definition r3 : Sync.row := {| Sync.gml_id := "uwy.3"; Sync.datetime := Some 3%Z |}.

(** The release holds [r1], the WFS serves two newer rows, and the staging
    file comes out empty. *)
Definition empty_staging : Sync.world :=
  {| Sync.release := Some [r1]; Sync.wfs := fun _ => Some [r2; r3];
     Sync.staged := fun _ => []; Sync.leftover := None;
     Sync.raises := fun _ => false |}.

(** The same, with a sound store. *)
Definition sound : Sync.world :=
  {| Sync.release := Some [r1]; Sync.wfs := fun _ => Some [r2; r3];
     Sync.staged := fun d => d; Sync.leftover := None;
     Sync.raises := fun _ => false |}.

(** A local copy that a previous merge left ahead of the release. *)
Definition ahead : gmap string (list Sync.row) := {[ Sync.OUTPUT_FILE := [r1; r2] ]}.

(** The release holds [r1; r2] and the WFS has nothing newer. *)
Definition quiet : Sync.world :=
  {| Sync.release := Some [r1; r2]; Sync.wfs := fun _ => Some [];
     Sync.staged := fun d => d; Sync.leftover := None;
     Sync.raises := fun _ => false |}.

(** A local copy older than the release. *)
Definition behind : gmap string (list Sync.row) := {[ Sync.OUTPUT_FILE := [r1] ]}.

(** No release can be read; the WFS serves two rows. *)
Definition offline : Sync.world :=
  {| Sync.release := None; Sync.wfs := fun _ => Some [r2; r3];
     Sync.staged := fun d => d; Sync.leftover := None;
     Sync.raises := fun _ => false |}.

(** A row without a timestamp, and a release that holds that row only. *)
Definition r0 : Sync.row := {| Sync.gml_id := "uwy.0"; Sync.datetime := None |}.

Definition undated : Sync.world :=
  {| Sync.release := Some [r0]; Sync.wfs := fun _ => Some [r2; r3];
     Sync.staged := fun d => d; Sync.leftover := None;
     Sync.raises := fun _ => false |}.

(** The release holds [r1], the WFS serves two newer rows, and the count of
    the staging file raises: the name [nuyina_underway.parquet.tmp] has no
    extension that the query engine reads as a table. *)
Definition count_raises : Sync.world :=
  {| Sync.release := Some [r1]; Sync.wfs := fun _ => Some [r2; r3];
     Sync.staged := fun d => d; Sync.leftover := None;
     Sync.raises := fun o => match o with Sync.CountTemp => true | _ => false end |}.

(** A stand-in for [isoformat] of a timestamp in UTC. *)
Definition some_instant (t : Z) : string := "2024-01-02T03:04:05+00:00".

Section Floats.
#[local] Set Warnings "-inexact-float".
Local Open Scope float_scope.

(** The point 42.879999509 N, 32.67 W, near the antipode of Hobart. *)
Definition near_antipode : float * float := (42.879999509, -32.67).

(** The C library at the arguments that [haversine_km] reaches from
    [near_antipode] and Hobart: the values of [math.sin], [math.cos] and of
    [x ** 2] there.  The table is not filled elsewhere. *)
Definition libm_near_antipode : GeoFloat.libm :=
  {| GeoFloat.sin := fun x =>
       if x =? -0x1.7f2dea403163bp-1 then -0x1.5c65ec8d46cedp-1
       else if x =? 0x1.921fb54442d18p+0 then 1
       else PrimFloat.nan;
     GeoFloat.cos := fun x =>
       if x =? 0x1.7f2dea1b630d1p-1 then 0x1.772f00aa84692p-1
       else if x =? -0x1.7f2dea64ffba4p-1 then 0x1.772f00786d43fp-1
       else PrimFloat.nan;
     GeoFloat.pow := fun x y => if y =? 2 then x * x else PrimFloat.nan;
     GeoFloat.atan2 := fun _ _ => PrimFloat.nan |}.

(** The C library at the arguments that [detect_port] reaches from the
    coordinates of Hobart. *)
Definition libm_at_hobart : GeoFloat.libm :=
  {| GeoFloat.sin := fun x =>
       if x =? 0x0.0p+0 then 0x0.0p+0
       else if x =? 0x1.05a60a15345acp-6 then 0x1.05a3313b78d58p-6
       else if x =? (-0x1.960e44ce5f40dp-7) then (-0x1.960b9bc031b29p-7)
       else if x =? (-0x1.9f5969892e085p-4) then (-0x1.9ea347c8f042dp-4)
       else if x =? 0x1.9efde81f8889dp-4 then 0x1.9e483e9a9466dp-4
       else if x =? (-0x1.6d4ea3c2ad1cfp-4) then (-0x1.6cd2b618f3d6ep-4)
       else if x =? (-0x1.49d4b78d44012p-1) then (-0x1.337c928d10578p-1)
       else if x =? (-0x1.a23574d659f89p-3) then (-0x1.9f4ef20ccdda2p-3)
       else if x =? (-0x1.48d913aabce6ap-2) then (-0x1.4339804ace8acp-2)
       else if x =? (-0x1.cb50974bb1955p-3) then (-0x1.c779550918459p-3)
       else if x =? (-0x1.35e748cb79cf4p-1) then (-0x1.2352fc5cd83d3p-1)
       else if x =? (-0x1.b9ccd21304761p-3) then (-0x1.b661a4e9b163ap-3)
       else if x =? (-0x1.795ef3703e7a6p-1) then (-0x1.581e96fcbcd97p-1)
       else PrimFloat.nan;
     GeoFloat.cos := fun x =>
       if x =? (-0x1.7f2dea64ffba4p-1) then 0x1.772f00786d43fp-1
       else if x =? (-0x1.6ed389c3ac749p-1) then 0x1.821e371511238p-1
       else if x =? (-0x1.e70444c74b3c5p-1) then 0x1.2951e5d6f023cp-1
       else if x =? (-0x1.da819355ab018p-1) then 0x1.336a479f43641p-1
       else if x =? (-0x1.28245268165b4p+0) then 0x1.9bebfacf1cb4cp-2
       else if x =? (-0x1.326b1b056c427p+0) then 0x1.75f7735f10550p-2
       else if x =? (-0x1.2e0a29b740faap+0) then 0x1.8637500f98697p-2
       else PrimFloat.nan;
     GeoFloat.pow := fun x y => if y =? 2 then x * x else PrimFloat.nan;
     GeoFloat.atan2 := fun y x =>
       if (y =? 0x0.0p+0) && (x =? 0x1.0000000000000p+0) then 0x0.0p+0
       else if (y =? 0x1.2e0be198c7068p-6) && (x =? 0x1.ffe9b98366b16p-1) then 0x1.2e1043099162bp-6
       else if (y =? 0x1.eeee9b6061a9ep-4) && (x =? 0x1.fc3f9d894ab5ep-1) then 0x1.f024f926577b9p-4
       else if (y =? 0x1.a1fcf08a2ed38p-2) && (x =? 0x1.d3672662eda1cp-1) then 0x1.ae903b0978f24p-2
       else if (y =? 0x1.0fe0397ece06ep-2) && (x =? 0x1.ed9fcd4c378b5p-1) then 0x1.132d052044b89p-2
       else if (y =? 0x1.79c618203b03ep-2) && (x =? 0x1.dbe258996f020p-1) then 0x1.82ea316a7efe6p-2
       else if (y =? 0x1.a8a21f13a280cp-2) && (x =? 0x1.d1e72da61f328p-1) then 0x1.b5dab7865e26bp-2
       else PrimFloat.nan |}.

End Floats.

End Samples.

(** * Part II: properties *)

(** ** The proximity classifier *)

Module GeoFacts.
Import Geo.
Local Open Scope R_scope.

(** *** The loop against the nearest port, for an isolated table *)

Lemma scan_outside (dist : port -> R) (ports : list port) (st : best) :
  (forall p, In p ports -> ~ within dist p) ->
  best_port (fold_left (detect_step dist) ports st) = best_port st.
Proof.
  revert st. induction ports as [|q ports IH]; intros st Hout; [reflexivity|].
  simpl. rewrite IH by (intros p Hp; apply Hout; now right).
  unfold detect_step. destruct (closer _ _); [|reflexivity]. simpl.
  destruct (Rle_dec _ _) as [Hle|]; [|reflexivity].
  exfalso. apply (Hout q); [now left | exact Hle].
Qed.

(** Once the port [p] is the best one, no later port replaces it. *)
Lemma scan_settled (dist : port -> R) (p : port) (ports : list port) (st : best) :
  (forall q, In q ports -> q = p \/ dist p < dist q) ->
  best_dist st = Some (dist p) ->
  fold_left (detect_step dist) ports st = st.
Proof.
  revert st. induction ports as [|q ports IH]; intros st Hfar Hst; [reflexivity|].
  simpl.
  assert (detect_step dist st q = st) as ->.
  { unfold detect_step. rewrite Hst. unfold closer.
    destruct (Rlt_dec (dist q) (dist p)) as [Hlt|]; [|reflexivity].
    exfalso. destruct (Hfar q (or_introl eq_refl)) as [->|Hlt']; lra. }
  apply IH; [|exact Hst]. intros q' Hq'. apply Hfar. now right.
Qed.

Lemma scan_inside (dist : port -> R) (p : port) (ports : list port) (st : best) :
  In p ports -> within dist p ->
  (forall q, In q ports -> q = p \/ dist p < dist q) ->
  match best_dist st with Some b => dist p < b | None => True end ->
  best_port (fold_left (detect_step dist) ports st) = Some (name p).
Proof.
  revert st. induction ports as [|q ports IH]; intros st Hin Hp Hfar Hst.
  { destruct Hin. }
  simpl.
  assert (forall q', In q' ports -> q' = p \/ dist p < dist q') as Hfar'
    by (intros q' Hq'; apply Hfar; now right).
  destruct (Hfar q (or_introl eq_refl)) as [->|Hlt].
  - assert (detect_step dist st p
            = {| best_port := Some (name p); best_dist := Some (dist p) |}) as ->.
    { unfold detect_step, closer.
      destruct (best_dist st) as [b|].
      - destruct (Rlt_dec (dist p) b); [|contradiction].
        destruct (Rle_dec (dist p) (radius_km p)); [reflexivity|contradiction].
      - destruct (Rle_dec (dist p) (radius_km p)); [reflexivity|contradiction]. }
    rewrite (scan_settled dist p ports
               {| best_port := Some (name p); best_dist := Some (dist p) |}
               Hfar' eq_refl).
    reflexivity.
  - destruct Hin as [->|Hin]; [lra|].
    apply IH; auto.
    unfold detect_step. destruct (closer _ _); [simpl; exact Hlt | exact Hst].
Qed.

Lemma nearest_min (dist : port -> R) (ports : list port) (m : port) :
  nearest dist ports = Some m ->
  In m ports /\ forall q, In q ports -> dist m <= dist q.
Proof.
  revert m. induction ports as [|p ports IH]; intros m; simpl; [discriminate|].
  destruct (nearest dist ports) as [n|] eqn:E.
  - destruct (IH n eq_refl) as [Hn Hmin].
    destruct (Rlt_dec (dist n) (dist p)) as [Hlt|Hge]; intros [= <-].
    + split; [now right|]. intros q [<-|Hq]; [lra | now apply Hmin].
    + split; [now left|]. intros q [<-|Hq]; [lra|].
      specialize (Hmin q Hq). lra.
  - intros [= <-]. split; [now left|]. intros q [<-|Hq]; [lra|].
    destruct ports; [destruct Hq | simpl in E].
    destruct (nearest dist ports); [destruct (Rlt_dec _ _)|]; discriminate.
Qed.

Lemma nearest_some (dist : port -> R) (p : port) (ports : list port) :
  exists m, nearest dist (p :: ports) = Some m.
Proof.
  simpl. destruct (nearest dist ports) as [n|]; [|eauto].
  destruct (Rlt_dec _ _); eauto.
Qed.

Lemma scan_classify (dist : port -> R) (ports : list port) :
  isolated dist ports -> detect_scan dist ports = classify dist ports.
Proof.
  intros Hiso. unfold detect_scan, classify.
  destruct (List.Exists_dec (within dist) ports) as [Hex|Hnone].
  { intros p. apply Rle_dec. }
  - apply List.Exists_exists in Hex as (p & Hin & Hp).
    rewrite (scan_inside dist p ports _ Hin Hp); [| |exact I].
    2:{ intros q Hq. now apply Hiso. }
    destruct ports as [|p0 ports]; [destruct Hin|].
    destruct (nearest_some dist p0 ports) as [m Hm]. rewrite Hm.
    destruct (nearest_min dist _ m Hm) as [Hmin Hle].
    destruct (Hiso p m Hin Hmin Hp) as [->|Hlt].
    + destruct (Rle_dec _ _); [reflexivity | contradiction].
    + specialize (Hle p Hin). lra.
  - rewrite scan_outside.
    2:{ intros p Hin Hp. apply Hnone, List.Exists_exists. eauto. }
    simpl. destruct (nearest dist ports) as [m|] eqn:Hm; [|reflexivity].
    destruct (Rle_dec _ _) as [Hle|]; [|reflexivity].
    exfalso. apply Hnone, List.Exists_exists. exists m. split; [|exact Hle].
    now apply (nearest_min dist ports m Hm).
Qed.


(** *** The sphere *)

Lemma unit_norm (lat0 lon0 : R) :
  ux lat0 lon0 * ux lat0 lon0 + uy lat0 lon0 * uy lat0 lon0 + uz lat0 * uz lat0 = 1.
Proof.
  unfold ux, uy, uz.
  pose proof (sin2_cos2 (lat0 * to_rad)) as H1.
  pose proof (sin2_cos2 (lon0 * to_rad)) as H2.
  unfold Rsqr in *.
  set (s := sin (lat0 * to_rad)) in *. set (c := cos (lat0 * to_rad)) in *.
  set (sl := sin (lon0 * to_rad)) in *. set (cl := cos (lon0 * to_rad)) in *.
  replace (c * cl * (c * cl) + c * sl * (c * sl) + s * s)
    with (c * c * (sl * sl + cl * cl) + s * s) by ring.
  rewrite H2. lra.
Qed.

Lemma sin_half_sqr (d : R) : sin (d / 2) ^ 2 = (1 - cos d) / 2.
Proof.
  pose proof (cos_2a_sin (d / 2)) as H.
  replace (2 * (d / 2)) with d in H by field. lra.
Qed.

(** The haversine term is a quarter of the squared chord between the two
    points of the unit sphere. *)
Lemma hav_chord (lat1 lon1 lat2 lon2 : R) :
  4 * hav lat1 lon1 lat2 lon2
  = (ux lat1 lon1 - ux lat2 lon2) ^ 2 + (uy lat1 lon1 - uy lat2 lon2) ^ 2
    + (uz lat1 - uz lat2) ^ 2.
Proof.
  pose proof (unit_norm lat1 lon1) as N1. pose proof (unit_norm lat2 lon2) as N2.
  unfold hav. fold to_rad. rewrite !sin_half_sqr.
  replace ((lat2 - lat1) * to_rad) with (lat2 * to_rad - lat1 * to_rad) by ring.
  replace ((lon2 - lon1) * to_rad) with (lon2 * to_rad - lon1 * to_rad) by ring.
  rewrite !cos_minus. unfold ux, uy, uz in *.
  set (s1 := sin (lat1 * to_rad)) in *. set (c1 := cos (lat1 * to_rad)) in *.
  set (s2 := sin (lat2 * to_rad)) in *. set (c2 := cos (lat2 * to_rad)) in *.
  set (sl1 := sin (lon1 * to_rad)) in *. set (cl1 := cos (lon1 * to_rad)) in *.
  set (sl2 := sin (lon2 * to_rad)) in *. set (cl2 := cos (lon2 * to_rad)) in *.
  lra.
Qed.

Lemma hav_range (lat1 lon1 lat2 lon2 : R) : 0 <= hav lat1 lon1 lat2 lon2 <= 1.
Proof.
  pose proof (hav_chord lat1 lon1 lat2 lon2) as H.
  pose proof (unit_norm lat1 lon1) as N1. pose proof (unit_norm lat2 lon2) as N2.
  set (x1 := ux lat1 lon1) in *. set (y1 := uy lat1 lon1) in *. set (z1 := uz lat1) in *.
  set (x2 := ux lat2 lon2) in *. set (y2 := uy lat2 lon2) in *. set (z2 := uz lat2) in *.
  pose proof (pow2_ge_0 (x1 - x2)). pose proof (pow2_ge_0 (y1 - y2)).
  pose proof (pow2_ge_0 (z1 - z2)). pose proof (pow2_ge_0 (x1 + x2)).
  pose proof (pow2_ge_0 (y1 + y2)). pose proof (pow2_ge_0 (z1 + z2)).
  split; lra.
Qed.

Lemma chord_far (d1 d2 d3 e1 e2 e3 : R) :
  4 * (d1 * d1 + d2 * d2 + d3 * d3) < e1 * e1 + e2 * e2 + e3 * e3 ->
  d1 * d1 + d2 * d2 + d3 * d3
  < (d1 + e1) * (d1 + e1) + (d2 + e2) * (d2 + e2) + (d3 + e3) * (d3 + e3).
Proof.
  intros H.
  set (D := d1 * d1 + d2 * d2 + d3 * d3) in *.
  set (E := e1 * e1 + e2 * e2 + e3 * e3) in *.
  set (G := d1 * e1 + d2 * e2 + d3 * e3).
  assert (G * G <= D * E) as CS.
  { unfold G, D, E.
    pose proof (Rle_0_sqr (d1 * e2 - d2 * e1)).
    pose proof (Rle_0_sqr (d1 * e3 - d3 * e1)).
    pose proof (Rle_0_sqr (d2 * e3 - d3 * e2)).
    unfold Rsqr in *. lra. }
  assert (0 <= D) as HD by (unfold D; nra).
  enough (0 < 2 * G + E) by (unfold D, E, G in *; lra).
  destruct (Rlt_le_dec 0 (2 * G + E)) as [|Hneg]; [assumption|].
  exfalso.
  assert (E * E <= 4 * (G * G)) by nra.
  nra.
Qed.

(** A port farther from [P] than twice the distance from [x] to [P] is
    farther from [x] than [P] is, in terms of haversine terms. *)
Lemma hav_far (x1 y1 p1 q1 p2 q2 : R) :
  4 * hav x1 y1 p1 q1 < hav p1 q1 p2 q2 ->
  hav x1 y1 p1 q1 < hav x1 y1 p2 q2.
Proof.
  intros H.
  pose proof (hav_chord x1 y1 p1 q1) as H1.
  pose proof (hav_chord p1 q1 p2 q2) as H2.
  pose proof (hav_chord x1 y1 p2 q2) as H3.
  pose proof (chord_far (ux x1 y1 - ux p1 q1) (uy x1 y1 - uy p1 q1) (uz x1 - uz p1)
                (ux p1 q1 - ux p2 q2) (uy p1 q1 - uy p2 q2) (uz p1 - uz p2)) as F.
  lra.
Qed.

Lemma atan_nonneg (t : R) : 0 <= t -> 0 <= atan t.
Proof.
  intros [Ht | <-].
  - left. rewrite <- atan_0. now apply atan_increasing.
  - rewrite atan_0. lra.
Qed.

(** On [0, 1] the angle of the haversine formula is the arc sine of the square
    root. *)
Lemma angle_spec (a : R) :
  0 <= a <= 1 -> 0 <= angle a <= PI / 2 /\ sin (angle a) = sqrt a.
Proof.
  intros [H0 H1]. unfold angle, atan2.
  destruct H1 as [H1 | ->].
  - assert (0 < sqrt (1 - a)) as Hpos by (apply sqrt_lt_R0; lra).
    destruct (Rlt_dec 0 (sqrt (1 - a))) as [_|]; [|contradiction].
    assert (0 <= sqrt a / sqrt (1 - a)) as Ht.
    { apply Rmult_le_pos; [apply sqrt_pos | left; now apply Rinv_0_lt_compat]. }
    split.
    + split; [now apply atan_nonneg|].
      left. apply atan_bound.
    + rewrite sin_atan.
      assert (1 + (sqrt a / sqrt (1 - a))² = / (1 - a)) as ->.
      { unfold Rsqr.
        replace (sqrt a / sqrt (1 - a) * (sqrt a / sqrt (1 - a)))
          with ((sqrt a * sqrt a) / (sqrt (1 - a) * sqrt (1 - a)))
          by (field; lra).
        rewrite !sqrt_sqrt by lra. field. lra. }
      rewrite sqrt_inv. field. lra.
  - replace (1 - 1) with 0 by ring. rewrite sqrt_0, sqrt_1.
    destruct (Rlt_dec 0 0) as [|_]; [lra|].
    destruct (Rlt_dec 0 1) as [_|]; [|lra].
    pose proof PI_RGT_0. split; [lra|]. apply sin_PI2.
Qed.

Lemma angle_lt (a b : R) : 0 <= a <= 1 -> 0 <= b <= 1 -> a < b -> angle a < angle b.
Proof.
  intros Ha Hb Hab.
  destruct (angle_spec a Ha) as [[Ha0 Ha1] Hsa].
  destruct (angle_spec b Hb) as [[Hb0 Hb1] Hsb].
  apply sin_increasing_0; try lra.
  rewrite Hsa, Hsb. apply sqrt_lt_1; lra.
Qed.

Lemma angle_small (a r : R) :
  0 <= a <= 1 -> 0 <= r <= 1 -> angle a <= r -> a <= r * r.
Proof.
  intros Ha [Hr0 Hr1] Hle.
  destruct (angle_spec a Ha) as [[Ha0 Ha1] Hsa].
  pose proof PI2_1.
  assert (sqrt a <= r) as Hs.
  { rewrite <- Hsa. apply Rle_trans with (sin r).
    - apply sin_incr_1; lra.
    - destruct Hr0 as [Hr0 | <-]; [left; now apply sin_lt_x | rewrite sin_0; lra]. }
  rewrite <- (sqrt_sqrt a) by lra.
  pose proof (sqrt_pos a). nra.
Qed.

Lemma PI_gt_3 : 3 < PI.
Proof. pose proof PI2_3_2. lra. Qed.

Lemma PI_lt_334 : PI < 334 / 100.
Proof.
  destruct (PI_ineq 2) as [_ H].
  unfold tg_alt, PI_tg in H. simpl in H. lra.
Qed.

Lemma INR_fact (n : nat) (z : Z) : Z.of_nat (fact n) = z -> INR (fact n) = IZR z.
Proof. intros <-. apply INR_IZR_INZ. Qed.

Lemma sin_poly (x : R) : 0 <= x <= 1 -> x - x ^ 3 / 6 <= sin x.
Proof.
  intros [H0 H1].
  assert (x <= PI) as Hpi by (pose proof PI_gt_3; lra).
  destruct (SIN x H0 Hpi) as [Hlb _].
  unfold sin_lb, sin_approx in Hlb. cbn [sum_f_R0] in Hlb.
  unfold sin_term in Hlb. cbn [Nat.mul Nat.add] in Hlb.
  rewrite (INR_fact 1 1), (INR_fact 3 6), (INR_fact 5 120), (INR_fact 7 5040)
    in Hlb by reflexivity.
  assert (0 <= x ^ 5) as P5 by (apply pow_le; lra).
  assert (x ^ 7 <= x ^ 5) as P7.
  { replace (x ^ 7) with (x ^ 5 * (x * x)) by ring.
    rewrite <- (Rmult_1_r (x ^ 5)) at 2.
    apply Rmult_le_compat_l; [exact P5 | nra]. }
  lra.
Qed.

Lemma cos_poly (x : R) : 0 <= x <= 3 / 2 -> 1 - x ^ 2 / 2 <= cos x.
Proof.
  intros [H0 H1].
  assert (- PI / 2 <= x) as Ha by (pose proof PI_gt_3; lra).
  assert (x <= PI / 2) as Hb by (pose proof PI_gt_3; lra).
  destruct (COS x Ha Hb) as [Hlb _].
  unfold cos_lb, cos_approx in Hlb. cbn [sum_f_R0] in Hlb.
  unfold cos_term in Hlb. cbn [Nat.mul Nat.add] in Hlb.
  rewrite (INR_fact 0 1), (INR_fact 2 2), (INR_fact 4 24), (INR_fact 6 720)
    in Hlb by reflexivity.
  assert (0 <= x ^ 4) as P4 by (apply pow_le; lra).
  assert (x ^ 6 <= 30 * x ^ 4) as P6.
  { replace (x ^ 6) with (x ^ 4 * (x * x)) by ring.
    rewrite (Rmult_comm 30).
    apply Rmult_le_compat_l; [exact P4 | nra]. }
  lra.
Qed.

(** Lower bound of [sin t ^ 2] for [lo <= |t| <= 1]. *)
Lemma sin_sqr_lower (lo t : R) :
  0 <= lo -> (lo <= t <= 1 \/ lo <= - t <= 1) ->
  (lo - lo ^ 3 / 6) ^ 2 <= sin t ^ 2.
Proof.
  assert (forall u, 0 <= lo -> lo <= u <= 1 -> (lo - lo ^ 3 / 6) ^ 2 <= sin u ^ 2) as Hpos.
  { intros u Hlo [Hu0 Hu1].
    pose proof (sin_poly u ltac:(lra)) as Hs.
    assert (lo <= 1) as Hlo1 by lra.
    assert (0 <= lo - lo ^ 3 / 6) as Hnn.
    { replace (lo - lo ^ 3 / 6) with (lo * (1 - lo * lo / 6)) by field.
      apply Rmult_le_pos; [lra | nra]. }
    assert (lo - lo ^ 3 / 6 <= u - u ^ 3 / 6) as Hmono.
    { assert (0 <= (u - lo) * ((6 - (u * u + u * lo + lo * lo)) / 6)) as Hprod
        by (apply Rmult_le_pos; [lra | nra]).
      replace ((u - lo) * ((6 - (u * u + u * lo + lo * lo)) / 6))
        with (u - u ^ 3 / 6 - (lo - lo ^ 3 / 6)) in Hprod by field.
      lra. }
    apply pow_incr. lra. }
  intros Hlo [Ht | Ht]; [now apply Hpos|].
  replace (sin t ^ 2) with (sin (- t) ^ 2) by (rewrite sin_neg; ring).
  now apply Hpos.
Qed.

Lemma to_rad_bounds : 3 / 180 < to_rad < 334 / 18000.
Proof. unfold to_rad. pose proof PI_gt_3. pose proof PI_lt_334. lra. Qed.

(** Cosine of a latitude between 69 S and 69 N. *)
Lemma cos_lat_lower (lat0 : R) : -69 <= lat0 <= 69 -> 18 / 100 <= cos (lat0 * to_rad).
Proof.
  pose proof to_rad_bounds as [Hlo Hhi].
  assert (forall u, 0 <= u <= 69 -> 18 / 100 <= cos (u * to_rad)) as Hpos.
  { intros u [Hu0 Hu1].
    assert (0 <= u * to_rad <= 12804 / 10000) as [Hy0 Hy1] by nra.
    pose proof (cos_poly (u * to_rad) ltac:(lra)) as Hc. nra. }
  intros [H0 H1]. destruct (Rle_dec 0 lat0) as [Hnn | Hneg].
  - apply Hpos. lra.
  - replace (lat0 * to_rad) with (- ((- lat0) * to_rad)) by ring.
    rewrite cos_neg. apply Hpos. lra.
Qed.

(** Two points between 69 S and 69 N whose latitudes differ by 1.83 to 30
    degrees. *)
Lemma lat_sep (lat1 lon1 lat2 lon2 : R) :
  -69 <= lat1 <= 69 -> -69 <= lat2 <= 69 ->
  (183 / 100 <= lat2 - lat1 <= 30 \/ 183 / 100 <= lat1 - lat2 <= 30) ->
  far < hav lat1 lon1 lat2 lon2.
Proof.
  intros Hl1 Hl2 Hd. pose proof to_rad_bounds as [Hlo Hhi].
  pose proof (cos_lat_lower lat1 Hl1) as Hc1.
  pose proof (cos_lat_lower lat2 Hl2) as Hc2.
  unfold hav. fold to_rad.
  set (t := (lat2 - lat1) * to_rad / 2).
  set (u := (lon2 - lon1) * to_rad / 2).
  assert ((1525 / 100000 - (1525 / 100000) ^ 3 / 6) ^ 2 <= sin t ^ 2) as Hs.
  { apply sin_sqr_lower; [lra|]. unfold t. destruct Hd; [left | right]; nra. }
  assert (0 <= cos (lat1 * to_rad) * cos (lat2 * to_rad) * sin u ^ 2) as Hnn.
  { apply Rmult_le_pos; [nra | apply pow2_ge_0]. }
  unfold far. lra.
Qed.

(** Two points between 69 S and 69 N whose longitudes differ by 15 to 86
    degrees. *)
Lemma lon_sep (lat1 lon1 lat2 lon2 : R) :
  -69 <= lat1 <= 69 -> -69 <= lat2 <= 69 ->
  (15 <= lon2 - lon1 <= 86 \/ 15 <= lon1 - lon2 <= 86) ->
  far < hav lat1 lon1 lat2 lon2.
Proof.
  intros Hl1 Hl2 Hd. pose proof to_rad_bounds as [Hlo Hhi].
  pose proof (cos_lat_lower lat1 Hl1) as Hc1.
  pose proof (cos_lat_lower lat2 Hl2) as Hc2.
  unfold hav. fold to_rad.
  set (t := (lat2 - lat1) * to_rad / 2).
  set (u := (lon2 - lon1) * to_rad / 2).
  assert ((125 / 1000 - (125 / 1000) ^ 3 / 6) ^ 2 <= sin u ^ 2) as Hs.
  { apply sin_sqr_lower; [lra|]. unfold u. destruct Hd; [left | right]; nra. }
  pose proof (pow2_ge_0 (sin t)) as Hnn.
  assert (324 / 10000 <= cos (lat1 * to_rad) * cos (lat2 * to_rad)) as Hcc by nra.
  assert (324 / 10000 * (125 / 1000 - (125 / 1000) ^ 3 / 6) ^ 2
          <= cos (lat1 * to_rad) * cos (lat2 * to_rad) * sin u ^ 2) as Hprod.
  { apply Rmult_le_compat; lra. }
  unfold far. lra.
Qed.

Lemma ports_far (p q : port) :
  In p PORTS -> In q PORTS ->
  q = p \/ far < hav (lat p) (lon p) (lat q) (lon q).
Proof.
  unfold PORTS. cbn [In]. intros Hp Hq.
  repeat (destruct Hp as [<-|Hp]; [|]); try contradiction;
    repeat (destruct Hq as [<-|Hq]; [|]); try contradiction;
    try (left; reflexivity); right; cbn [lat lon];
    first [ apply lat_sep; lra | apply lon_sep; lra ].
Qed.

Lemma ports_radius (p : port) : In p PORTS -> 0 <= radius_km p <= 80.
Proof.
  unfold PORTS. cbn [In]. intros Hp.
  repeat (destruct Hp as [<-|Hp]; [cbn [radius_km]; lra|]). contradiction.
Qed.

Lemma dist_to_angle (lat0 lon0 : R) (p : port) :
  dist_to lat0 lon0 p = 6371 * 2 * angle (hav lat0 lon0 (lat p) (lon p)).
Proof. reflexivity. Qed.

(** At every point the port table is isolated: the discs of the ports are
    far apart. *)
Lemma ports_isolated (lat0 lon0 : R) : isolated (dist_to lat0 lon0) PORTS.
Proof.
  intros p q Hp Hq Hin.
  destruct (ports_far p q Hp Hq) as [->|Hfar]; [now left | right].
  destruct (ports_radius p Hp) as [Hr0 Hr1].
  rewrite !dist_to_angle in *.
  pose proof (hav_range lat0 lon0 (lat p) (lon p)) as Ha.
  pose proof (hav_range lat0 lon0 (lat q) (lon q)) as Hb.
  assert (hav lat0 lon0 (lat p) (lon p) <= (80 / 12742) * (80 / 12742)) as Hsmall.
  { apply (angle_small _ (80 / 12742) Ha); lra. }
  assert (angle (hav lat0 lon0 (lat p) (lon p))
          < angle (hav lat0 lon0 (lat q) (lon q))) as Hlt.
  { apply (angle_lt _ _ Ha Hb). apply hav_far. unfold far in Hfar. lra. }
  lra.
Qed.

(** In exact arithmetic, where no square root has a negative argument,
    [detect_port] returns at every coordinate what the design document asks
    of the classifier: the name of the globally nearest port of [PORTS] (the
    first one in iteration order among equidistant ports) when the distance
    to that port is within its own radius, and absent otherwise. *)
Lemma detect_port_nearest (lat0 lon0 : R) :
  detect_port lat0 lon0 = classify (dist_to lat0 lon0) PORTS.
Proof. apply scan_classify, ports_isolated. Qed.

(** What [classify] returns, without [nearest]. *)
Lemma classify_spec (dist : port -> R) (p0 : port) (ports : list port) :
  exists p, In p (p0 :: ports)
    /\ (forall q, In q (p0 :: ports) -> dist p <= dist q)
    /\ classify dist (p0 :: ports)
       = if Rle_dec (dist p) (radius_km p) then Some (name p) else None.
Proof.
  destruct (nearest_some dist p0 ports) as [m Hm].
  destruct (nearest_min dist _ m Hm) as [Hin Hmin].
  exists m. unfold classify. rewrite Hm. auto.
Qed.

(** The table matters: the loop keeps the name of an earlier port whose disc
    holds the point when a later, nearer port does not hold it.  No point is
    in that position for [PORTS]. *)
Example overlapping_discs :
  detect_scan between overlapping = Some "Wide"
  /\ classify between overlapping = None.
Proof.
  unfold detect_scan, classify, overlapping, between. simpl.
  unfold detect_step, closer. simpl.
  repeat (destruct (Rlt_dec _ _); try lra);
    repeat (destruct (Rle_dec _ _); try lra); simpl;
    repeat (destruct (Rlt_dec _ _); try lra);
    repeat (destruct (Rle_dec _ _); try lra); auto.
Qed.

(** *** Distances and membership *)

Lemma haversine_angle (lat1 lon1 lat2 lon2 : R) :
  haversine_km lat1 lon1 lat2 lon2 = 6371 * 2 * angle (hav lat1 lon1 lat2 lon2).
Proof. reflexivity. Qed.

Lemma hav_sym (lat1 lon1 lat2 lon2 : R) :
  hav lat1 lon1 lat2 lon2 = hav lat2 lon2 lat1 lon1.
Proof.
  pose proof (hav_chord lat1 lon1 lat2 lon2) as H1.
  pose proof (hav_chord lat2 lon2 lat1 lon1) as H2.
  lra.
Qed.

Lemma hav_self (lat1 lon1 : R) : hav lat1 lon1 lat1 lon1 = 0.
Proof. pose proof (hav_chord lat1 lon1 lat1 lon1) as H. lra. Qed.

(** In exact arithmetic the distance is between 0 and half the circumference
    of the sphere of radius 6371 km. *)
Lemma haversine_range (lat1 lon1 lat2 lon2 : R) :
  0 <= haversine_km lat1 lon1 lat2 lon2 <= 6371 * PI.
Proof.
  rewrite haversine_angle.
  destruct (angle_spec _ (hav_range lat1 lon1 lat2 lon2)) as [[H0 H1] _].
  lra.
Qed.

(** X2: [haversine_km] does not depend on the order of the two points. *)
Theorem haversine_symmetric (lat1 lon1 lat2 lon2 : R) :
  haversine_km lat1 lon1 lat2 lon2 = haversine_km lat2 lon2 lat1 lon1.
Proof. rewrite !haversine_angle. now rewrite hav_sym. Qed.

(** X3: the distance from a point to itself is 0. *)
Theorem haversine_self (lat1 lon1 : R) : haversine_km lat1 lon1 lat1 lon1 = 0.
Proof.
  rewrite haversine_angle, hav_self. unfold angle, atan2.
  replace (1 - 0) with 1 by ring. rewrite sqrt_0, sqrt_1.
  destruct (Rlt_dec 0 1) as [_|]; [|lra].
  replace (0 / 1) with 0 by field. rewrite atan_0. ring.
Qed.

Lemma scan_chosen (dist : port -> R) (ports : list port) (n : string) :
  forall st,
    best_port (fold_left (detect_step dist) ports st) = Some n ->
    best_port st = Some n
    \/ exists p, In p ports /\ name p = n /\ within dist p.
Proof.
  induction ports as [|q ports IH]; intros st E; simpl in E; [now left|].
  destruct (IH _ E) as [E' | (p & Hp & Hn & Hw)].
  - unfold detect_step in E'. destruct (closer _ _); [|now left]. simpl in E'.
    destruct (Rle_dec (dist q) (radius_km q)) as [Hle|]; [|now left].
    right. exists q. split; [now left|]. split; [congruence | exact Hle].
  - right. exists p. split; [now right | auto].
Qed.

(** In exact arithmetic [detect_port] returns a name exactly when the point
    is within the radius of a port of the table with that name. *)
Lemma detect_port_within (lat0 lon0 : R) (n : string) :
  detect_port lat0 lon0 = Some n
  <-> exists p, In p PORTS /\ name p = n
                /\ haversine_km lat0 lon0 (lat p) (lon p) <= radius_km p.
Proof.
  split.
  - intros E. destruct (scan_chosen (dist_to lat0 lon0) PORTS n _ E)
      as [E' | (p & Hp & Hn & Hw)]; [discriminate E'|].
    exists p. auto.
  - intros (p & Hp & <- & Hw). unfold detect_port, detect_scan.
    apply scan_inside; [exact Hp | exact Hw | | exact I].
    intros q Hq. now apply (ports_isolated lat0 lon0).
Qed.

End GeoFacts.

(** ** The proximity classifier on floats *)

Module GeoFloatFacts.
Import GeoFloat.
#[local] Set Warnings "-inexact-float".
Local Open Scope float_scope.

Section Libm.

Variable m : libm.

(** [haversine_km] raises exactly when one of the two square roots has a
    negative argument. *)
Lemma haversine_raises (lat1 lon1 lat2 lon2 : float) :
  haversine_km m lat1 lon1 lat2 lon2 = ValueError
  <-> (hav m lat1 lon1 lat2 lon2 <? 0) = true
      \/ (1 - hav m lat1 lon1 lat2 lon2 <? 0) = true.
Proof.
  unfold haversine_km, math_sqrt. cbv zeta.
  destruct (hav m lat1 lon1 lat2 lon2 <? 0); [split; auto|].
  destruct (1 - hav m lat1 lon1 lat2 lon2 <? 0); [split; auto|].
  split; [discriminate | intros [H | H]; discriminate H].
Qed.

(** The loop raises exactly when a distance does. *)
Lemma scan_raises (dist : port -> raising float) (ports : list port) :
  forall st,
    detect_scan dist ports st = ValueError
    <-> exists p, In p ports /\ dist p = ValueError.
Proof.
  induction ports as [|q ports IH]; intros st; simpl.
  - split; [discriminate | intros (p & [] & _)].
  - destruct (dist q) as [d|] eqn:E.
    + rewrite IH. split.
      * intros (p & Hp & Hr). exists p. auto.
      * intros (p & [<- | Hp] & Hr); [congruence | exists p; auto].
    + split; [|reflexivity]. intros _. exists q. auto.
Qed.

(** A name the loop ends with was set at a port within its radius. *)
Lemma scan_choice (dist : port -> raising float) (ports : list port) (n : string) :
  forall st st',
    detect_scan dist ports st = Done st' ->
    best_port st' = Some n ->
    best_port st = Some n
    \/ exists p d, In p ports /\ name p = n /\ dist p = Done d
                   /\ (d <=? radius_km p) = true.
Proof.
  induction ports as [|q ports IH]; intros st st' Hrun Hn; simpl in Hrun.
  - injection Hrun as <-. now left.
  - destruct (dist q) as [d|] eqn:E; [|discriminate].
    destruct (IH _ _ Hrun Hn) as [Hstep | (p & d' & Hp & Hname & Hd & Hle)].
    + unfold detect_step in Hstep.
      destruct (d <? best_dist st); [|now left]. cbn [best_port] in Hstep.
      destruct (d <=? radius_km q) eqn:Hle; [|now left].
      right. exists q, d. injection Hstep as <-.
      split; [now left|]. split; [reflexivity|]. split; assumption.
    + right. exists p, d'. split; [now right|]. auto.
Qed.

(** X4: [detect_port] raises [ValueError] exactly when [haversine_km] raises
    for a port of the table, and a name it returns is the name of a port
    whose computed distance is within its radius. *)
Theorem detect_port_within_radius (lat0 lon0 : float) :
  (detect_port m lat0 lon0 = ValueError
   <-> exists p, In p PORTS
                 /\ haversine_km m lat0 lon0 (lat p) (lon p) = ValueError)
  /\ forall n, detect_port m lat0 lon0 = Done (Some n) ->
       exists p d, In p PORTS /\ name p = n
                   /\ haversine_km m lat0 lon0 (lat p) (lon p) = Done d
                   /\ (d <=? radius_km p) = true.
Proof.
  unfold detect_port. split.
  - rewrite <- (scan_raises (dist_to m lat0 lon0) PORTS
                  {| best_port := None; best_dist := PrimFloat.infinity |}).
    destruct (detect_scan _ _ _); split; congruence.
  - intros n Hn.
    destruct (detect_scan (dist_to m lat0 lon0) PORTS _) as [st'|] eqn:Hrun;
      [|discriminate].
    injection Hn as Hn.
    destruct (scan_choice _ _ n _ _ Hrun Hn) as [H | H]; [discriminate H|].
    exact H.
Qed.

End Libm.

(** At the coordinates of Hobart nothing raises and the first port of the
    table is returned. *)
Example detect_port_at_hobart :
  detect_port Samples.libm_at_hobart (-42.88) 147.33 = Done (Some "Hobart").
Proof. vm_compute. reflexivity. Qed.

(** C1: near the antipode of Hobart the term [a] of [haversine_km] rounds
    above 1, [math.sqrt(1 - a)] has a negative argument, and [detect_port]
    raises [ValueError] where the classifier is to return a name or absent. *)
Theorem detect_port_raises_near_antipode :
  hav Samples.libm_near_antipode
      (fst Samples.near_antipode) (snd Samples.near_antipode) (-42.88) 147.33
  = 0x1.0000000000001p+0
  /\ detect_port Samples.libm_near_antipode
       (fst Samples.near_antipode) (snd Samples.near_antipode)
     = ValueError.
Proof. split; vm_compute; reflexivity. Qed.

End GeoFloatFacts.

(** ** The visit aggregator *)

Module VisitsFacts.
Import Visits.
#[local] Set Warnings "-inexact-float".

Lemma port_eqb_eq (a b : option string) : port_eqb a b = true <-> a = b.
Proof.
  destruct a as [x|], b as [y|]; simpl; try (split; congruence).
  rewrite String.eqb_eq. split; congruence.
Qed.

Lemma port_eqb_neq (a b : option string) : port_eqb a b = false <-> a <> b.
Proof.
  rewrite <- port_eqb_eq. destruct (port_eqb a b); split; congruence.
Qed.

Lemma end_visit_points (st : scan_state) :
  run_at_port st ->
  list_sum (map n_points (end_visit (visits st) (current_port st) (current_records st)))
  = points st.
Proof.
  unfold run_at_port, points, end_visit. intros Hrun.
  destruct (current_port st) as [p|].
  - destruct (current_records st) as [|first rest]; [simpl; lia|].
    rewrite map_app, list_sum_app. simpl. lia.
  - rewrite Hrun by reflexivity. simpl. lia.
Qed.

Lemma scan_step_points (st : scan_state) (r : rec) :
  run_at_port st -> truthy (port r) = true ->
  points (scan_step st r) = S (points st) /\ run_at_port (scan_step st r).
Proof.
  intros Hrun Htrue. unfold scan_step. rewrite Htrue.
  destruct (port_eqb (port r) (current_port st)) eqn:E; simpl.
  - apply port_eqb_eq in E. split.
    + unfold points. simpl. rewrite length_app. simpl. lia.
    + unfold run_at_port. simpl. intros Hnone.
      rewrite Hnone in E. rewrite E in Htrue. discriminate.
  - split.
    + unfold points at 1. simpl. rewrite end_visit_points by assumption. lia.
    + unfold run_at_port. simpl. intros Hnone.
      rewrite Hnone in Htrue. discriminate.
Qed.

Lemma scan_points (records : list rec) (st : scan_state) :
  run_at_port st -> Forall (fun r => truthy (port r) = true) records ->
  points (fold_left scan_step records st) = points st + length records
  /\ run_at_port (fold_left scan_step records st).
Proof.
  revert st. induction records as [|r records IH]; intros st Hrun Hall; simpl.
  - split; [lia | assumption].
  - inversion Hall as [|? ? Hr Hrest]; subst.
    destruct (scan_step_points st r Hrun Hr) as [Hp Hrun'].
    destruct (IH (scan_step st r) Hrun' Hrest) as [Hp' Hfin].
    split; [lia | assumption].
Qed.

(** Every name of the port table is a non-empty string. *)
Lemma named_truthy (r : rec) :
  classified r = true -> port r <> None -> truthy (port r) = true.
Proof.
  unfold classified, truthy. destruct (port r) as [n|]; [|congruence].
  intros Hin _. destruct (String.eqb_spec n "") as [->|]; [|reflexivity].
  discriminate Hin.
Qed.

(** The records of [load_data] are classified records. *)
Lemma detect_scan_name (dist : Geo.port -> R) (ports : list Geo.port) (n : string) :
  Geo.detect_scan dist ports = Some n -> In n (map Geo.name ports).
Proof.
  unfold Geo.detect_scan.
  enough (forall st, Geo.best_port (fold_left (Geo.detect_step dist) ports st) = Some n ->
                     Geo.best_port st = Some n \/ In n (map Geo.name ports)) as H.
  { intros E. destruct (H _ E) as [E'|E']; [discriminate E' | exact E']. }
  induction ports as [|p ports IH]; intros st E; simpl in *; [now left|].
  destruct (IH _ E) as [E'|E']; [|now right; right].
  unfold Geo.detect_step in E'.
  destruct (Geo.closer _ _); [|now left]. simpl in E'.
  destruct (Rle_dec _ _); [|now left]. right. left. congruence.
Qed.

Lemma load_data_classified (rows : list sample) :
  forallb classified (load_data rows) = true.
Proof.
  apply forallb_forall. intros r Hr. apply in_map_iff in Hr as (row & <- & _).
  unfold classified. cbn [port].
  destruct (Geo.detect_port _ _) as [n|] eqn:E; [|reflexivity].
  apply (proj2 (existsb_exists _ _)). exists n. split; [|apply String.eqb_refl].
  apply detect_scan_name in E. exact E.
Qed.

Lemma filter_loop (round1 : Q -> Q) (vs acc : list visit) :
  fold_left (filter_step round1) vs acc
  = acc ++ map (annotate round1) (List.filter keep vs).
Proof.
  revert acc. induction vs as [|v vs IH]; intros acc; simpl.
  - now rewrite app_nil_r.
  - rewrite IH. unfold filter_step at 1. fold (keep v).
    destruct (keep v); simpl; [|reflexivity].
    now rewrite <- app_assoc.
Qed.

Lemma group_port_visits_filter (round1 : Q -> Q) (records : list rec) :
  group_port_visits round1 records
  = map (annotate round1) (List.filter keep (scan_visits records)).
Proof.
  unfold group_port_visits. destruct records as [|r records]; [reflexivity|].
  apply filter_loop.
Qed.

Lemma runs_head (r : rec) (rest : list rec) :
  exists run others, runs (r :: rest) = (r :: run) :: others.
Proof.
  simpl. destruct (runs rest) as [|run others]; eauto.
  destruct (same_port r run); eauto.
Qed.

(** A uniform stretch in front of a record at another port is a run. *)
Lemma runs_break (p : option string) (cur todo : list rec) :
  cur <> [] -> Forall (fun r => port r = p) cur ->
  match todo with r0 :: _ => port r0 <> p | [] => True end ->
  runs (cur ++ todo) = cur :: runs todo.
Proof.
  intros Hne Hall Hnext. induction cur as [|c cur IH]; [contradiction|].
  inversion Hall as [|? ? Hc Hcur]; subst.
  destruct cur as [|c' cur].
  - simpl. destruct todo as [|r0 todo]; [reflexivity|].
    destruct (runs_head r0 todo) as (run & others & ->). cbn [same_port].
    assert (port_eqb (port c) (port r0) = false) as ->; [|reflexivity].
    apply port_eqb_neq. congruence.
  - change ((c :: c' :: cur) ++ todo) with (c :: ((c' :: cur) ++ todo)).
    cbn [runs]. rewrite IH by (discriminate || assumption). cbn [same_port].
    inversion Hcur as [|? ? Hc' _]; subst.
    assert (port_eqb (port c) (port c') = true) as ->; [|reflexivity].
    apply port_eqb_eq. congruence.
Qed.

Lemma runs_concat (records : list rec) : concat (runs records) = records.
Proof.
  induction records as [|r rest IH]; [reflexivity|]. simpl.
  destruct (runs rest) as [|run others]; [now subst rest|].
  destruct (same_port r run); simpl in *; now subst rest.
Qed.

Lemma runs_nonempty (records : list rec) : Forall (fun run => run <> []) (runs records).
Proof.
  induction records as [|r rest IH]; [constructor|]. simpl.
  destruct (runs rest) as [|run others]; [repeat constructor; discriminate|].
  inversion IH; subst.
  destruct (same_port r run); repeat constructor; try discriminate; assumption.
Qed.

Lemma runs_uniform (records : list rec) :
  Forall (fun run => exists first, head run = Some first
                       /\ Forall (fun r => port r = port first) run)
         (runs records).
Proof.
  induction records as [|r rest IH]; [constructor|]. simpl.
  destruct (runs rest) as [|run others].
  - repeat constructor. exists r. split; [reflexivity|]. now constructor.
  - inversion IH as [|? ? (first & Hf & Hall) Hrest]; subst.
    destruct run as [|r' run]; [discriminate Hf|].
    simpl in Hf. injection Hf as <-. cbn [same_port].
    destruct (port_eqb (port r) (port r')) eqn:E.
    + apply port_eqb_eq in E. constructor; [|exact Hrest].
      exists r. split; [reflexivity|]. constructor; [reflexivity|].
      eapply Forall_impl; [exact Hall|]. intros x Hx. cbn beta in *. congruence.
    + constructor; [|constructor; [|exact Hrest]].
      * exists r. split; [reflexivity|]. now constructor.
      * exists r'. split; [reflexivity | exact Hall].
Qed.

Lemma runs_separated (records : list rec) : separated (runs records).
Proof.
  induction records as [|r rest IH]; [exact I|]. simpl.
  pose proof (runs_nonempty rest) as Hne.
  destruct (runs rest) as [|run others]; [exact I|].
  inversion Hne as [|? ? Hrun _]; subst.
  destruct run as [|r' run]; [contradiction|]. cbn [same_port].
  destruct (port_eqb (port r) (port r')) eqn:E.
  - destruct others as [|b others']; [exact I|].
    destruct b as [|y b']; [exact IH|].
    cbn [separated] in IH |- *. destruct IH as [Hsep Hrest]. split; [|exact Hrest].
    change (last (r :: r' :: run)) with (last (r' :: run)). exact Hsep.
  - cbn [separated]. split; [|exact IH].
    simpl. apply port_eqb_neq in E. exact E.
Qed.

Lemma arrive_end_visit (vs : list visit) (p : string) (cur : list rec) :
  cur <> [] ->
  end_visit vs (Some p) cur = vs ++ visit_of_run cur
  \/ exists first, head cur = Some first /\ port first <> Some p.
Proof.
  intros Hne. destruct cur as [|first rest]; [contradiction|].
  destruct (decide (port first = Some p)) as [E|E].
  - left. unfold end_visit, visit_of_run. now rewrite E.
  - right. exists first. auto.
Qed.

Lemma scan_runs (todo : list rec) :
  forall st,
    Forall (fun r => truthy (port r) = true) todo -> in_run st ->
    (let fin := fold_left scan_step todo st in
     end_visit (visits fin) (current_port fin) (current_records fin))
    = visits st ++ flat_map visit_of_run (runs (current_records st ++ todo)).
Proof.
  induction todo as [|r todo IH]; intros st Hall Hst; cbv zeta.
  - cbn [fold_left]. rewrite app_nil_r.
    destruct Hst as [[Hp Hc] | (p & Hp & Hne & Hcur)].
    + rewrite Hp, Hc. simpl. now rewrite app_nil_r.
    + rewrite Hp.
      rewrite <- (app_nil_r (current_records st)) at 2.
      rewrite (runs_break (Some p) _ [] Hne Hcur I). cbn [runs flat_map].
      rewrite app_nil_r.
      destruct (current_records st) as [|first rest] eqn:Ec; [contradiction|].
      inversion Hcur as [|? ? Hf _]; subst.
      unfold end_visit, visit_of_run. now rewrite Hf.
  - inversion Hall as [|? ? Hr Hrest]; subst. cbn [fold_left].
    specialize (IH (scan_step st r) Hrest). cbv zeta in IH.
    destruct (port r) as [q|] eqn:Hq; [|discriminate Hr].
    unfold scan_step in *. rewrite Hq, Hr in *.
    destruct (port_eqb (Some q) (current_port st)) eqn:E; cbn [negb] in *;
      cbv iota in *.
    + apply port_eqb_eq in E.
      rewrite IH; cbn [visits current_records current_port].
      * now rewrite <- List.app_assoc.
      * right. exists q. split; [now symmetry|].
        split; [destruct (current_records st); discriminate|].
        apply Forall_app. split; [|now repeat constructor].
        destruct Hst as [[Hp _] | (p & Hp & _ & Hcur)]; [congruence|].
        assert (p = q) as -> by congruence. exact Hcur.
    + apply port_eqb_neq in E.
      rewrite IH; cbn [visits current_records current_port].
      * destruct Hst as [[Hp Hc] | (p & Hp & Hne & Hcur)].
        -- rewrite Hp, Hc. reflexivity.
        -- rewrite Hp in *.
           rewrite (runs_break (Some p) (current_records st) (r :: todo) Hne Hcur)
             by (rewrite Hq; congruence).
           cbn [flat_map]. rewrite List.app_assoc. f_equal.
           destruct (current_records st) as [|first rest] eqn:Ec; [contradiction|].
           inversion Hcur as [|? ? Hf _]; subst.
           unfold end_visit, visit_of_run. now rewrite Hf.
      * right. exists q. split; [reflexivity|]. split; [discriminate|].
        now repeat constructor.
Qed.

Lemma visit_of_run_summary (run : list rec) (p : string) (first : rec) :
  head run = Some first -> Forall (fun r => port r = port first) run ->
  port first = Some p ->
  visit_of_run run = [make_visit p first run]
  /\ run_summary run (make_visit p first run).
Proof.
  intros Hhead Hall Hp. destruct run as [|f rest]; [discriminate|].
  simpl in Hhead. injection Hhead as ->.
  split; [unfold visit_of_run; now rewrite Hp|].
  exists first. unfold make_visit. cbn [visit_port arrive depart arrive_gml_id
    depart_gml_id n_points]. split; [reflexivity|].
  split; [|auto 10].
  eapply Forall_impl; [exact Hall|]. intros x Hx. cbn beta in *. congruence.
Qed.

Lemma runs_summaries (rs : list (list rec)) :
  Forall (fun run => exists first, head run = Some first
                       /\ Forall (fun r => port r = port first) run) rs ->
  Forall (fun run => Forall (fun r => port r <> None) run) rs ->
  Forall2 run_summary rs (flat_map visit_of_run rs).
Proof.
  induction 1 as [|run rs (first & Hhead & Hall) _ IH]; intros Hnamed;
    [constructor|].
  inversion Hnamed as [|? ? Hrun Hrest]; subst. cbn [flat_map].
  destruct (port first) as [p|] eqn:Hp.
  - rewrite <- Hp in Hall.
    destruct (visit_of_run_summary run p first Hhead Hall Hp) as [-> Hsum].
    constructor; [exact Hsum | now apply IH].
  - exfalso. destruct run as [|f rest]; [discriminate|].
    simpl in Hhead. injection Hhead as ->.
    inversion Hrun; subst. contradiction.
Qed.

Lemma Forall_concat_runs {A : Type} (P : A -> Prop) (ls : list (list A)) :
  Forall P (concat ls) -> Forall (fun l => Forall P l) ls.
Proof.
  induction ls as [|l ls IH]; [constructor|]. simpl.
  intros H. apply Forall_app in H as [H1 H2]. constructor; auto.
Qed.

(** C5: when no record of a classified sequence is absent, the visits of the
    scan, before the dwell filter, are the summaries of the runs of the
    sequence, one visit per run in order, the trailing run included: each
    visit has the port, the first and the last record and the length of its
    run.  The runs are the maximal stretches of records at one port: put end
    to end they are the sequence, and two runs that follow each other are at
    different ports.  So the [n_points] add up to the number of records. *)
Theorem scan_counts_every_point (records : list rec) :
  forallb classified records = true ->
  Forall (fun r => port r <> None) records ->
  Forall2 run_summary (runs records) (scan_visits records)
  /\ concat (runs records) = records
  /\ separated (runs records)
  /\ list_sum (map n_points (scan_visits records)) = length records.
Proof.
  intros Hcl Habs.
  assert (Forall (fun r => truthy (port r) = true) records) as Hall.
  { rewrite forallb_forall in Hcl. rewrite List.Forall_forall in Habs |- *.
    intros r Hr. apply named_truthy; auto. }
  assert (scan_visits records = flat_map visit_of_run (runs records)) as Hscan.
  { unfold scan_visits.
    exact (scan_runs records scan_init Hall (or_introl (conj eq_refl eq_refl))). }
  split; [|split; [apply runs_concat | split; [apply runs_separated|]]].
  - rewrite Hscan. apply runs_summaries; [apply runs_uniform|].
    apply Forall_concat_runs. now rewrite runs_concat.
  - assert (run_at_port scan_init) as Hinit by (intros _; reflexivity).
    destruct (scan_points records scan_init Hinit Hall) as [Hp Hrun].
    unfold scan_visits. rewrite end_visit_points by assumption.
    rewrite Hp. unfold points. simpl. lia.
Qed.

Lemma scan_counts_every_point_witness :
  forallb classified Samples.port_hops = true
  /\ Forall (fun r => port r <> None) Samples.port_hops
  /\ Forall2 run_summary (runs Samples.port_hops) (scan_visits Samples.port_hops)
  /\ concat (runs Samples.port_hops) = Samples.port_hops
  /\ separated (runs Samples.port_hops)
  /\ list_sum (map n_points (scan_visits Samples.port_hops))
     = length Samples.port_hops.
Proof.
  assert (forallb classified Samples.port_hops = true) as H1 by reflexivity.
  assert (Forall (fun r => port r <> None) Samples.port_hops) as H2
    by (repeat constructor; discriminate).
  split; [exact H1|]. split; [exact H2|].
  exact (scan_counts_every_point Samples.port_hops H1 H2).
Defined.

Example port_hops_visits :
  map (fun v => (visit_port v, n_points v)) (scan_visits Samples.port_hops)
  = [("Hobart", 2); ("Casey", 3); ("Hobart", 1)].
Proof. reflexivity. Qed.

Lemma round_half_even_near (q : Q) :
  (Qabs (q - inject_Z (round_half_even q)) <= 1 # 2)%Q.
Proof.
  apply Qabs_Qle_condition. destruct q as [n d]. unfold round_half_even.
  cbn [Qnum Qden].
  pose proof (Z.div_mod n (Zpos d) ltac:(discriminate)) as Hdiv.
  pose proof (Z.mod_pos_bound n (Zpos d) ltac:(reflexivity)) as Hmod.
  set (f := (n / Zpos d)%Z) in *. set (r := (n mod Zpos d)%Z) in *.
  assert (forall k : Z, (-(1 # 2) <= (n # d) - inject_Z k <= 1 # 2)%Q
            <-> (- Zpos d <= 2 * (n - k * Zpos d) <= Zpos d)%Z) as E.
  { intros k. unfold Qle, Qminus, Qplus, Qopp, inject_Z. cbn [Qnum Qden].
    rewrite !Pos2Z.inj_mul. split; intros [H1 H2]; split; nia. }
  destruct (Z.ltb_spec (2 * r) (Zpos d)); [apply E; nia|].
  destruct (Z.ltb_spec (Zpos d) (2 * r)); [apply E; nia|].
  destruct (Z.even f); apply E; nia.
Qed.

(** C6, as amended: a visit of the scan is in the output exactly when its
    dwell [(depart - arrive) / 3600] reaches [MIN_DWELL_HOURS]; the output
    keeps the order of the scan; and a retained visit carries as
    [dwell_hours] not its dwell but [round(dwell, 1)]: the float [k / 10]
    for the integer [k] nearest to ten times the float of the quotient, a tie
    going to the even one. *)
Theorem dwell_filter_rounds (records : list rec) :
  group_port_visits round_tenths records
  = map (annotate round_tenths) (List.filter keep (scan_visits records))
  /\ (forall v, In v (scan_visits records) ->
        (In (annotate round_tenths v) (group_port_visits round_tenths records)
         <-> (MIN_DWELL_HOURS <= dwell v)%Q))
  /\ forall v, In v (group_port_visits round_tenths records) ->
       exists k : Z,
         dwell_hours v = Some (Qred (exact (tenths k)))
         /\ (Qabs (exact (float_quotient (dwell v)) * 10 - inject_Z k) <= 1 # 2)%Q.
Proof.
  split; [apply group_port_visits_filter|]. split.
  - intros v Hv. rewrite group_port_visits_filter, in_map_iff. split.
    + intros (v0 & Heq & Hin). apply filter_In in Hin as [_ Hkeep].
      apply Qle_bool_iff in Hkeep.
      assert (dwell v0 = dwell v) as E.
      { unfold dwell.
        change (arrive v0) with (arrive (annotate round_tenths v0)).
        change (depart v0) with (depart (annotate round_tenths v0)).
        now rewrite Heq. }
      rewrite <- E. exact Hkeep.
    + intros Hle. exists v. split; [reflexivity|].
      apply filter_In. split; [exact Hv|]. apply Qle_bool_iff, Hle.
  - intros v Hv. rewrite group_port_visits_filter in Hv.
    apply in_map_iff in Hv as (v0 & <- & _).
    exists (round_half_even (exact (float_quotient (dwell v0)) * 10)).
    split; [reflexivity|].
    change (dwell (annotate round_tenths v0)) with (dwell v0).
    apply round_half_even_near.
Qed.

(** C6, as stated, fails: the call at Casey lasts 25/12 hours and is retained
    with [dwell_hours = 2.1], the float. *)
Lemma dwell_hours_is_rounded :
  ~ annotated_with_dwell round_tenths Samples.casey_call.
Proof.
  intros H.
  pose (v := make_visit "Casey" (Samples.at_port "uwy.1" 0 (Some "Casey"))
                        Samples.casey_call).
  destruct (H v) as [_ Hback]; [left; reflexivity|].
  destruct Hback as (h & Hin & Heq); [unfold Qle; simpl; lia|].
  vm_compute in Hin. destruct Hin as [Hin|[]].
  injection Hin as <-. vm_compute in Heq. discriminate Heq.
Qed.

Example casey_call_visits :
  map (fun v => (visit_port v, dwell v, dwell_hours v))
      (group_port_visits round_tenths Samples.casey_call)
  = [("Casey", (7500 # 3600)%Q, Some (Qred (exact 2.1)))].
Proof. vm_compute. reflexivity. Qed.

(** The quotients 7740/3600 = 2.15 and 8820/3600 = 2.45 are exact ties
    between two tenths; their floats are not, and go down and up. *)
Example round_tenths_ties :
  round_tenths (7740 # 3600) = Qred (exact 2.1)
  /\ round_tenths (8820 # 3600) = Qred (exact 2.5)
  /\ round_tenths (9000 # 3600) = Qred (exact 2.5)
  /\ round_tenths (8100 # 3600) = Qred (exact 2.2).
Proof. repeat split; vm_compute; reflexivity. Qed.

(** C8, as amended: the aggregator has no ordering check.  On every input,
    in timestamp order or not, it returns the dwell-filtered scan and raises
    nothing. *)
Theorem aggregator_never_raises (round1 : Q -> Q) (records : list rec) :
  run_group_port_visits round1 records
  = Returns (map (annotate round1) (List.filter keep (scan_visits records)))
  /\ forall e, run_group_port_visits round1 records <> Raises e.
Proof.
  unfold run_group_port_visits. rewrite group_port_visits_filter.
  split; [reflexivity | discriminate].
Qed.

(** C8, as stated, fails: timestamps going backwards are accepted, and the
    run is summarised from its first and last record. *)
Lemma backwards_input_returns : ~ fails_fast round_tenths Samples.backwards.
Proof.
  intros H. specialize (H eq_refl). discriminate H.
Qed.

Example backwards_visits :
  monotonic (map datetime Samples.backwards) = false
  /\ map (fun v => (arrive v, depart v, n_points v, dwell_hours v))
         (group_port_visits round_tenths Samples.backwards)
     = [(0%Z, 8000%Z, 3, Some (Qred (exact 2.2)))].
Proof. split; vm_compute; reflexivity. Qed.

(** The worked scenario: both calls at Hobart are dropped by the filter. *)
Example scenario_visits :
  map (fun v => (visit_port v, arrive v, depart v, dwell_hours v))
      (group_port_visits round_tenths Samples.scenario)
  = [("Casey", 10000%Z, 28000%Z, Some 5%Q)].
Proof. vm_compute. reflexivity. Qed.

(** *** What the scan puts in a visit *)

Lemma end_visit_points_named (st : scan_state) :
  run_named st ->
  list_sum (map n_points (end_visit (visits st) (current_port st) (current_records st)))
  = points st.
Proof.
  unfold run_named, points, end_visit. intros Hrun.
  destruct (current_port st) as [p|].
  - destruct (current_records st) as [|first rest]; [simpl; lia|].
    rewrite map_app, list_sum_app. simpl. lia.
  - rewrite Hrun by reflexivity. simpl. lia.
Qed.

Lemma scan_step_count (st : scan_state) (r : rec) :
  run_named st ->
  points (scan_step st r) = points st + (if at_named_port r then 1 else 0)
  /\ run_named (scan_step st r).
Proof.
  intros Hrun. unfold scan_step, at_named_port.
  destruct (port_eqb (port r) (current_port st)) eqn:E; simpl.
  - apply port_eqb_eq in E. destruct (truthy (port r)) eqn:Ht.
    + split; [unfold points; simpl; rewrite length_app; simpl; lia|].
      unfold run_named. simpl. rewrite <- E, Ht. discriminate.
    + split; [unfold points; simpl; lia | exact Hrun].
  - split.
    + unfold points at 1. simpl. rewrite end_visit_points_named by assumption.
      destruct (truthy (port r)); simpl; lia.
    + unfold run_named. simpl. intros Hf. now rewrite Hf.
Qed.

Lemma scan_count (records : list rec) (st : scan_state) :
  run_named st ->
  points (fold_left scan_step records st)
  = points st + length (List.filter at_named_port records)
  /\ run_named (fold_left scan_step records st).
Proof.
  revert st. induction records as [|r records IH]; intros st Hrun; simpl.
  - split; [lia | assumption].
  - destruct (scan_step_count st r Hrun) as [Hp Hrun'].
    destruct (IH (scan_step st r) Hrun') as [Hp' Hfin].
    split; [|assumption]. rewrite Hp', Hp.
    destruct (at_named_port r); simpl; lia.
Qed.

(** X5: on any input the [n_points] of the visits of the scan add up to the
    number of records whose port is a non-empty name: a record away from
    every port is in no visit, and no record is counted twice. *)
Theorem scan_counts_named_records (records : list rec) :
  list_sum (map n_points (scan_visits records))
  = length (List.filter at_named_port records).
Proof.
  assert (run_named scan_init) as Hinit by (intros _; reflexivity).
  destruct (scan_count records scan_init Hinit) as [Hp Hrun].
  unfold scan_visits. rewrite end_visit_points_named by assumption.
  rewrite Hp. unfold points. simpl. lia.
Qed.

Lemma truthy_name (p : string) : truthy (Some p) = true -> p <> "".
Proof.
  simpl. intros H ->. discriminate H.
Qed.

Lemma end_visit_summarises (records : list rec) (st : scan_state) :
  run_of records st ->
  Forall (summarises records) (visits st) ->
  Forall (summarises records)
    (end_visit (visits st) (current_port st) (current_records st)).
Proof.
  intros [Hall Hname] Hvs. unfold end_visit.
  destruct (current_port st) as [p|] eqn:Hp; [|exact Hvs].
  destruct (current_records st) as [|first rest] eqn:Hrs; [exact Hvs|].
  apply Forall_app. split; [exact Hvs|]. constructor; [|constructor].
  assert (forall r, In r (first :: rest) -> In r records /\ port r = Some p) as Hin.
  { intros r Hr. rewrite List.Forall_forall in Hall. now apply Hall. }
  assert (In (List.last (first :: rest) first) (first :: rest)) as Hlast.
  { destruct (exists_last (l := first :: rest) ltac:(discriminate)) as (l' & x & E).
    rewrite E, last_last. apply in_or_app. right. now left. }
  destruct (Hin first (or_introl eq_refl)) as [Hf1 Hf2].
  destruct (Hin _ Hlast) as [Hl1 Hl2].
  unfold summarises, make_visit. cbn [n_points visit_port arrive depart
    arrive_gml_id depart_gml_id].
  split; [simpl; lia|]. split.
  - apply truthy_name, Hname. discriminate.
  - exists first, (List.last (first :: rest) first). auto 10.
Qed.

Lemma scan_step_run_of (records : list rec) (st : scan_state) (r : rec) :
  In r records -> run_of records st ->
  Forall (summarises records) (visits st) ->
  run_of records (scan_step st r)
  /\ Forall (summarises records) (visits (scan_step st r)).
Proof.
  intros Hr Hrun Hvs. unfold scan_step.
  destruct (port_eqb (port r) (current_port st)) eqn:E; simpl.
  - apply port_eqb_eq in E. split; [|exact Hvs].
    destruct Hrun as [Hall Hname]. unfold run_of. simpl.
    destruct (truthy (port r)) eqn:Ht.
    + split; [|intros _; now rewrite <- E].
      apply Forall_app. split; [exact Hall|]. constructor; [auto | constructor].
    + split; assumption.
  - split; [|now apply end_visit_summarises].
    unfold run_of. simpl. destruct (truthy (port r)) eqn:Ht.
    + split; [|reflexivity]. constructor; [auto | constructor].
    + split; [constructor | congruence].
Qed.

Lemma scan_run_of (records todo : list rec) (st : scan_state) :
  incl todo records -> run_of records st ->
  Forall (summarises records) (visits st) ->
  run_of records (fold_left scan_step todo st)
  /\ Forall (summarises records) (visits (fold_left scan_step todo st)).
Proof.
  revert st. induction todo as [|r todo IH]; intros st Hincl Hrun Hvs; simpl.
  - now split.
  - destruct (scan_step_run_of records st r) as [Hrun' Hvs']; auto.
    { apply Hincl. now left. }
    apply IH; auto. intros x Hx. apply Hincl. now right.
Qed.

Lemma scan_summarises (records : list rec) :
  Forall (summarises records) (scan_visits records).
Proof.
  unfold scan_visits.
  destruct (scan_run_of records records scan_init) as [Hrun Hvs].
  - apply incl_refl.
  - split; [constructor | intros H; now contradiction H].
  - constructor.
  - now apply end_visit_summarises.
Qed.

(** X6: every visit of the scan has at least one point and a non-empty port
    name, and its arrival and departure, with their identifiers, are the
    timestamps of two records of the input detected at that port. *)
Theorem scan_visits_summarise (records : list rec) :
  Forall (summarises records) (scan_visits records).
Proof. apply scan_summarises. Qed.

(** X7: every visit that [group_port_visits] returns on the records of
    [load_data] is at a port of the table [PORTS]. *)
Theorem visits_at_table_ports (round1 : Q -> Q) (rows : list sample) :
  Forall (fun v => In (visit_port v) port_names)
         (group_port_visits round1 (load_data rows)).
Proof.
  rewrite group_port_visits_filter. apply List.Forall_forall. intros v Hv.
  apply in_map_iff in Hv as (v0 & <- & Hv0). apply filter_In in Hv0 as [Hv0 _].
  pose proof (scan_summarises (load_data rows)) as Hsum.
  rewrite List.Forall_forall in Hsum.
  destruct (Hsum v0 Hv0) as (_ & _ & first & _ & Hfirst & _ & Hport & _).
  pose proof (load_data_classified rows) as Hcl.
  rewrite forallb_forall in Hcl. specialize (Hcl first Hfirst).
  unfold classified in Hcl. rewrite Hport in Hcl.
  apply existsb_exists in Hcl as (n & Hn & E).
  apply String.eqb_eq in E. cbn [annotate set_dwell_hours visit_port].
  now rewrite E.
Qed.

(** *** Chronology *)

Lemma monotonic_sorted (ts : list Z) :
  monotonic ts = true -> StronglySorted Z.le ts.
Proof.
  intros H. apply Sorted_StronglySorted; [intros x y z; lia|].
  induction ts as [|t1 ts IH]; [constructor|].
  destruct ts as [|t2 ts]; [repeat constructor|].
  simpl in H. apply andb_prop in H as [H1 H2].
  constructor; [now apply IH|]. constructor. now apply Z.leb_le.
Qed.

Lemma timeline_app (vs ws : list visit) :
  timeline (vs ++ ws) = timeline vs ++ timeline ws.
Proof. unfold timeline. apply flat_map_app. Qed.

Lemma sorted_drop_middle (l1 l2 l3 : list Z) :
  StronglySorted Z.le (l1 ++ l2 ++ l3) -> StronglySorted Z.le (l1 ++ l3).
Proof.
  intros H. apply StronglySorted_app in H as (H12 & H1 & H23).
  apply StronglySorted_app in H23 as (_ & _ & H3).
  apply StronglySorted_app. split; [|now split].
  intros x y Hx Hy. apply H12; [exact Hx|].
  apply elem_of_app. now right.
Qed.

Lemma end_visit_in_order (st : scan_state) (todo : list rec) :
  in_order st todo ->
  StronglySorted Z.le
    (timeline (end_visit (visits st) (current_port st) (current_records st))
     ++ map datetime todo).
Proof.
  unfold in_order, end_visit. intros H.
  destruct (current_port st) as [p|]; [|now apply sorted_drop_middle in H].
  destruct (current_records st) as [|first rest] eqn:Hrs;
    [now apply sorted_drop_middle in H|].
  rewrite timeline_app. unfold timeline at 2. cbn [flat_map make_visit arrive depart].
  rewrite app_nil_r, <- List.app_assoc.
  destruct (exists_last (l := first :: rest) ltac:(discriminate)) as (l' & x & E).
  rewrite E, last_last. rewrite E, map_app in H. cbn [map] in H.
  apply StronglySorted_app in H as (HT & H1 & H23).
  apply StronglySorted_app in H23 as (Hrs' & Hrun & Htodo).
  apply StronglySorted_app in Hrun as (Hl' & Hsl' & _).
  assert (In (datetime first) (map datetime l' ++ [datetime x])) as Hfirst.
  { change [datetime x] with (map datetime [x]).
    rewrite <- (map_app datetime l' [x]), <- E. now left. }
  assert (datetime first <= datetime x)%Z as Hle.
  { apply in_app_or in Hfirst as [Hin | [<- | []]]; [|lia].
    apply Hl'; [now apply list_elem_of_In | apply list_elem_of_In; now left]. }
  apply StronglySorted_app. split; [|split; [exact H1|]].
  - intros a b Ha Hb. apply HT; [exact Ha|].
    apply elem_of_app in Hb as [Hb | Hb].
    + apply elem_of_app. left. apply list_elem_of_In in Hb.
      apply list_elem_of_In.
      destruct Hb as [<- | [<- | []]]; [exact Hfirst|].
      apply in_or_app. right. now left.
    + apply elem_of_app. now right.
  - apply StronglySorted_app. split; [|split; [|exact Htodo]].
    + intros a b Ha Hb. apply Hrs'; [|exact Hb].
      apply list_elem_of_In in Ha. apply list_elem_of_In.
      destruct Ha as [<- | [<- | []]]; [exact Hfirst|].
      apply in_or_app. right. now left.
    + repeat constructor. exact Hle.
Qed.

Lemma scan_step_in_order (st : scan_state) (r : rec) (todo : list rec) :
  in_order st (r :: todo) -> in_order (scan_step st r) todo.
Proof.
  intros H. unfold scan_step.
  destruct (port_eqb (port r) (current_port st)) eqn:E.
  - unfold in_order in *. cbn [negb]. cbv iota. cbn [visits current_records].
    destruct (truthy (port r)).
    + rewrite map_app, <- List.app_assoc. exact H.
    + cbn [map] in H. rewrite List.app_assoc in H |- *.
      change (datetime r :: map datetime todo)
        with ([datetime r] ++ map datetime todo) in H.
      now apply sorted_drop_middle in H.
  - unfold in_order. cbn [negb]. cbv iota. cbn [visits current_records].
    pose proof (end_visit_in_order st (r :: todo) H) as H'.
    destruct (truthy (port r)); [exact H'|].
    cbn [map app] in *.
    change (datetime r :: map datetime todo)
      with ([datetime r] ++ map datetime todo) in H'.
    now apply sorted_drop_middle in H'.
Qed.

Lemma scan_in_order (todo : list rec) (st : scan_state) :
  in_order st todo -> in_order (fold_left scan_step todo st) [].
Proof.
  revert st. induction todo as [|r todo IH]; intros st H; simpl; [exact H|].
  apply IH. now apply scan_step_in_order.
Qed.

Lemma timeline_filter_incl (round1 : Q -> Q) (vs : list visit) (x : Z) :
  In x (timeline (map (annotate round1) (List.filter keep vs))) ->
  In x (timeline vs).
Proof.
  induction vs as [|v vs IH]; [intros []|]. cbn [List.filter].
  change (timeline (v :: vs)) with (arrive v :: depart v :: timeline vs).
  destruct (keep v).
  - change (timeline (map (annotate round1) (v :: List.filter keep vs)))
      with (arrive v :: depart v
            :: timeline (map (annotate round1) (List.filter keep vs))).
    intros [<- | [<- | H]]; [now left | right; now left | right; right; auto].
  - intros H. right. right. auto.
Qed.

Lemma timeline_filter_sorted (round1 : Q -> Q) (vs : list visit) :
  StronglySorted Z.le (timeline vs) ->
  StronglySorted Z.le (timeline (map (annotate round1) (List.filter keep vs))).
Proof.
  induction vs as [|v vs IH]; [intros _; constructor|]. cbn [List.filter].
  change (timeline (v :: vs)) with (arrive v :: depart v :: timeline vs).
  intros H. inversion H as [|a l Hl Ha]; subst.
  inversion Hl as [|d l' Hl' Hd]; subst.
  destruct (keep v); [|now apply IH].
  change (timeline (map (annotate round1) (v :: List.filter keep vs)))
    with (arrive v :: depart v
          :: timeline (map (annotate round1) (List.filter keep vs))).
  inversion Ha as [|? ? Had Hat]; subst.
  rewrite List.Forall_forall in Hat, Hd.
  constructor; [constructor; [now apply IH|]|].
  - apply List.Forall_forall. intros x Hx. apply Hd.
    now apply (timeline_filter_incl round1).
  - constructor; [exact Had|]. apply List.Forall_forall. intros x Hx.
    apply Hat. now apply (timeline_filter_incl round1).
Qed.

(** X8: when the timestamps of the input never go backwards, the visits come
    out in time order, before and after the dwell filter: each visit departs
    no earlier than it arrives, and arrives no earlier than the visit before
    it departs. *)
Theorem visits_in_order (round1 : Q -> Q) (records : list rec) :
  monotonic (map datetime records) = true ->
  StronglySorted Z.le (timeline (scan_visits records))
  /\ StronglySorted Z.le (timeline (group_port_visits round1 records)).
Proof.
  intros Hmono.
  assert (StronglySorted Z.le (timeline (scan_visits records))) as Hscan.
  { unfold scan_visits.
    assert (in_order scan_init records) as Hinit
      by (unfold in_order; simpl; now apply monotonic_sorted).
    pose proof (end_visit_in_order _ [] (scan_in_order records scan_init Hinit))
      as H.
    simpl in H. now rewrite app_nil_r in H. }
  split; [exact Hscan|].
  rewrite group_port_visits_filter. now apply timeline_filter_sorted.
Qed.

Lemma visits_in_order_witness :
  monotonic (map datetime Samples.scenario) = true
  /\ StronglySorted Z.le (timeline (scan_visits Samples.scenario))
  /\ StronglySorted Z.le
       (timeline (group_port_visits round_tenths Samples.scenario)).
Proof.
  split; [reflexivity|].
  exact (visits_in_order round_tenths Samples.scenario eq_refl).
Defined.

End VisitsFacts.

(** ** The voyage segmenter *)

Module VoyagesFacts.
Import Visits Voyages.

Section Facts.

Variable strftime_ym : Z -> string.

Local Abbreviation emit := (Voyages.emit strftime_ym).
Local Abbreviation make_voyage := (Voyages.make_voyage strftime_ym).
Local Abbreviation voyage_loop := (Voyages.voyage_loop strftime_ym).
Local Abbreviation group_voyages := (Voyages.group_voyages strftime_ym).

Lemma all_stops_app (l1 l2 : list voyage) :
  all_stops (l1 ++ l2) = all_stops l1 ++ all_stops l2.
Proof. unfold all_stops. now rewrite map_app, concat_app. Qed.

Lemma all_stops_one (n : nat) (first : visit) (cs : list visit) :
  all_stops [make_voyage n first cs] = cs.
Proof. unfold all_stops. simpl. apply app_nil_r. Qed.

(** Closing the buffer moves its visits, in order, behind the stops emitted
    so far. *)
Lemma emit_stops (st : seg_state) :
  all_stops (voyages (emit st)) = all_stops (voyages st) ++ current_stops st.
Proof.
  unfold Voyages.emit. destruct (current_stops st) as [|first cs] eqn:E; simpl.
  - now rewrite app_nil_r.
  - rewrite all_stops_app. unfold all_stops at 2. simpl. now rewrite app_nil_r.
Qed.

Lemma restart_emit_stops (st : seg_state) :
  all_stops (voyages (restart (emit st))) ++ current_stops (restart (emit st))
  = all_stops (voyages st) ++ current_stops st.
Proof.
  unfold restart, Voyages.emit.
  destruct (current_stops st) as [|first cs] eqn:E; simpl.
  - now rewrite !E.
  - rewrite all_stops_app. unfold all_stops at 2. simpl. now rewrite !app_nil_r.
Qed.

Lemma loop_stops (visits todo : list visit) :
  forall (i : nat) (st : seg_state),
    all_stops (voyages (emit (voyage_loop visits i todo st)))
    = all_stops (voyages st) ++ current_stops st ++ todo.
Proof.
  induction todo as [|v todo IH]; intros i st; simpl.
  - now rewrite emit_stops, app_nil_r.
  - rewrite IH. unfold push. simpl.
    change (v :: todo) with ([v] ++ todo). rewrite !List.app_assoc.
    destruct (is_new_voyage visits i v); [|reflexivity].
    now rewrite restart_emit_stops.
Qed.

Lemma group_voyages_stops (visits : list visit) :
  all_stops (group_voyages visits) = visits.
Proof.
  unfold Voyages.group_voyages. destruct visits as [|v visits]; [reflexivity|].
  exact (loop_stops (v :: visits) (v :: visits) 0 seg_init).
Qed.

(** C2: the stops of the emitted voyages, concatenated in emission order, are
    the input visits: every visit is in exactly one voyage, none is dropped
    or reordered. *)
Theorem voyages_partition_visits (visits : list visit) :
  concat (map stops (group_voyages visits)) = visits.
Proof.
  unfold Voyages.group_voyages. destruct visits as [|v visits]; [reflexivity|].
  exact (loop_stops (v :: visits) (v :: visits) 0 seg_init).
Qed.

(** *** Numbering and derived fields *)

Local Abbreviation numbered := (Voyages.numbered strftime_ym).
Local Abbreviation well_formed := (Voyages.well_formed strftime_ym).

Local Abbreviation counted := (Voyages.counted strftime_ym).

Lemma numbered_snoc (vs : list voyage) (v : voyage) :
  numbered vs -> well_formed (S (length vs)) v -> numbered (vs ++ [v]).
Proof.
  unfold Voyages.numbered. intros Hvs Hv.
  rewrite length_app. simpl. rewrite Nat.add_1_r, seq_S.
  apply Forall2_app; [exact Hvs|]. constructor; [exact Hv | constructor].
Qed.

Lemma emit_counted (st : seg_state) : counted st -> counted (emit st).
Proof.
  unfold Voyages.counted, Voyages.emit. intros [Hnum Hlen].
  destruct (current_stops st) as [|first cs] eqn:E; simpl; [now split|].
  split.
  - apply numbered_snoc; [exact Hnum|].
    unfold Voyages.well_formed. simpl. rewrite Hlen. now repeat split.
  - rewrite length_app. simpl. lia.
Qed.

Lemma restart_counted (st : seg_state) : counted st -> counted (restart st).
Proof.
  unfold Voyages.counted, restart. now destruct (current_stops st).
Qed.

Lemma loop_counted (visits todo : list visit) :
  forall (i : nat) (st : seg_state),
    counted st -> counted (voyage_loop visits i todo st).
Proof.
  induction todo as [|v todo IH]; intros i st Hst; simpl; [exact Hst|].
  apply IH. destruct (is_new_voyage visits i v).
  - apply (restart_counted (emit st)), emit_counted, Hst.
  - exact Hst.
Qed.

(** C9: every emitted voyage has a non-empty [stops], its [start] is the
    arrival of its first stop and its [end] the departure of its last stop;
    the voyage emitted in position k (from 1) carries the number k in its
    identifier, so the numbers start at 1 and increase with each emission. *)
Theorem voyages_well_formed (visits : list visit) :
  Forall2 (Voyages.well_formed strftime_ym)
          (seq 1 (length (group_voyages visits))) (group_voyages visits).
Proof.
  unfold Voyages.group_voyages. destruct visits as [|v visits]; [constructor|].
  apply emit_counted, loop_counted. split; [constructor | reflexivity].
Qed.

(** *** Where voyages start *)

Lemma start_offsets_app (from : nat) (l1 l2 : list voyage) :
  start_offsets from (l1 ++ l2)
  = start_offsets from l1 ++ start_offsets (from + length (all_stops l1)) l2.
Proof.
  revert from. induction l1 as [|v l1 IH]; intros from; simpl.
  - now rewrite Nat.add_0_r.
  - rewrite IH. unfold all_stops. simpl. rewrite length_app.
    now rewrite Nat.add_assoc.
Qed.

(** The test of the loop is the boundary rule, at an index of the input
    other than the first. *)
Lemma is_new_voyage_boundary (pre todo : list visit) (v : visit) :
  pre <> [] ->
  is_new_voyage (pre ++ v :: todo) (length pre) v
  = boundary (pre ++ v :: todo) (length pre).
Proof.
  intros Hpre. unfold is_new_voyage, boundary.
  destruct (length pre) as [|j] eqn:E.
  { destruct pre; [contradiction | discriminate]. }
  assert (nth_error (pre ++ v :: todo) (S j) = Some v) as Hcur.
  { rewrite <- E, nth_error_app2 by lia. now rewrite Nat.sub_diag. }
  rewrite Hcur. simpl. rewrite Nat.sub_0_r.
  destruct (nth_error (pre ++ v :: todo) j) as [prev|] eqn:Hprev.
  - now rewrite andb_true_r.
  - apply nth_error_None in Hprev. rewrite length_app in Hprev. lia.
Qed.

(** Offsets of the voyages once the buffer is closed, for a non-empty
    buffer: those of the emitted voyages, then the offset of the buffer. *)
Lemma emit_offsets (st : seg_state) :
  current_stops st <> [] ->
  start_offsets 0 (voyages (emit st))
  = start_offsets 0 (voyages st) ++ [length (all_stops (voyages st))].
Proof.
  unfold Voyages.emit. intros Hne.
  destruct (current_stops st) as [|first cs]; [contradiction|]. simpl.
  now rewrite start_offsets_app.
Qed.

Lemma snoc_not_nil {A : Type} (l : list A) (x : A) : l ++ [x] <> [].
Proof. destruct l; discriminate. Qed.

Lemma loop_offsets (todo : list visit) :
  forall (pre : list visit) (st : seg_state),
    pre <> [] ->
    current_stops st <> [] ->
    all_stops (voyages st) ++ current_stops st = pre ->
    start_offsets 0
      (voyages (emit (voyage_loop (pre ++ todo) (length pre) todo st)))
    = start_offsets 0 (voyages (emit st))
      ++ List.filter (boundary (pre ++ todo)) (seq (length pre) (length todo)).
Proof.
  induction todo as [|v todo IH]; intros pre st Hpre Hcur Hst.
  - simpl. now rewrite app_nil_r.
  - cbn [Voyages.voyage_loop length seq List.filter].
    rewrite is_new_voyage_boundary by exact Hpre.
    assert (pre ++ v :: todo = (pre ++ [v]) ++ todo) as Hsplit
      by now rewrite <- List.app_assoc.
    assert (S (length pre) = length (pre ++ [v])) as Hlen
      by (rewrite length_app; simpl; lia).
    destruct (boundary (pre ++ v :: todo) (length pre)) eqn:Hb.
    + rewrite Hsplit, Hlen.
      rewrite IH.
      * assert (start_offsets 0 (voyages (emit (push v (restart (emit st)))))
                = start_offsets 0 (voyages (emit st)) ++ [length pre]) as ->.
        { assert (current_stops (push v (restart (emit st))) = [v]) as Hv.
          { unfold push, restart, Voyages.emit.
            destruct (current_stops st) as [|first cs]; [contradiction|].
            reflexivity. }
          rewrite (emit_offsets (push v (restart (emit st))))
            by (rewrite Hv; discriminate).
          unfold push at 1 2. cbn [voyages].
          assert (voyages (restart (emit st)) = voyages (emit st)) as ->.
          { unfold restart. now destruct (current_stops (emit st)). }
          now rewrite emit_stops, Hst. }
        now rewrite <- List.app_assoc.
      * apply snoc_not_nil.
      * apply snoc_not_nil.
      * unfold push. cbn [voyages current_stops].
        rewrite List.app_assoc, restart_emit_stops, Hst. reflexivity.
    + rewrite Hsplit, Hlen.
      rewrite IH.
      * f_equal.
        rewrite (emit_offsets st Hcur).
        rewrite (emit_offsets (push v st))
          by apply snoc_not_nil.
        reflexivity.
      * apply snoc_not_nil.
      * apply snoc_not_nil.
      * unfold push. cbn [voyages current_stops].
        rewrite List.app_assoc, Hst. reflexivity.
Qed.

Lemma voyages_start_offsets_aux (v0 : visit) (rest : list visit) :
  start_offsets 0 (group_voyages (v0 :: rest))
  = 0 :: List.filter (boundary (v0 :: rest)) (seq 1 (length rest))
  /\ all_stops (group_voyages (v0 :: rest)) = v0 :: rest.
Proof.
  split; [|apply group_voyages_stops].
  unfold Voyages.group_voyages. cbn [Voyages.voyage_loop].
  assert (is_new_voyage (v0 :: rest) 0 v0 = false) as ->.
  { unfold is_new_voyage. simpl. now rewrite andb_false_r. }
  exact (loop_offsets rest [v0] (push v0 seg_init)
           ltac:(discriminate) ltac:(discriminate) eq_refl).
Qed.

(** C7: for a non-empty input [v0 :: rest], the voyages start at offset 0
    and at the boundary indices, and nowhere else: the buffer is closed
    exactly at the indices [i > 0] whose visit is at the home port while
    visit [i - 1] is not, and the boundary visit opens the next buffer.  With
    the stops adding up to the input, the last buffer is always emitted,
    whatever its length and its last port, and an input without boundary is
    one voyage. *)
Theorem voyages_start_at_boundaries (v0 : visit) (rest : list visit) :
  start_offsets 0 (group_voyages (v0 :: rest))
  = 0 :: List.filter (boundary (v0 :: rest)) (seq 1 (length rest))
  /\ all_stops (group_voyages (v0 :: rest)) = v0 :: rest.
Proof. apply voyages_start_offsets_aux. Qed.

(** An input without boundary is a single voyage holding every visit. *)
Lemma no_boundary_one_voyage (v0 : visit) (rest : list visit) :
  List.filter (boundary (v0 :: rest)) (seq 1 (length rest)) = [] ->
  map stops (group_voyages (v0 :: rest)) = [v0 :: rest].
Proof.
  intros Hnone.
  destruct (voyages_start_offsets_aux v0 rest) as [Hoff Hall].
  rewrite Hnone in Hoff.
  destruct (group_voyages (v0 :: rest)) as [|v [|v' vs]]; try discriminate Hoff.
  unfold all_stops in Hall. simpl in *. rewrite app_nil_r in Hall.
  now rewrite Hall.
Qed.

End Facts.

Example round_trips :
  map (fun v => (id_ v, start v, end_ v, map visit_port (stops v)))
      (Voyages.group_voyages Samples.some_month
         (Samples.calls 0 ["Hobart"; "Casey"; "Hobart"; "Hobart"; "Davis"; "Hobart"]))
  = [("V1 2024-01", 0%Z, 166400%Z, ["Hobart"; "Casey"]);
     ("V2 2024-01", 172800%Z, 425600%Z, ["Hobart"; "Hobart"; "Davis"]);
     ("V3 2024-01", 432000%Z, 512000%Z, ["Hobart"])].
Proof. reflexivity. Qed.

(** A single visit away from home is a voyage of its own. *)
Example in_progress :
  map (fun v => (id_ v, map visit_port (stops v)))
      (Voyages.group_voyages Samples.some_month (Samples.calls 0 ["Casey"]))
  = [("V1 2024-01", ["Casey"])].
Proof. reflexivity. Qed.

(** *** Number of voyages and their junctions *)

Section More.
Variable strftime_ym : Z -> string.
Local Abbreviation emit := (Voyages.emit strftime_ym).
Local Abbreviation voyage_loop := (Voyages.voyage_loop strftime_ym).
Local Abbreviation group_voyages := (Voyages.group_voyages strftime_ym).

Lemma start_offsets_length (from : nat) (vs : list voyage) :
  length (start_offsets from vs) = length vs.
Proof.
  revert from. induction vs as [|v vs IH]; intros from; simpl; [reflexivity|].
  now rewrite IH.
Qed.

(** X9: a non-empty list of visits gives one voyage more than it has
    boundaries: arrivals at the home port from elsewhere. *)
Theorem voyage_count (v0 : visit) (rest : list visit) :
  length (group_voyages (v0 :: rest))
  = S (length (List.filter (boundary (v0 :: rest)) (seq 1 (length rest)))).
Proof.
  destruct (voyages_start_offsets_aux strftime_ym v0 rest) as [Hoff _].
  rewrite <- (start_offsets_length 0), Hoff. reflexivity.
Qed.

Lemma linked_snoc (groups : list (list visit)) (a b : list visit) :
  linked (groups ++ [a]) -> ends_away a -> starts_home b ->
  linked (groups ++ [a; b]).
Proof.
  induction groups as [|g groups IH]; intros Hl Ha Hb; [simpl; auto|].
  destruct groups as [|g' groups].
  - simpl in *. tauto.
  - change ((g :: g' :: groups) ++ [a; b])
      with (g :: (g' :: (groups ++ [a; b]))).
    change ((g :: g' :: groups) ++ [a]) with (g :: (g' :: (groups ++ [a]))) in Hl.
    destruct Hl as (H1 & H2 & H3). split; [exact H1|]. split; [exact H2|].
    now apply IH.
Qed.

Lemma linked_grow (groups : list (list visit)) (cs : list visit) (v : visit) :
  cs <> [] -> linked (groups ++ [cs]) -> linked (groups ++ [cs ++ [v]]).
Proof.
  intros Hne. induction groups as [|g groups IH]; intros Hl; [exact I|].
  destruct groups as [|g' groups].
  - simpl in *. destruct Hl as (H1 & (s & Hs & Hp) & _).
    split; [exact H1|]. split; [|exact I].
    exists s. split; [|exact Hp]. destruct cs; [contradiction | exact Hs].
  - change ((g :: g' :: groups) ++ [cs ++ [v]])
      with (g :: (g' :: (groups ++ [cs ++ [v]]))).
    change ((g :: g' :: groups) ++ [cs]) with (g :: (g' :: (groups ++ [cs]))) in Hl.
    destruct Hl as (H1 & H2 & H3). split; [exact H1|]. split; [exact H2|].
    now apply IH.
Qed.

(** The test of the loop, in terms of the last visit read. *)
Lemma is_new_voyage_last (pre todo : list visit) (v prev : visit) :
  last pre = Some prev ->
  is_new_voyage (pre ++ v :: todo) (length pre) v
  = String.eqb (visit_port v) home_port
    && negb (String.eqb (visit_port prev) home_port).
Proof.
  intros Hlast. unfold is_new_voyage.
  assert (pre <> []) as Hne by (intros ->; discriminate).
  assert (nth_error (pre ++ v :: todo) (length pre - 1) = Some prev) as ->.
  { rewrite nth_error_app1 by (destruct pre; [contradiction | simpl; lia]).
    destruct (exists_last Hne) as (l & x & ->).
    rewrite last_snoc in Hlast. injection Hlast as ->.
    rewrite length_app. simpl.
    replace (length l + 1 - 1) with (length l) by lia.
    rewrite nth_error_app2, Nat.sub_diag by lia. reflexivity. }
  destruct pre; [contradiction|]. simpl. now rewrite andb_true_r.
Qed.

Lemma loop_linked (todo : list visit) :
  forall (pre : list visit) (st : seg_state),
    current_stops st <> [] ->
    all_stops (voyages st) ++ current_stops st = pre ->
    linked (map stops (voyages st) ++ [current_stops st]) ->
    linked (map stops
              (voyages (emit (voyage_loop (pre ++ todo) (length pre) todo st)))).
Proof.
  induction todo as [|v todo IH]; intros pre st Hcur Hst Hl.
  - simpl. unfold Voyages.emit.
    destruct (current_stops st) as [|first cs] eqn:E; [contradiction|].
    simpl. now rewrite map_app.
  - cbn [Voyages.voyage_loop].
    destruct (last (current_stops st)) as [prev|] eqn:Hprev.
    2:{ apply last_None in Hprev. contradiction. }
    assert (last pre = Some prev) as Hlast.
    { rewrite <- Hst. destruct (exists_last Hcur) as (l & x & E).
      rewrite E in Hprev |- *. rewrite last_snoc in Hprev.
      now rewrite List.app_assoc, last_snoc. }
    rewrite (is_new_voyage_last pre todo v prev Hlast).
    assert (pre ++ v :: todo = (pre ++ [v]) ++ todo) as Hsplit
      by now rewrite <- List.app_assoc.
    assert (S (length pre) = length (pre ++ [v])) as Hlen
      by (rewrite length_app; simpl; lia).
    rewrite Hsplit, Hlen.
    destruct (String.eqb_spec (visit_port v) home_port) as [Hhome|Haway];
      [destruct (String.eqb_spec (visit_port prev) home_port) as [Hph|Hpa]|];
      cbn [andb negb].
    + apply IH; [apply snoc_not_nil | |].
      * unfold push. cbn [voyages current_stops].
        now rewrite List.app_assoc, Hst.
      * unfold push. cbn [voyages current_stops]. now apply linked_grow.
    + assert (voyages (push v (restart (emit st)))
              = voyages (emit st)) as Hv.
      { unfold push, restart. cbn [voyages].
        now destruct (current_stops (emit st)). }
      assert (current_stops (push v (restart (emit st))) = [v]) as Hc.
      { unfold push, restart, Voyages.emit.
        destruct (current_stops st) as [|first cs]; [contradiction|].
        reflexivity. }
      apply IH; [rewrite Hc; discriminate | |].
      * rewrite Hv, Hc, emit_stops, Hst. reflexivity.
      * rewrite Hv, Hc. unfold Voyages.emit.
        destruct (current_stops st) as [|first cs] eqn:E; [contradiction|].
        cbn [voyages]. rewrite map_app. cbn [map stops Voyages.make_voyage].
        rewrite <- List.app_assoc. apply linked_snoc; [exact Hl | |].
        -- exists prev. split; [exact Hprev | exact Hpa].
        -- exists v. split; [reflexivity | exact Hhome].
    + apply IH; [apply snoc_not_nil | |].
      * unfold push. cbn [voyages current_stops].
        now rewrite List.app_assoc, Hst.
      * unfold push. cbn [voyages current_stops]. now apply linked_grow.
Qed.

(** X10: between two consecutive voyages the ship comes home: each voyage
    but the last ends with a stop away from the home port, and the voyage
    after it starts with a stop at the home port. *)
Theorem voyages_linked (visits : list visit) :
  linked (map stops (group_voyages visits)).
Proof.
  unfold Voyages.group_voyages. destruct visits as [|v0 rest]; [exact I|].
  cbn [Voyages.voyage_loop].
  assert (is_new_voyage (v0 :: rest) 0 v0 = false) as ->.
  { unfold is_new_voyage. simpl. now rewrite andb_false_r. }
  exact (loop_linked rest [v0] (push v0 seg_init)
           ltac:(discriminate) eq_refl I).
Qed.

End More.

End VoyagesFacts.

(** ** The output structure *)

Module OutputFacts.
Import Visits Voyages.

Lemma traverse_none {A B : Type} (f : A -> option B) (l : list A) :
  Output.traverse f l = None <-> List.Exists (fun x => f x = None) l.
Proof.
  induction l as [|x l IH]; simpl.
  - split; [discriminate | intros H; inversion H].
  - destruct (f x) as [y|] eqn:E.
    + destruct (Output.traverse f l) as [ys|].
      * split; [discriminate|]. intros H. inversion H; subst; [congruence|].
        apply IH in H1. discriminate.
      * split; [|reflexivity]. intros _. apply List.Exists_cons_tl. now apply IH.
    + split; [|reflexivity]. intros _. now apply List.Exists_cons_hd.
Qed.

Lemma traverse_some {A B : Type} (f : A -> option B) (g : A -> B) (l : list A) :
  List.Forall (fun x => f x = Some (g x)) l -> Output.traverse f l = Some (map g l).
Proof.
  induction 1 as [|x l Hx _ IH]; simpl; [reflexivity|]. now rewrite Hx, IH.
Qed.

Section Facts.

Variable isoformat : Z -> string.
Variable now : string.

Local Abbreviation format_datetime := (Output.format_datetime isoformat).
Local Abbreviation stop_output := (Output.stop_output isoformat).
Local Abbreviation voyage_output := (Output.voyage_output isoformat).
Local Abbreviation build_output := (Output.build_output isoformat now).

Lemma stop_output_none (s : visit) :
  stop_output s = None <-> dwell_hours s = None.
Proof.
  unfold Output.stop_output. destruct (dwell_hours s); split; congruence.
Qed.

Lemma voyage_output_none (v : voyage) :
  voyage_output v = None <-> List.Exists (fun s => dwell_hours s = None) (stops v).
Proof.
  unfold Output.voyage_output.
  destruct (Output.traverse stop_output (stops v)) as [l|] eqn:E.
  - split; [discriminate|]. intros H.
    assert (Output.traverse stop_output (stops v) = None) as E'.
    { apply traverse_none. eapply List.Exists_impl; [|exact H].
      intros s Hs. now apply stop_output_none. }
    congruence.
  - split; [|reflexivity]. intros _. apply traverse_none in E.
    eapply List.Exists_impl; [|exact E]. intros s Hs. now apply stop_output_none.
Qed.

(** X11: [build_output] fails, with the [KeyError] of [s["dwell_hours"]],
    exactly when a stop of one of the voyages has no dwell hours. *)
Theorem build_output_key_error (vs : list voyage) :
  build_output vs = None
  <-> List.Exists (fun s => dwell_hours s = None) (all_stops vs).
Proof.
  unfold Output.build_output.
  assert (Output.traverse voyage_output vs = None
          <-> List.Exists (fun s => dwell_hours s = None) (all_stops vs)) as T.
  { rewrite traverse_none. unfold all_stops.
    induction vs as [|v vs IH]; simpl.
    - split; intros H; inversion H.
    - rewrite List.Exists_app, List.Exists_cons, voyage_output_none. tauto. }
  destruct (Output.traverse voyage_output vs) as [l|].
  - split; [discriminate|]. intros H. apply T in H. discriminate.
  - split; [|reflexivity]. intros _. now apply T.
Qed.

Lemma traverse_forall2 {A B : Type} (f : A -> option B) (l : list A) (ys : list B) :
  Output.traverse f l = Some ys -> List.Forall2 (fun x y => f x = Some y) l ys.
Proof.
  revert ys. induction l as [|x l IH]; intros ys; simpl.
  - intros [= <-]. constructor.
  - destruct (f x) as [y|] eqn:E; [|discriminate].
    destruct (Output.traverse f l) as [ys'|]; [|discriminate].
    intros [= <-]. constructor; [exact E | now apply IH].
Qed.

Lemma stops_rendered (l : list visit) (ys : list Output.stop_out) :
  List.Forall2 (fun x y => stop_output x = Some y) l ys ->
  map Output.port ys = map visit_port l.
Proof.
  induction 1 as [|x y l ys H _ IH]; simpl; [reflexivity|]. f_equal; [|exact IH].
  unfold Output.stop_output in H. destruct (dwell_hours x); [|discriminate].
  now injection H as <-.
Qed.

Lemma voyages_rendered (vs : list voyage) (outs : list Output.voyage_out) :
  List.Forall2 (fun v o => voyage_output v = Some o) vs outs ->
  map Output.id_ outs = map id_ vs
  /\ concat (map (fun o => map Output.port (Output.stops o)) outs)
     = map visit_port (all_stops vs).
Proof.
  induction 1 as [|v o vs outs H _ [IH1 IH2]]; simpl; [split; reflexivity|].
  unfold Output.voyage_output in H.
  destruct (Output.traverse stop_output (stops v)) as [l|] eqn:E; [|discriminate].
  injection H as <-. simpl. split; [now f_equal|].
  unfold all_stops in *. simpl. rewrite map_app, IH2. f_equal.
  apply stops_rendered. now apply traverse_forall2.
Qed.

Lemma retained_have_dwell (round1 : Q -> Q) (records : list rec) :
  List.Forall (fun s => dwell_hours s <> None) (group_port_visits round1 records).
Proof.
  rewrite VisitsFacts.group_port_visits_filter. apply List.Forall_forall.
  intros s Hs. apply in_map_iff in Hs as (v & <- & _). discriminate.
Qed.

(** X12: once [load_data] has returned, the rest of [main] builds its output
    on any records: the dwell filter has set the dwell hours of every stop,
    so [build_output] meets no [KeyError].  The voyages written carry the
    identifiers of [group_voyages] in order, and the ports of their stops,
    read in order, are those of the visits that passed the dwell filter. *)
Theorem main_writes_retained_visits (strftime_ym : Z -> string) (round1 : Q -> Q)
  (records : list rec) :
  let visits := group_port_visits round1 records in
  exists out,
    Output.main isoformat now strftime_ym round1 records = Some out
    /\ map Output.id_ (Output.voyages out) = map id_ (group_voyages strftime_ym visits)
    /\ concat (map (fun o => map Output.port (Output.stops o)) (Output.voyages out))
       = map visit_port visits.
Proof.
  intros visits. unfold Output.main. fold visits. unfold Output.build_output.
  destruct (Output.traverse voyage_output (group_voyages strftime_ym visits))
    as [outs|] eqn:E.
  - eexists. split; [reflexivity|]. simpl.
    apply traverse_forall2, voyages_rendered in E as [E1 E2].
    split; [exact E1|]. now rewrite E2, VoyagesFacts.group_voyages_stops.
  - exfalso. apply traverse_none in E. apply List.Exists_exists in E as (v & Hv & E).
    apply voyage_output_none in E. apply List.Exists_exists in E as (s & Hs & E).
    assert (In s (all_stops (group_voyages strftime_ym visits))) as Hin.
    { unfold all_stops. apply in_concat. exists (stops v). split; [|exact Hs].
      now apply in_map. }
    rewrite VoyagesFacts.group_voyages_stops in Hin.
    pose proof (retained_have_dwell round1 records) as F.
    rewrite List.Forall_forall in F. now apply (F s).
Qed.

Lemma prefix_no_plus (c : ascii) (s : string) :
  Ascii.eqb c "+" = false -> String.prefix "+00:00" (String c s) = false.
Proof.
  intros H.
  change (String.prefix "+00:00" (String c s))
    with (if ascii_dec "+" c then String.prefix "00:00" s else false).
  destruct (ascii_dec "+" c) as [<-|]; [discriminate | reflexivity].
Qed.

Lemma replace_no_plus (s : string) :
  Output.has_char "+" s = false -> Output.replace_from "+00:00" "Z" 0 s = s.
Proof.
  induction s as [|c s IH]; [reflexivity|].
  cbn [Output.has_char]. intros H. apply orb_false_iff in H as [Hc Hs].
  cbn [Output.replace_from]. rewrite (prefix_no_plus c s Hc). now rewrite IH.
Qed.

Lemma replace_utc (s : string) :
  Output.has_char "+" s = false ->
  Output.replace_from "+00:00" "Z" 0 (s ++ "+00:00") = (s ++ "Z")%string.
Proof.
  induction s as [|c s IH]; [reflexivity|].
  cbn [Output.has_char]. intros H. apply orb_false_iff in H as [Hc Hs].
  change (String c s ++ "+00:00")%string with (String c (s ++ "+00:00")).
  cbn [Output.replace_from]. rewrite (prefix_no_plus c _ Hc). now rewrite IH.
Qed.

(** X13: [format_datetime] writes a UTC timestamp with the suffix [Z]: when
    [isoformat] ends in [+00:00] and has no other [+], that suffix, and
    nothing else, is replaced. *)
Theorem format_datetime_utc (dt : Z) (s : string) :
  isoformat dt = (s ++ "+00:00")%string ->
  Output.has_char "+" s = false ->
  format_datetime dt = (s ++ "Z")%string.
Proof.
  intros E H. unfold Output.format_datetime, Output.replace. rewrite E.
  now apply replace_utc.
Qed.

(** A timestamp without an offset is written as [isoformat] gives it. *)
Lemma format_datetime_naive (dt : Z) :
  Output.has_char "+" (isoformat dt) = false ->
  format_datetime dt = isoformat dt.
Proof. apply replace_no_plus. Qed.

End Facts.

Lemma format_datetime_utc_witness :
  Output.format_datetime Samples.some_instant 0
  = "2024-01-02T03:04:05Z".
Proof.
  apply (format_datetime_utc Samples.some_instant 0
           "2024-01-02T03:04:05"); reflexivity.
Defined.

End OutputFacts.

(** ** The WFS request *)

Module UrlFacts.
Import Url.
Local Open Scope string_scope.

Lemma append_cons (x : ascii) (a b : string) :
  String x a ++ b = String x (a ++ b).
Proof. reflexivity. Qed.

Lemma append_assoc (a b c : string) : (a ++ b) ++ c = a ++ (b ++ c).
Proof.
  induction a as [|x a IH]; [reflexivity|].
  rewrite !append_cons. now rewrite IH.
Qed.

Lemma quote_plus_app (a b : string) :
  quote_plus (a ++ b) = quote_plus a ++ quote_plus b.
Proof.
  induction a as [|c a IH]; [reflexivity|].
  rewrite append_cons. cbn [quote_plus].
  now rewrite IH, append_assoc.
Qed.

Lemma list_ascii_app (a b : string) :
  list_ascii_of_string (a ++ b) = (list_ascii_of_string a ++ list_ascii_of_string b)%list.
Proof.
  induction a as [|c a IH]; [reflexivity|].
  rewrite append_cons. cbn [list_ascii_of_string]. now rewrite IH.
Qed.

Lemma quote_byte_chars (c : ascii) :
  forallb url_char (list_ascii_of_string (quote_byte c)) = true.
Proof.
  destruct c as [[] [] [] [] [] [] [] []]; vm_compute; reflexivity.
Qed.

Lemma quote_plus_chars (s : string) :
  forallb url_char (list_ascii_of_string (quote_plus s)) = true.
Proof.
  induction s as [|c s IH]; [reflexivity|]. cbn [quote_plus].
  rewrite list_ascii_app, forallb_app, quote_byte_chars, IH. reflexivity.
Qed.

Lemma build_wfs_url_some (f : string) :
  build_wfs_url (Some f)
  = if String.eqb f "" then build_wfs_url None
    else build_wfs_url None ++ "&cql_filter=" ++ quote_plus f.
Proof.
  destruct f as [|c f]; [reflexivity|].
  change (String.eqb (String c f) "") with false. cbv iota.
  unfold build_wfs_url, given, urlencode. simpl dict_set. cbn [map fst snd join].
  set (q := quote_plus (String c f)).
  vm_compute quote_plus.
  repeat (rewrite ?append_assoc; simpl). reflexivity.
Qed.

(** X14: [build_wfs_url] with a filter is the URL without a filter followed
    by one more parameter, [cql_filter], whose value is the escaped filter;
    an empty filter is not sent.  Whatever the filter holds, the escaped
    value is made of unreserved characters, [%] and [+] only: it has no [&],
    [=] or [#], so a filter cannot end its parameter or add another one. *)
Theorem build_wfs_url_filter (f : string) :
  build_wfs_url (Some f)
  = (if String.eqb f "" then build_wfs_url None
     else build_wfs_url None ++ "&cql_filter=" ++ quote_plus f)
  /\ forallb url_char (list_ascii_of_string (quote_plus f)) = true.
Proof. split; [apply build_wfs_url_some | apply quote_plus_chars]. Qed.

(** X15: the URL that [fetch_from_wfs] reads for a timestamp is the URL of
    the full fetch followed by the escaped filter [datetime > '...'] on that
    timestamp; with an empty timestamp it is the URL of the full fetch. *)
Theorem fetch_url_since (since : string) :
  fetch_url (Some since)
  = if String.eqb since "" then fetch_url None
    else fetch_url None ++ "&cql_filter=datetime+%3E+%27"
         ++ quote_plus since ++ "%27".
Proof.
  destruct since as [|c t]; [reflexivity|].
  change (String.eqb (String c t) "") with false. cbv iota.
  unfold fetch_url. cbn [given].
  rewrite build_wfs_url_some.
  change (String.eqb ("datetime > '" ++ String c t ++ "'") "") with false.
  cbv iota. rewrite !quote_plus_app.
  change (quote_plus "datetime > '") with "datetime+%3E+%27".
  change (quote_plus "'") with "%27".
  reflexivity.
Qed.

Example incremental_url :
  fetch_url (Some "2024-01-02T03:04:05")
  = "https://data.aad.gov.au/geoserver/underway/ows?service=WFS&version=2.0.0&request=GetFeature&typeName=underway%3Anuyina_underway&outputFormat=csv&cql_filter=datetime+%3E+%272024-01-02T03%3A04%3A05%27".
Proof. reflexivity. Qed.

End UrlFacts.

(** ** The dataset updater *)

Module SyncFacts.
Import Sync.

Lemma out_bak : OUTPUT_FILE <> backup_file. Proof. discriminate. Qed.
Lemma out_tmp : OUTPUT_FILE <> temp_file. Proof. discriminate. Qed.
Lemma bak_tmp : backup_file <> temp_file. Proof. discriminate. Qed.

Ltac paths := pose proof out_bak; pose proof out_tmp; pose proof bak_tmp.
Ltac look :=
  repeat first
    [ rewrite lookup_insert_eq
    | rewrite lookup_delete_eq
    | rewrite lookup_insert_ne by congruence
    | rewrite lookup_delete_ne by congruence ].

Ltac norm := cbn [fs log set_fs fst snd].
Ltac yes := norm; rewrite bool_decide_eq_true_2 by eauto; norm.
Ltac no := norm; rewrite bool_decide_eq_false_2 by (intros [? ?]; congruence); norm.

Lemma cleanup_run (s : state) :
  exists s', cleanup s = (Ok tt, s')
    /\ fs s' = delete backup_file (delete temp_file (fs s))
    /\ exists extra, log s' = log s ++ extra
         /\ Forall (fun f => f !! OUTPUT_FILE = fs s !! OUTPUT_FILE) extra.
Proof.
  paths. unfold cleanup. cbn [fold_right].
  unfold bind, try_except, exists_, os_remove, ret.
  destruct (fs s !! temp_file) as [t|] eqn:Et.
  - yes. rewrite Et. norm.
    destruct (delete temp_file (fs s) !! backup_file) as [b|] eqn:Eb.
    + yes. rewrite ?Eb. norm.
      eexists. split; [reflexivity|]. split; [reflexivity|].
      norm. rewrite <- List.app_assoc. eexists. split; [reflexivity|].
      repeat constructor; look; reflexivity.
    + no. rewrite ?Eb. norm.
      eexists. split; [reflexivity|]. split.
      * norm. symmetry. apply delete_id. exact Eb.
      * norm. eexists. split; [reflexivity|].
        repeat constructor; look; reflexivity.
  - no. rewrite (delete_id _ _ Et).
    destruct (fs s !! backup_file) as [b|] eqn:Eb.
    + yes. rewrite ?Eb. norm.
      eexists. split; [reflexivity|]. split; [reflexivity|].
      norm. eexists. split; [reflexivity|].
      repeat constructor; look; reflexivity.
    + no. rewrite ?Eb. norm.
      eexists. split; [reflexivity|]. split.
      * symmetry. apply delete_id. exact Eb.
      * exists []. split; [now rewrite app_nil_r | constructor].
Qed.

Lemma download_run (w : world) (S : list row) (s : state) :
  release w = Some S -> 0 < length S ->
  download_existing w s = (Ok true, set_fs (<[OUTPUT_FILE := S]> (fs s)) s).
Proof.
  intros HS Hlen. unfold download_existing, try_except. rewrite HS.
  destruct S as [|r S]; [simpl in Hlen; lia|]. reflexivity.
Qed.

Lemma get_max_run (S : list row) (s : state) :
  fs s !! OUTPUT_FILE = Some S ->
  get_max_datetime s = (Ok (max_datetime S), s).
Proof.
  intros HS. unfold get_max_datetime, bind, exists_, try_except, read_table, ret.
  rewrite HS. rewrite bool_decide_eq_true_2 by eauto. cbn [negb]. now rewrite HS.
Qed.

Lemma restore_run (B : list row) (s : state) :
  fs s !! backup_file = Some B ->
  restore_backup s
  = (Ok false, set_fs (<[OUTPUT_FILE := B]> (delete backup_file (fs s))) s).
Proof.
  intros HB. unfold restore_backup, bind, exists_, os_replace, ret.
  rewrite HB. rewrite bool_decide_eq_true_2 by eauto. cbn iota. now rewrite HB.
Qed.

Lemma merge_run (w : world) (S B new_rows : list row) (s : state) :
  fs s !! OUTPUT_FILE = Some S -> fs s !! backup_file = Some B ->
  merge_block w (Some new_rows) s = merge_outcome w (S ++ new_rows) s.
Proof.
  paths. intros HS HB.
  unfold merge_block, merge_outcome, bind, read_table, frame, ret, copy_to_temp,
    may_raise, write_table, os_replace, os_remove, raise.
  rewrite HS.
  destruct (raises w CopyToTemp); [reflexivity|]. norm.
  destruct (raises w CountTemp); [reflexivity|]. norm.
  look.
  destruct (0 <? length (staged w (S ++ new_rows)))%nat; [|reflexivity].
  destruct (raises w Replace); [reflexivity|]. norm. look.
  destruct (raises w RemoveBackup); [reflexivity|]. norm. look.
  rewrite HB. reflexivity.
Qed.

Lemma sync_incremental (w : world) (files : gmap string (list row))
  (S : list row) (dt : Z) :
  release w = Some S -> 0 < length S -> max_datetime S = Some dt ->
  sync w files
  = (fst (incremental w dt (downloaded S files)),
     snd (cleanup (snd (incremental w dt (downloaded S files))))).
Proof.
  intros HS Hlen Hdt. unfold sync, update_parquet, try_finally, bind.
  rewrite (download_run w S _ HS Hlen).
  change (set_fs (<[OUTPUT_FILE:=S]> (fs (start_state files))) (start_state files))
    with (downloaded S files).
  rewrite (get_max_run S) by (unfold downloaded; norm; now look).
  rewrite Hdt.
  destruct (incremental w dt (downloaded S files)) as [[b|] s']; reflexivity.
Qed.

Lemma incremental_none (w : world) (dt : Z) (s : state) :
  fst (fetch_from_wfs w (Some dt)) = 0 ->
  incremental w dt s = (Ok true, s).
Proof.
  unfold incremental. destruct (fetch_from_wfs w (Some dt)) as [count df].
  simpl. now intros ->.
Qed.

Lemma incremental_merge (w : world) (dt : Z) (S new_rows : list row) (s : state) :
  wfs w (Some dt) = Some new_rows -> 0 < length new_rows ->
  fs s !! OUTPUT_FILE = Some S ->
  incremental w dt s
  = match merge_outcome w (S ++ new_rows)
            (set_fs (<[backup_file := S]> (fs s)) s) with
    | (Ok b, s') => (Ok b, s')
    | (Raised, s') => restore_backup s'
    end.
Proof.
  paths. intros Hnew Hlen HS. unfold incremental, fetch_from_wfs. rewrite Hnew.
  destruct (Nat.eqb_spec (length new_rows) 0) as [E|_]; [lia|].
  unfold copy2, bind, read_table, write_table, try_except. rewrite HS.
  rewrite (merge_run w S S new_rows) by (norm; now look).
  reflexivity.
Qed.

Lemma merge_outcome_failure (w : world) (S merged : list row) (s : state) :
  merge_fails w merged ->
  fs s !! OUTPUT_FILE = Some S -> fs s !! backup_file = Some S ->
  exists s', merge_outcome w merged s = (Raised, s')
    /\ fs s' !! backup_file = Some S
    /\ (forall k, k <> OUTPUT_FILE -> k <> temp_file -> fs s' !! k = fs s !! k)
    /\ exists extra, log s' = log s ++ extra
         /\ Forall (snapshot_or S (staged w merged)) extra.
Proof.
  paths. intros Hfail HS HB. unfold merge_outcome.
  destruct (raises w CopyToTemp) eqn:E1.
  { destruct (leftover w) as [junk|]; eexists; (split; [reflexivity|]); norm.
    - split; [now look|]. split; [intros; now look|].
      eexists. split; [reflexivity|]. constructor; [left; now look | constructor].
    - split; [exact HB|]. split; [reflexivity|].
      exists []. split; [now rewrite app_nil_r | constructor]. }
  assert (forall s3, s3 = set_fs (<[temp_file := staged w merged]> (fs s)) s ->
            exists s', (Raised : res bool, s3) = (Raised, s')
    /\ fs s' !! backup_file = Some S
    /\ (forall k, k <> OUTPUT_FILE -> k <> temp_file -> fs s' !! k = fs s !! k)
    /\ exists extra, log s' = log s ++ extra
         /\ Forall (snapshot_or S (staged w merged)) extra) as Hs3.
  { intros s3 ->. eexists. split; [reflexivity|]. norm.
    split; [now look|]. split; [intros; now look|].
    eexists. split; [reflexivity|]. constructor; [left; now look | constructor]. }
  cbv zeta.
  destruct (raises w CountTemp) eqn:E2; [now apply Hs3|].
  destruct (0 <? length (staged w merged))%nat eqn:Elen; [|now apply Hs3].
  destruct (raises w Replace) eqn:E3; [now apply Hs3|].
  destruct (raises w RemoveBackup) eqn:E4.
  - apply Nat.ltb_lt in Elen.
    eexists. split; [reflexivity|]. norm.
    split; [now look|]. split; [intros; now look|].
    rewrite <- List.app_assoc. eexists. split; [reflexivity|].
    constructor; [left; now look|].
    constructor; [right; split; [now look | exact Elen] | constructor].
  - exfalso. destruct Hfail as [Hempty | [o Ho]].
    + rewrite Hempty in Elen. discriminate Elen.
    + destruct o; congruence.
Qed.

(** C3, as amended: when the merge is entered and fails (the staging file
    has no record, or a call of the merge block raises), the sync restores
    the backup and reports failure.  The dataset is then the release
    snapshot that [download_existing] wrote at the start of this sync, which
    is the state the backup was taken from, not the state before the sync;
    staging and backup files are gone; and every state the file system went
    through holds as dataset the snapshot, or the staging file after it has
    passed the validation: never a staging file that has no record. *)
Theorem failed_merge_restores_snapshot (w : world)
  (files : gmap string (list row)) (S new_rows : list row) (dt : Z) :
  release w = Some S -> 0 < length S -> max_datetime S = Some dt ->
  wfs w (Some dt) = Some new_rows -> 0 < length new_rows ->
  merge_fails w (S ++ new_rows) ->
  exists s, sync w files = (Ok false, s)
    /\ fs s = <[OUTPUT_FILE := S]> (delete backup_file (delete temp_file files))
    /\ Forall (snapshot_or S (staged w (S ++ new_rows))) (log s).
Proof.
  paths. intros HS Hlen Hdt Hnew Hlen' Hfail.
  rewrite (sync_incremental w files S dt HS Hlen Hdt).
  rewrite (incremental_merge w dt S new_rows _ Hnew Hlen')
    by (unfold downloaded; norm; now look).
  destruct (merge_outcome_failure w S (S ++ new_rows)
              (set_fs (<[backup_file := S]> (fs (downloaded S files)))
                 (downloaded S files)) Hfail)
    as (s' & -> & HB & Hother & extra & Hlog & Hextra).
  { unfold downloaded. norm. now look. }
  { norm. now look. }
  rewrite (restore_run S s' HB). cbn [fst snd].
  destruct (cleanup_run (set_fs (<[OUTPUT_FILE := S]> (delete backup_file (fs s'))) s'))
    as (fin & Hrun & Hfs & extra' & Hlog' & Hextra').
  rewrite Hrun. cbn [snd]. exists fin. split; [reflexivity|]. split.
  - rewrite Hfs. norm. apply map_eq. intros k.
    destruct (decide (k = OUTPUT_FILE)) as [->|]; [now look|].
    destruct (decide (k = backup_file)) as [->|]; [now look|].
    destruct (decide (k = temp_file)) as [->|]; [now look|].
    look. rewrite Hother by assumption. unfold downloaded. norm. now look.
  - rewrite Hlog'. norm. rewrite Hlog. unfold downloaded, start_state. norm.
    repeat (apply Forall_app; split).
    + constructor.
    + constructor; [left; now look | constructor].
    + constructor; [left; now look | constructor].
    + exact Hextra.
    + constructor; [left; now look | constructor].
    + eapply Forall_impl; [exact Hextra'|]. intros f Hf. left.
      rewrite Hf. norm. now look.
Qed.

Lemma failed_merge_restores_snapshot_witness :
  release Samples.empty_staging = Some [Samples.r1]
  /\ 0 < length [Samples.r1]
  /\ max_datetime [Samples.r1] = Some 1%Z
  /\ wfs Samples.empty_staging (Some 1%Z) = Some [Samples.r2; Samples.r3]
  /\ 0 < length [Samples.r2; Samples.r3]
  /\ merge_fails Samples.empty_staging ([Samples.r1] ++ [Samples.r2; Samples.r3])
  /\ exists s, sync Samples.empty_staging Samples.ahead = (Ok false, s)
    /\ fs s = <[OUTPUT_FILE := [Samples.r1]]>
                (delete backup_file (delete temp_file Samples.ahead))
    /\ Forall (snapshot_or [Samples.r1]
                 (staged Samples.empty_staging
                    ([Samples.r1] ++ [Samples.r2; Samples.r3])))
              (log s).
Proof.
  assert (0 < length [Samples.r1]) as H1 by (simpl; lia).
  assert (0 < length [Samples.r2; Samples.r3]) as H2 by (simpl; lia).
  assert (merge_fails Samples.empty_staging
            ([Samples.r1] ++ [Samples.r2; Samples.r3])) as H3
    by (left; reflexivity).
  repeat (split; [first [reflexivity | assumption]|]).
  exact (failed_merge_restores_snapshot Samples.empty_staging Samples.ahead
           [Samples.r1] [Samples.r2; Samples.r3] 1%Z
           eq_refl H1 eq_refl eq_refl H2 H3).
Defined.

(** C3, as stated, fails: the local copy was ahead of the release, and the
    failed merge leaves the release snapshot in its place. *)
Lemma rollback_is_to_release :
  ~ rolls_back_to_pre_sync Samples.empty_staging Samples.ahead.
Proof.
  intros H.
  destruct (H [Samples.r1] 1%Z [Samples.r2; Samples.r3] eq_refl
              ltac:(simpl; lia) eq_refl eq_refl
              ltac:(simpl; lia) (or_introl eq_refl)) as (s & Hrun & Hfs).
  assert (fs (snd (sync Samples.empty_staging Samples.ahead)) !! OUTPUT_FILE
          = Some [Samples.r1]) as E by (vm_compute; reflexivity).
  rewrite Hrun in E. cbn [snd] in E. rewrite E in Hfs.
  vm_compute in Hfs. discriminate Hfs.
Qed.

(** C4, as amended: when the release snapshot is readable and non-empty, its
    maximum timestamp is known and the incremental fetch yields no record,
    the sync declares success; the dataset file holds the release snapshot
    that this sync downloaded, nothing is written to it after the download,
    and staging and backup files left by an earlier run are removed. *)
Theorem no_new_records_keeps_snapshot (w : world)
  (files : gmap string (list row)) (S : list row) (dt : Z) :
  release w = Some S -> 0 < length S -> max_datetime S = Some dt ->
  fst (fetch_from_wfs w (Some dt)) = 0 ->
  exists s, sync w files = (Ok true, s)
    /\ fs s = <[OUTPUT_FILE := S]> (delete backup_file (delete temp_file files))
    /\ Forall (fun f => f !! OUTPUT_FILE = Some S) (log s).
Proof.
  paths. intros HS Hlen Hdt Hzero.
  rewrite (sync_incremental w files S dt HS Hlen Hdt).
  rewrite (incremental_none w dt _ Hzero). cbn [fst snd].
  destruct (cleanup_run (downloaded S files))
    as (fin & Hrun & Hfs & extra & Hlog & Hextra).
  rewrite Hrun. cbn [snd]. exists fin. split; [reflexivity|]. split.
  - rewrite Hfs. unfold downloaded. norm. apply map_eq. intros k.
    destruct (decide (k = OUTPUT_FILE)) as [->|]; [now look|].
    destruct (decide (k = backup_file)) as [->|]; [now look|].
    destruct (decide (k = temp_file)) as [->|]; now look.
  - rewrite Hlog. unfold downloaded, start_state in *. norm. cbn [fs log set_fs fst snd] in Hextra.
    apply Forall_app. split.
    + constructor; [now look | constructor].
    + eapply Forall_impl; [exact Hextra|]. intros f Hf.
      rewrite Hf. now look.
Qed.

Lemma no_new_records_keeps_snapshot_witness :
  release Samples.quiet = Some [Samples.r1; Samples.r2]
  /\ 0 < length [Samples.r1; Samples.r2]
  /\ max_datetime [Samples.r1; Samples.r2] = Some 2%Z
  /\ fst (fetch_from_wfs Samples.quiet (Some 2%Z)) = 0
  /\ exists s, sync Samples.quiet Samples.behind = (Ok true, s)
    /\ fs s = <[OUTPUT_FILE := [Samples.r1; Samples.r2]]>
                (delete backup_file (delete temp_file Samples.behind))
    /\ Forall (fun f => f !! OUTPUT_FILE = Some [Samples.r1; Samples.r2]) (log s).
Proof.
  assert (0 < length [Samples.r1; Samples.r2]) as H1 by (simpl; lia).
  repeat (split; [first [reflexivity | assumption]|]).
  exact (no_new_records_keeps_snapshot Samples.quiet Samples.behind
           [Samples.r1; Samples.r2] 2%Z eq_refl H1 eq_refl eq_refl).
Defined.

(** C4, as stated, fails: the local copy was older than the release, the
    fetch returns nothing, and the dataset file has changed. *)
Lemma no_news_still_overwrites :
  ~ untouched_without_news Samples.quiet Samples.behind.
Proof.
  intros H.
  destruct (H [Samples.r1] eq_refl (fun _ => eq_refl)) as (s & Hrun & Hfs).
  assert (fs (snd (sync Samples.quiet Samples.behind)) !! OUTPUT_FILE
          = Some [Samples.r1; Samples.r2]) as E by (vm_compute; reflexivity).
  rewrite Hrun in E. cbn [snd] in E. rewrite E in Hfs.
  discriminate Hfs.
Qed.

(** *** The log only grows *)

Create HintDb extends.

Lemma extends_ret {A : Type} (a : A) : extends (ret a).
Proof. intros s. exists []. simpl. now rewrite app_nil_r. Qed.

Lemma extends_raise {A : Type} : extends (@raise A).
Proof. intros s. exists []. simpl. now rewrite app_nil_r. Qed.

Lemma extends_bind {A B : Type} (m : M A) (k : A -> M B) :
  extends m -> (forall a, extends (k a)) -> extends (bind m k).
Proof.
  intros Hm Hk s. unfold bind. destruct (Hm s) as [e1 H1].
  destruct (m s) as [[a|] s1]; simpl in H1.
  - destruct (Hk a s1) as [e2 H2]. exists (e1 ++ e2).
    now rewrite H2, H1, List.app_assoc.
  - exists e1. exact H1.
Qed.

Lemma extends_try_except {A : Type} (body handler : M A) :
  extends body -> extends handler -> extends (try_except body handler).
Proof.
  intros Hb Hh s. unfold try_except. destruct (Hb s) as [e1 H1].
  destruct (body s) as [[a|] s1]; simpl in H1.
  - exists e1. exact H1.
  - destruct (Hh s1) as [e2 H2]. exists (e1 ++ e2).
    now rewrite H2, H1, List.app_assoc.
Qed.

Lemma extends_try_finally {A : Type} (body : M A) (final : M unit) :
  extends body -> extends final -> extends (try_finally body final).
Proof.
  intros Hb Hf s. unfold try_finally. destruct (Hb s) as [e1 H1].
  destruct (body s) as [r s1]; simpl in *.
  destruct (Hf s1) as [e2 H2]. exists (e1 ++ e2).
  now rewrite H2, H1, List.app_assoc.
Qed.

Lemma extends_if {A : Type} (b : bool) (m1 m2 : M A) :
  extends m1 -> extends m2 -> extends (if b then m1 else m2).
Proof. now destruct b. Qed.

Lemma extends_exists (p : string) : extends (exists_ p).
Proof. intros s. exists []. simpl. now rewrite app_nil_r. Qed.

Lemma extends_read_table (p : string) : extends (read_table p).
Proof.
  intros s. exists []. unfold read_table.
  destruct (fs s !! p); simpl; now rewrite app_nil_r.
Qed.

Lemma extends_write_table (p : string) (d : list row) : extends (write_table p d).
Proof. intros s. eexists. reflexivity. Qed.

Lemma extends_os_remove (p : string) : extends (os_remove p).
Proof.
  intros s. unfold os_remove. destruct (fs s !! p).
  - eexists. reflexivity.
  - exists []. simpl. now rewrite app_nil_r.
Qed.

Lemma extends_os_replace (p q : string) : extends (os_replace p q).
Proof.
  intros s. unfold os_replace. destruct (fs s !! p).
  - eexists. reflexivity.
  - exists []. simpl. now rewrite app_nil_r.
Qed.

Lemma extends_may_raise (w : world) (o : op) : extends (may_raise w o).
Proof.
  intros s. exists []. unfold may_raise.
  destruct (raises w o); simpl; now rewrite app_nil_r.
Qed.

Lemma extends_copy_to_temp (w : world) (d : list row) : extends (copy_to_temp w d).
Proof.
  intros s. unfold copy_to_temp. destruct (raises w CopyToTemp).
  - destruct (leftover w).
    + eexists. reflexivity.
    + exists []. simpl. now rewrite app_nil_r.
  - eexists. reflexivity.
Qed.

Lemma extends_frame (new_df : option (list row)) : extends (frame new_df).
Proof. destruct new_df; [apply extends_ret | apply extends_raise]. Qed.

#[local] Hint Resolve extends_ret extends_raise extends_exists extends_read_table
  extends_write_table extends_os_remove extends_os_replace extends_may_raise
  extends_copy_to_temp extends_frame : extends.
#[local] Hint Extern 2 (extends (bind _ _)) =>
  apply extends_bind; [|intros ?] : extends.
#[local] Hint Extern 2 (extends (try_except _ _)) =>
  apply extends_try_except : extends.
#[local] Hint Extern 2 (extends (try_finally _ _)) =>
  apply extends_try_finally : extends.
#[local] Hint Extern 3 (extends (if ?b then _ else _)) => destruct b : extends.
#[local] Hint Extern 3 (extends (match ?o with Some _ => _ | None => _ end)) =>
  destruct o : extends.
#[local] Hint Extern 3 (extends (let '(_, _) := ?p in _)) => destruct p : extends.

Lemma extends_cleanup : extends cleanup.
Proof. unfold cleanup. simpl. auto 20 with extends. Qed.

Lemma extends_merge_block (w : world) (new_df : option (list row)) :
  extends (merge_block w new_df).
Proof. unfold merge_block. auto 30 with extends. Qed.

Lemma extends_restore_backup : extends restore_backup.
Proof. unfold restore_backup. auto 20 with extends. Qed.

Lemma extends_incremental (w : world) (dt : Z) : extends (incremental w dt).
Proof.
  unfold incremental, copy2.
  pose proof (extends_merge_block w). pose proof extends_restore_backup.
  auto 20 with extends.
Qed.

Lemma extends_full_fetch (w : world) : extends (full_fetch w).
Proof. unfold full_fetch. auto 20 with extends. Qed.

Lemma extends_get_max_datetime : extends get_max_datetime.
Proof. unfold get_max_datetime. auto 20 with extends. Qed.

Lemma merge_outcome_log (w : world) (merged : list row) (s : state) :
  exists extra,
    log (snd (merge_outcome w merged s)) = log s ++ extra
    /\ (raises w CopyToTemp = false ->
        exists extra', extra = <[temp_file := staged w merged]> (fs s) :: extra').
Proof.
  unfold merge_outcome. destruct (raises w CopyToTemp).
  { destruct (leftover w); norm.
    - eexists. split; [reflexivity | discriminate].
    - exists []. split; [now rewrite app_nil_r | discriminate]. }
  cbv zeta.
  destruct (raises w CountTemp);
    [|destruct (0 <? length (staged w merged))%nat;
      [destruct (raises w Replace); [|destruct (raises w RemoveBackup)]|]];
    norm; rewrite <- ?List.app_assoc;
    (eexists; split; [reflexivity|]; intros _; eexists; reflexivity).
Qed.

Lemma sync_log_head (w : world) (files : gmap string (list row)) (S : list row) :
  release w = Some S -> 0 < length S ->
  exists rest, log (snd (sync w files)) = <[OUTPUT_FILE := S]> files :: rest.
Proof.
  intros HS Hlen. unfold sync, update_parquet, try_finally.
  unfold bind at 1. rewrite (download_run w S _ HS Hlen).
  match goal with
  | |- context [(?k (set_fs ?f ?s0))] =>
      assert (extends k) as Hk; [|destruct (Hk (set_fs f s0)) as [e1 He1]]
  end.
  { pose proof extends_get_max_datetime. pose proof (extends_incremental w).
    pose proof (extends_full_fetch w). auto 20 with extends. }
  match goal with
  | |- context [let (r, s') := ?x in _] => destruct x as [r s1]
  end.
  simpl in He1. simpl.
  destruct (extends_cleanup s1) as [e2 He2].
  rewrite He2, He1. exists (e1 ++ e2). reflexivity.
Qed.

(** C10: whenever the release snapshot is readable and non-empty, the first
    change of the file system is the dataset file overwritten with the
    snapshot, whatever the files were before.  If the merge is entered, the
    backup is taken next, from the snapshot, and the staging file is built
    from the snapshot and the new rows, fetched since the maximum timestamp of
    the snapshot. *)
Theorem release_overwrites_first (w : world)
  (files : gmap string (list row)) (S : list row) :
  release w = Some S -> 0 < length S ->
  exists rest,
    log (snd (sync w files)) = <[OUTPUT_FILE := S]> files :: rest
    /\ forall dt new_rows,
         max_datetime S = Some dt ->
         wfs w (Some dt) = Some new_rows -> 0 < length new_rows ->
         exists rest',
           rest = <[backup_file := S]> (<[OUTPUT_FILE := S]> files) :: rest'
           /\ (raises w CopyToTemp = false ->
               exists rest'',
                 rest' = <[temp_file := staged w (S ++ new_rows)]>
                           (<[backup_file := S]> (<[OUTPUT_FILE := S]> files))
                         :: rest'').
Proof.
  intros HS Hlen.
  destruct (sync_log_head w files S HS Hlen) as [rest Hrest].
  exists rest. split; [exact Hrest|].
  intros dt new_rows Hdt Hnew Hlen'.
  paths.
  rewrite (sync_incremental w files S dt HS Hlen Hdt) in Hrest.
  rewrite (incremental_merge w dt S new_rows _ Hnew Hlen') in Hrest
    by (unfold downloaded; norm; now look).
  cbn [snd] in Hrest.
  destruct (merge_outcome_log w (S ++ new_rows)
              (set_fs (<[backup_file := S]> (fs (downloaded S files)))
                 (downloaded S files))) as (e & He & Hcopy).
  destruct (merge_outcome _ _ _) as [r s'].
  assert (exists e2, log (snd (match r with
                               | Ok b => (Ok b, s')
                               | Raised => restore_backup s'
                               end)) = log s' ++ e2) as [e2 He2].
  { destruct r; [exists []; simpl; now rewrite app_nil_r|].
    apply extends_restore_backup. }
  destruct (extends_cleanup (snd (match r with
                               | Ok b => (Ok b, s')
                               | Raised => restore_backup s'
                               end))) as [e1 He1].
  rewrite He1, He2 in Hrest. cbn [snd] in He. rewrite He in Hrest.
  unfold downloaded, start_state in Hrest. cbn [fs log set_fs] in Hrest.
  simpl in Hrest. injection Hrest as <-.
  eexists. split; [reflexivity|].
  intros Hno. destruct (Hcopy Hno) as [e' ->].
  unfold downloaded. norm. eexists. reflexivity.
Qed.

Lemma release_overwrites_first_witness :
  release Samples.sound = Some [Samples.r1]
  /\ 0 < length [Samples.r1]
  /\ exists rest,
       log (snd (sync Samples.sound Samples.ahead))
       = <[OUTPUT_FILE := [Samples.r1]]> Samples.ahead :: rest
       /\ forall dt new_rows,
            max_datetime [Samples.r1] = Some dt ->
            wfs Samples.sound (Some dt) = Some new_rows -> 0 < length new_rows ->
            exists rest',
              rest = <[backup_file := [Samples.r1]]>
                       (<[OUTPUT_FILE := [Samples.r1]]> Samples.ahead) :: rest'
              /\ (raises Samples.sound CopyToTemp = false ->
                  exists rest'',
                    rest' = <[temp_file := staged Samples.sound
                                             ([Samples.r1] ++ new_rows)]>
                              (<[backup_file := [Samples.r1]]>
                                 (<[OUTPUT_FILE := [Samples.r1]]> Samples.ahead))
                            :: rest'').
Proof.
  assert (0 < length [Samples.r1]) as H1 by (simpl; lia).
  split; [reflexivity|]. split; [exact H1|].
  exact (release_overwrites_first Samples.sound Samples.ahead [Samples.r1]
           eq_refl H1).
Defined.

Example sound_sync :
  (let '(r, s) := sync Samples.sound Samples.ahead in
   (r, fs s !! OUTPUT_FILE, fs s !! backup_file, fs s !! temp_file,
    length (log s)))
  = (Ok true, Some [Samples.r1; Samples.r2; Samples.r3], None, None, 5).
Proof. vm_compute. reflexivity. Qed.

(** *** The other paths of the sync *)

Lemma full_fetch_run (w : world) (s : state) :
  full_fetch w s
  = match wfs w None with
    | Some d =>
        if (0 <? length d)%nat
        then (Ok true, set_fs (<[OUTPUT_FILE := d]> (fs s)) s)
        else (Ok false, s)
    | None => (Ok false, s)
    end.
Proof.
  unfold full_fetch, fetch_from_wfs. destruct (wfs w None) as [d|]; [|reflexivity].
  now destruct (0 <? length d)%nat.
Qed.

Lemma download_fails (w : world) (s : state) :
  has_release w = false -> download_existing w s = (Ok false, s).
Proof.
  unfold has_release, download_existing, try_except.
  destruct (release w) as [d|]; [|reflexivity].
  now intros ->.
Qed.

(** Without a release the sync is the full fetch followed by the cleanup. *)
Lemma sync_without_release (w : world) (files : gmap string (list row)) :
  has_release w = false ->
  sync w files
  = (fst (full_fetch w (start_state files)),
     snd (cleanup (snd (full_fetch w (start_state files))))).
Proof.
  intros Hno. unfold sync, update_parquet, try_finally, bind.
  rewrite (download_fails w _ Hno). cbn [ret].
  now destruct (full_fetch w (start_state files)) as [[b|] s'].
Qed.

(** With a release whose rows have no datetime, the sync is the download, the
    full fetch and the cleanup. *)
Lemma sync_without_datetime (w : world) (files : gmap string (list row))
  (S : list row) :
  release w = Some S -> 0 < length S -> max_datetime S = None ->
  sync w files
  = (fst (full_fetch w (downloaded S files)),
     snd (cleanup (snd (full_fetch w (downloaded S files))))).
Proof.
  paths. intros HS Hlen Hdt. unfold sync, update_parquet, try_finally, bind.
  rewrite (download_run w S _ HS Hlen).
  change (set_fs (<[OUTPUT_FILE:=S]> (fs (start_state files))) (start_state files))
    with (downloaded S files).
  rewrite (get_max_run S) by (unfold downloaded; norm; now look).
  rewrite Hdt. cbn [ret].
  now destruct (full_fetch w (downloaded S files)) as [[b|] s'].
Qed.

Lemma has_release_true (w : world) :
  has_release w = true -> exists S, release w = Some S /\ 0 < length S.
Proof.
  unfold has_release. destruct (release w) as [d|]; [|discriminate].
  intros H. exists d. split; [reflexivity|]. now apply Nat.ltb_lt.
Qed.

Lemma cleanup_fs (s : state) : fs (snd (cleanup s)) = tidy (fs s).
Proof.
  destruct (cleanup_run s) as (s' & Hrun & Hfs & _). now rewrite Hrun.
Qed.

Lemma tidy_insert_out (d : list row) (files : gmap string (list row)) :
  tidy (<[OUTPUT_FILE := d]> files) = <[OUTPUT_FILE := d]> (tidy files).
Proof.
  paths. unfold tidy. apply map_eq. intros k.
  destruct (decide (k = OUTPUT_FILE)) as [->|]; [now look|].
  destruct (decide (k = backup_file)) as [->|]; [now look|].
  destruct (decide (k = temp_file)) as [->|]; now look.
Qed.

Lemma tidy_lookup_out (files : gmap string (list row)) :
  tidy files !! OUTPUT_FILE = files !! OUTPUT_FILE.
Proof. paths. unfold tidy. now look. Qed.

Lemma full_fetch_fetched (w : world) (s : state) :
  full_fetch w s
  = match fetched w with
    | Some d => (Ok true, set_fs (<[OUTPUT_FILE := d]> (fs s)) s)
    | None => (Ok false, s)
    end.
Proof.
  rewrite full_fetch_run. unfold fetched.
  destruct (wfs w None) as [d|]; [|reflexivity].
  now destruct (0 <? length d)%nat.
Qed.

Lemma fetched_nonempty (w : world) (d : list row) :
  fetched w = Some d -> 0 < length d.
Proof.
  unfold fetched. destruct (wfs w None) as [d'|]; [|discriminate].
  destruct (Nat.ltb_spec 0 (length d')); [|discriminate]. now intros [= <-].
Qed.

(** X17: when the release cannot be read or is empty, the sync is a full
    fetch: it succeeds exactly when the WFS serves at least one row, the
    dataset file then holds these rows, and otherwise the files are left as
    they were, staging and backup files apart. *)
Theorem full_fetch_without_release (w : world) (files : gmap string (list row)) :
  has_release w = false ->
  exists s,
    sync w files = (Ok (bool_decide (is_Some (fetched w))), s)
    /\ fs s = match fetched w with
              | Some d => <[OUTPUT_FILE := d]> (tidy files)
              | None => tidy files
              end.
Proof.
  intros Hno. rewrite (sync_without_release w files Hno), full_fetch_fetched.
  destruct (fetched w) as [d|]; cbn [fst snd]; eexists;
    (split; [reflexivity|]); rewrite cleanup_fs; norm.
  - apply tidy_insert_out.
  - reflexivity.
Qed.

(** X18: when no row of the release has a timestamp, the sync falls back to
    the full fetch: it succeeds exactly when the WFS serves at least one
    row, which then replace the release snapshot; otherwise it reports
    failure and the dataset file holds the release snapshot. *)
Theorem full_fetch_without_datetime (w : world) (files : gmap string (list row))
  (S : list row) :
  release w = Some S -> 0 < length S -> max_datetime S = None ->
  exists s,
    sync w files = (Ok (bool_decide (is_Some (fetched w))), s)
    /\ fs s = match fetched w with
              | Some d => <[OUTPUT_FILE := d]> (tidy files)
              | None => <[OUTPUT_FILE := S]> (tidy files)
              end.
Proof.
  intros HS Hlen Hdt.
  rewrite (sync_without_datetime w files S HS Hlen Hdt), full_fetch_fetched.
  destruct (fetched w) as [d|]; cbn [fst snd]; eexists;
    (split; [reflexivity|]); rewrite cleanup_fs; unfold downloaded; norm.
  - rewrite !tidy_insert_out. apply insert_insert_eq.
  - apply tidy_insert_out.
Qed.

(** X19: whatever the world does and whatever files the sync starts from,
    neither the staging file nor the backup file exists when it ends. *)
Theorem sync_leaves_no_artifacts (w : world) (files : gmap string (list row)) :
  fs (snd (sync w files)) !! temp_file = None
  /\ fs (snd (sync w files)) !! backup_file = None.
Proof.
  paths. unfold sync, update_parquet, try_finally.
  match goal with |- context [let (r, s') := ?x in _] => destruct x as [r s'] end.
  cbn [snd]. rewrite cleanup_fs. unfold tidy. split; now look.
Qed.

(** The merge either commits the validated staging file or is rolled back. *)
Lemma merge_outcome_cases (w : world) (S merged : list row) (s : state) :
  fs s !! OUTPUT_FILE = Some S -> fs s !! backup_file = Some S ->
  (exists s', merge_outcome w merged s = (Ok true, s')
              /\ fs s' !! OUTPUT_FILE = Some (staged w merged)
              /\ 0 < length (staged w merged))
  \/ (exists s', merge_outcome w merged s = (Raised, s')
                 /\ fs s' !! backup_file = Some S).
Proof.
  paths. intros HS HB.
  destruct (raises w CopyToTemp) eqn:E1; [right|].
  { destruct (merge_outcome_failure w S merged s) as (s' & Hrun & Hb & _);
      [right; now exists CopyToTemp | assumption | assumption |]. eauto. }
  destruct (raises w CountTemp) eqn:E2; [right|].
  { destruct (merge_outcome_failure w S merged s) as (s' & Hrun & Hb & _);
      [right; now exists CountTemp | assumption | assumption |]. eauto. }
  destruct (raises w Replace) eqn:E3; [right|].
  { destruct (merge_outcome_failure w S merged s) as (s' & Hrun & Hb & _);
      [right; now exists Replace | assumption | assumption |]. eauto. }
  destruct (raises w RemoveBackup) eqn:E4; [right|].
  { destruct (merge_outcome_failure w S merged s) as (s' & Hrun & Hb & _);
      [right; now exists RemoveBackup | assumption | assumption |]. eauto. }
  destruct (Nat.ltb_spec 0 (length (staged w merged))) as [Hpos|Hzero].
  - left. unfold merge_outcome. rewrite E1, E2, E3, E4.
    destruct (Nat.ltb_spec 0 (length (staged w merged))); [|lia].
    eexists. split; [reflexivity|]. norm. split; [now look | assumption].
  - right.
    destruct (merge_outcome_failure w S merged s) as (s' & Hrun & Hb & _);
      [left | assumption | assumption | eauto].
    destruct (staged w merged); [reflexivity | simpl in Hzero; lia].
Qed.

(** The incremental path returns a boolean, and [True] only with a dataset
    that has a record. *)
Lemma incremental_outcome (w : world) (dt : Z) (S : list row) (s : state) :
  fs s !! OUTPUT_FILE = Some S -> 0 < length S ->
  exists b s', incremental w dt s = (Ok b, s')
    /\ (b = true -> exists d, fs s' !! OUTPUT_FILE = Some d /\ 0 < length d).
Proof.
  paths. intros HS Hlen.
  destruct (wfs w (Some dt)) as [new_rows|] eqn:Hnew.
  - destruct (Nat.eq_dec (length new_rows) 0) as [Hzero|Hpos].
    + rewrite incremental_none
        by (unfold fetch_from_wfs; rewrite Hnew; exact Hzero).
      exists true, s. split; [reflexivity|]. eauto.
    + rewrite (incremental_merge w dt S new_rows s Hnew) by (lia || assumption).
      destruct (merge_outcome_cases w S (S ++ new_rows)
                  (set_fs (<[backup_file := S]> (fs s)) s))
        as [(s' & -> & Hout & Hlen') | (s' & -> & Hb)];
        try (norm; now look).
      * exists true, s'. split; [reflexivity|]. eauto.
      * rewrite (restore_run S s' Hb). eexists false, _.
        split; [reflexivity | discriminate].
  - rewrite incremental_none by (unfold fetch_from_wfs; now rewrite Hnew).
    exists true, s. split; [reflexivity|]. eauto.
Qed.

Lemma sync_outcome (w : world) (files : gmap string (list row)) :
  exists b s, sync w files = (Ok b, s)
    /\ (b = true -> exists d, fs s !! OUTPUT_FILE = Some d /\ 0 < length d).
Proof.
  paths.
  assert (forall s0,
            exists b s', full_fetch w s0 = (Ok b, s')
              /\ (b = true ->
                  exists d, fs s' !! OUTPUT_FILE = Some d /\ 0 < length d))
    as Hfull.
  { intros s0. rewrite full_fetch_fetched.
    destruct (fetched w) as [d|] eqn:Hd.
    - eexists true, _. split; [reflexivity|]. intros _. exists d. norm.
      split; [now look | now apply (fetched_nonempty w)].
    - eexists false, _. split; [reflexivity | discriminate]. }
  destruct (has_release w) eqn:Hrel.
  - apply has_release_true in Hrel as (S & HS & Hlen).
    destruct (max_datetime S) as [dt|] eqn:Hdt.
    + rewrite (sync_incremental w files S dt HS Hlen Hdt).
      destruct (incremental_outcome w dt S (downloaded S files))
        as (b & s' & -> & Hb); [unfold downloaded; norm; now look | assumption |].
      cbn [fst snd]. exists b, (snd (cleanup s')). split; [reflexivity|].
      intros Htrue. rewrite cleanup_fs, tidy_lookup_out. now apply Hb.
    + rewrite (sync_without_datetime w files S HS Hlen Hdt).
      destruct (Hfull (downloaded S files)) as (b & s' & -> & Hb).
      cbn [fst snd]. exists b, (snd (cleanup s')). split; [reflexivity|].
      intros Htrue. rewrite cleanup_fs, tidy_lookup_out. now apply Hb.
  - rewrite (sync_without_release w files Hrel).
    destruct (Hfull (start_state files)) as (b & s' & -> & Hb).
    cbn [fst snd]. exists b, (snd (cleanup s')). split; [reflexivity|].
    intros Htrue. rewrite cleanup_fs, tidy_lookup_out. now apply Hb.
Qed.

(** X20: a sync that reports success leaves a dataset file with at least
    one record. *)
Theorem success_means_dataset (w : world) (files : gmap string (list row))
  (s : state) :
  sync w files = (Ok true, s) ->
  exists d, fs s !! OUTPUT_FILE = Some d /\ 0 < length d.
Proof.
  intros Hrun. destruct (sync_outcome w files) as (b & s' & Hs & Hb).
  rewrite Hrun in Hs. injection Hs as <- <-. now apply Hb.
Qed.

(** X21: [main] exits with 0 exactly when [update_parquet] returned [True],
    and with 1 exactly when it returned [False]: after a success the dataset
    file exists, so the second test of [main] never turns a success into a
    failure. *)
Theorem main_exit_code (w : world) (files : gmap string (list row)) :
  (main w files = Ok 0%Z <-> fst (sync w files) = Ok true)
  /\ (main w files = Ok 1%Z <-> fst (sync w files) = Ok false).
Proof.
  unfold main. destruct (sync_outcome w files) as (b & s & Hs & Hb).
  rewrite Hs. cbn [fst]. destruct b.
  - destruct (Hb eq_refl) as (d & Hd & _).
    rewrite bool_decide_eq_true_2 by eauto. simpl.
    split; split; first [reflexivity | discriminate].
  - simpl. split; split; first [reflexivity | discriminate].
Qed.

Lemma max_fold (d : list row) :
  forall acc,
    match fold_left max_step d acc with
    | Some m => greatest acc d m
    | None => acc = None /\ Forall (fun r => datetime r = None) d
    end.
Proof.
  induction d as [|r d IH]; intros acc; simpl.
  - destruct acc as [a|]; [|now split].
    split; [now left|]. split; [intros ? [= <-]; lia | intros ? ? []].
  - specialize (IH (max_step acc r)).
    destruct (fold_left max_step d (max_step acc r)) as [m|].
    + destruct IH as (Hin & Hacc & Hrows). unfold max_step in *.
      destruct acc as [a|], (datetime r) as [t|] eqn:Ht.
      * specialize (Hacc _ eq_refl). split; [|split].
        -- destruct Hin as [[= <-] | (r' & Hr' & Hm)].
           ++ destruct (Z.max_spec a t) as [[_ ->] | [_ ->]]; [right | now left].
              exists r. split; [now left | assumption].
           ++ right. exists r'. split; [now right | assumption].
        -- intros ? [= <-]. lia.
        -- intros r' t' [<- | Hr'] Ht'; [|now apply (Hrows r')].
           rewrite Ht in Ht'. injection Ht' as <-. lia.
      * split; [|split].
        -- destruct Hin as [? | (r' & Hr' & Hm)]; [now left|].
           right. exists r'. split; [now right | assumption].
        -- exact Hacc.
        -- intros r' t' [<- | Hr'] Ht'; [congruence | now apply (Hrows r')].
      * specialize (Hacc _ eq_refl). split; [|split].
        -- right. destruct Hin as [[= <-] | (r' & Hr' & Hm)].
           ++ exists r. split; [now left | assumption].
           ++ exists r'. split; [now right | assumption].
        -- discriminate.
        -- intros r' t' [<- | Hr'] Ht'; [|now apply (Hrows r')].
           rewrite Ht in Ht'. injection Ht' as <-. exact Hacc.
      * split; [|split].
        -- right. destruct Hin as [? | (r' & Hr' & Hm)]; [discriminate|].
           exists r'. split; [now right | assumption].
        -- discriminate.
        -- intros r' t' [<- | Hr'] Ht'; [congruence | now apply (Hrows r')].
    + destruct IH as [Hnone Hall]. unfold max_step in Hnone.
      destruct acc as [a|], (datetime r) as [t|] eqn:Ht; try discriminate.
      split; [reflexivity|]. constructor; assumption.
Qed.

(** X16: [get_max_datetime] never raises and leaves the files alone.  A
    timestamp it returns is that of a row of the dataset file, and no row
    has a later one; it returns [None] exactly when the file is missing or
    no row has a timestamp. *)
Theorem get_max_datetime_greatest (s : state) :
  exists r, get_max_datetime s = (Ok r, s)
    /\ match r with
       | Some m =>
           exists d, fs s !! OUTPUT_FILE = Some d
             /\ (exists x, In x d /\ datetime x = Some m)
             /\ (forall x t, In x d -> datetime x = Some t -> (t <= m)%Z)
       | None =>
           fs s !! OUTPUT_FILE = None
           \/ exists d, fs s !! OUTPUT_FILE = Some d
                        /\ Forall (fun x => datetime x = None) d
       end.
Proof.
  destruct (fs s !! OUTPUT_FILE) as [d|] eqn:Hd.
  - rewrite (get_max_run d s Hd). eexists. split; [reflexivity|].
    pose proof (max_fold d None) as H. unfold max_datetime.
    change (fun (acc : option Z) (r : row) =>
              match acc, datetime r with
              | Some m, Some t => Some (Z.max m t)
              | None, t => t
              | acc, None => acc
              end) with max_step.
    destruct (fold_left max_step d None) as [m|].
    + destruct H as ([? | Hin] & _ & Hmax); [discriminate|]. eauto.
    + destruct H as [_ Hall]. right. eauto.
  - exists None. split; [|now left].
    unfold get_max_datetime, bind, exists_, ret. rewrite Hd.
    rewrite bool_decide_eq_false_2 by (intros [? ?]; congruence). reflexivity.
Qed.

Lemma tidy_tidy (files : gmap string (list row)) : tidy (tidy files) = tidy files.
Proof.
  paths. unfold tidy. apply map_eq. intros k.
  destruct (decide (k = backup_file)) as [->|]; [now look|].
  destruct (decide (k = temp_file)) as [->|]; now look.
Qed.

(** The sync when the incremental fetch brings nothing. *)
Lemma no_new_records_run (w : world) (files : gmap string (list row))
  (S : list row) (dt : Z) :
  release w = Some S -> 0 < length S -> max_datetime S = Some dt ->
  fst (fetch_from_wfs w (Some dt)) = 0 ->
  exists s, sync w files = (Ok true, s)
            /\ fs s = <[OUTPUT_FILE := S]> (tidy files).
Proof.
  intros HS Hlen Hdt Hzero.
  rewrite (sync_incremental w files S dt HS Hlen Hdt).
  rewrite (incremental_none w dt _ Hzero). cbn [fst snd].
  eexists. split; [reflexivity|]. rewrite cleanup_fs. unfold downloaded. norm.
  apply tidy_insert_out.
Qed.

(** X22: when the WFS has nothing newer than the release, a second sync
    started from the files of the first one succeeds and leaves them as they
    are. *)
Theorem quiet_sync_idempotent (w : world) (files : gmap string (list row))
  (S : list row) (dt : Z) :
  release w = Some S -> 0 < length S -> max_datetime S = Some dt ->
  fst (fetch_from_wfs w (Some dt)) = 0 ->
  exists s1 s2,
    sync w files = (Ok true, s1)
    /\ sync w (fs s1) = (Ok true, s2)
    /\ fs s2 = fs s1.
Proof.
  intros HS Hlen Hdt Hzero.
  destruct (no_new_records_run w files S dt HS Hlen Hdt Hzero) as (s1 & H1 & F1).
  destruct (no_new_records_run w (fs s1) S dt HS Hlen Hdt Hzero) as (s2 & H2 & F2).
  exists s1, s2. split; [exact H1|]. split; [exact H2|].
  rewrite F2, F1, tidy_insert_out, tidy_tidy. apply insert_insert_eq.
Qed.

Lemma quiet_sync_idempotent_witness :
  release Samples.quiet = Some [Samples.r1; Samples.r2]
  /\ 0 < length [Samples.r1; Samples.r2]
  /\ max_datetime [Samples.r1; Samples.r2] = Some 2%Z
  /\ fst (fetch_from_wfs Samples.quiet (Some 2%Z)) = 0
  /\ exists s1 s2,
       sync Samples.quiet Samples.behind = (Ok true, s1)
       /\ sync Samples.quiet (fs s1) = (Ok true, s2)
       /\ fs s2 = fs s1.
Proof.
  assert (0 < length [Samples.r1; Samples.r2]) as H1 by (simpl; lia).
  repeat (split; [first [reflexivity | assumption]|]).
  exact (quiet_sync_idempotent Samples.quiet Samples.behind
           [Samples.r1; Samples.r2] 2%Z eq_refl H1 eq_refl eq_refl).
Defined.

Lemma success_means_dataset_witness :
  sync Samples.sound Samples.ahead
  = (Ok true, snd (sync Samples.sound Samples.ahead))
  /\ exists d, fs (snd (sync Samples.sound Samples.ahead)) !! OUTPUT_FILE = Some d
               /\ 0 < length d.
Proof.
  assert (sync Samples.sound Samples.ahead
          = (Ok true, snd (sync Samples.sound Samples.ahead))) as H
    by (vm_compute; reflexivity).
  split; [exact H|].
  exact (success_means_dataset Samples.sound Samples.ahead _ H).
Defined.

(** The sync is a no-op when the local copy already is the release snapshot
    and no file is left over. *)
Lemma no_new_records_noop (w : world)
  (files : gmap string (list row)) (S : list row) (dt : Z) :
  release w = Some S -> 0 < length S -> max_datetime S = Some dt ->
  fst (fetch_from_wfs w (Some dt)) = 0 ->
  files !! OUTPUT_FILE = Some S ->
  files !! backup_file = None -> files !! temp_file = None ->
  exists s, sync w files = (Ok true, s) /\ fs s = files.
Proof.
  intros HS Hlen Hdt Hzero Hout Hbak Htmp.
  destruct (no_new_records_run w files S dt HS Hlen Hdt Hzero)
    as (s & Hrun & Hfs).
  exists s. split; [exact Hrun|]. rewrite Hfs. unfold tidy.
  rewrite (delete_id _ _ Htmp), (delete_id _ _ Hbak).
  now apply insert_id.
Qed.

Lemma full_fetch_without_release_witness :
  has_release Samples.offline = false
  /\ exists s,
       sync Samples.offline Samples.behind
       = (Ok (bool_decide (is_Some (fetched Samples.offline))), s)
       /\ fs s = match fetched Samples.offline with
                 | Some d => <[OUTPUT_FILE := d]> (tidy Samples.behind)
                 | None => tidy Samples.behind
                 end.
Proof.
  split; [reflexivity|].
  exact (full_fetch_without_release Samples.offline Samples.behind eq_refl).
Defined.

Lemma full_fetch_without_datetime_witness :
  release Samples.undated = Some [Samples.r0]
  /\ 0 < length [Samples.r0]
  /\ max_datetime [Samples.r0] = None
  /\ exists s,
       sync Samples.undated Samples.behind
       = (Ok (bool_decide (is_Some (fetched Samples.undated))), s)
       /\ fs s = match fetched Samples.undated with
                 | Some d => <[OUTPUT_FILE := d]> (tidy Samples.behind)
                 | None => <[OUTPUT_FILE := [Samples.r0]]> (tidy Samples.behind)
                 end.
Proof.
  assert (0 < length [Samples.r0]) as H1 by (simpl; lia).
  repeat (split; [first [reflexivity | assumption]|]).
  exact (full_fetch_without_datetime Samples.undated Samples.behind
           [Samples.r0] eq_refl H1 eq_refl).
Defined.

(** The sync when the merge is entered and fails. *)
Lemma failed_merge_run (w : world) (files : gmap string (list row))
  (S new_rows : list row) (dt : Z) :
  release w = Some S -> 0 < length S -> max_datetime S = Some dt ->
  wfs w (Some dt) = Some new_rows -> 0 < length new_rows ->
  merge_fails w (S ++ new_rows) ->
  exists s, sync w files = (Ok false, s)
            /\ fs s = <[OUTPUT_FILE := S]> (tidy files).
Proof.
  paths. intros HS Hlen Hdt Hnew Hlen' Hfail.
  rewrite (sync_incremental w files S dt HS Hlen Hdt).
  rewrite (incremental_merge w dt S new_rows _ Hnew Hlen')
    by (unfold downloaded; norm; now look).
  destruct (merge_outcome_failure w S (S ++ new_rows)
              (set_fs (<[backup_file := S]> (fs (downloaded S files)))
                 (downloaded S files)) Hfail)
    as (s' & -> & HB & Hother & _).
  { unfold downloaded. norm. now look. }
  { norm. now look. }
  rewrite (restore_run S s' HB). cbn [fst snd].
  eexists. split; [reflexivity|]. rewrite cleanup_fs. norm.
  unfold tidy. apply map_eq. intros k.
  destruct (decide (k = OUTPUT_FILE)) as [->|]; [now look|].
  destruct (decide (k = backup_file)) as [->|]; [now look|].
  destruct (decide (k = temp_file)) as [->|]; [now look|].
  look. rewrite Hother by assumption. unfold downloaded. norm. now look.
Qed.

(** X23: when the count of the staging file raises, as it does for a file
    name that ends in [.tmp], the incremental path never adds a record: the
    sync ends with the release snapshot as dataset whatever the WFS serves,
    and it reports success exactly when the fetch counted no record (nothing
    newer, or a fetch that failed). *)
Theorem count_failure_keeps_release (w : world)
  (files : gmap string (list row)) (S : list row) (dt : Z) :
  release w = Some S -> 0 < length S -> max_datetime S = Some dt ->
  raises w CountTemp = true ->
  exists b s,
    sync w files = (Ok b, s)
    /\ fs s = <[OUTPUT_FILE := S]> (tidy files)
    /\ (b = true <-> fst (fetch_from_wfs w (Some dt)) = 0).
Proof.
  intros HS Hlen Hdt Hcount.
  destruct (Nat.eq_dec (fst (fetch_from_wfs w (Some dt))) 0) as [Hzero|Hpos].
  - destruct (no_new_records_run w files S dt HS Hlen Hdt Hzero) as (s & Hrun & Hfs).
    exists true, s. split; [exact Hrun|]. split; [exact Hfs|]. tauto.
  - unfold fetch_from_wfs in Hpos.
    destruct (wfs w (Some dt)) as [new_rows|] eqn:Hnew; [|now contradiction Hpos].
    cbn [fst] in Hpos.
    destruct (failed_merge_run w files S new_rows dt HS Hlen Hdt Hnew)
      as (s & Hrun & Hfs); [lia | right; now exists CountTemp |].
    exists false, s. split; [exact Hrun|]. split; [exact Hfs|].
    unfold fetch_from_wfs. rewrite Hnew. cbn [fst].
    split; [discriminate | intros E; now contradiction Hpos].
Qed.

Lemma count_failure_keeps_release_witness :
  release Samples.count_raises = Some [Samples.r1]
  /\ 0 < length [Samples.r1]
  /\ max_datetime [Samples.r1] = Some 1%Z
  /\ raises Samples.count_raises CountTemp = true
  /\ exists b s,
       sync Samples.count_raises Samples.ahead = (Ok b, s)
       /\ fs s = <[OUTPUT_FILE := [Samples.r1]]> (tidy Samples.ahead)
       /\ (b = true <-> fst (fetch_from_wfs Samples.count_raises (Some 1%Z)) = 0).
Proof.
  assert (0 < length [Samples.r1]) as H1 by (simpl; lia).
  repeat (split; [first [reflexivity | assumption]|]).
  exact (count_failure_keeps_release Samples.count_raises Samples.ahead
           [Samples.r1] 1%Z eq_refl H1 eq_refl eq_refl).
Defined.

(** The rows that the WFS serves are lost to the dataset. *)
Example count_raises_sync :
  (let '(r, s) := sync Samples.count_raises Samples.ahead in
   (r, fs s !! OUTPUT_FILE, fs s !! backup_file, fs s !! temp_file))
  = (Ok false, Some [Samples.r1], None, None).
Proof. vm_compute. reflexivity. Qed.

End SyncFacts.
